(** * NeMo export and injection utilities: a shallow embedding

    The development follows [nemo/utils/export_utils.py] (expansion of
    one-dimensional torch layers into two-dimensional ones, substitution by
    dotted path) and [nemo/utils/injection_utils.py] ([run_injected]).

    Python objects live in a heap addressed by references, so that object
    identity, aliasing and in-place mutation are explicit.  Code runs in a
    state-and-exception monad whose state survives a raised exception, as
    Python's does.  The parts of torch and of [inspect] the two files call
    are modelled next to them; numeric kernels (convolution, mean, float32
    subtraction) and the random generator are operations of a [Backend]. *)

From Stdlib Require Import Floats.PrimFloat Strings.Ascii.
From stdpp Require Import gmap strings list fin_maps pretty.

Set Default Proof Using "Type".
Set Warnings "-register-all".

(** ** Ordered dictionaries

    [OrderedDict] and insertion-ordered [dict]: an association list with
    unique keys; assignment replaces in place or appends. *)

Section odict.
Context {V : Type}.

Fixpoint dict_get (k : string) (d : list (string * V)) : option V :=
  match d with
  | [] => None
  | (k', v) :: d' => if decide (k' = k) then Some v else dict_get k d'
  end.

Fixpoint dict_set (k : string) (v : V) (d : list (string * V)) : list (string * V) :=
  match d with
  | [] => [(k, v)]
  | (k', v') :: d' =>
      if decide (k' = k) then (k', v) :: d' else (k', v') :: dict_set k v d'
  end.

Definition dict_mem (k : string) (d : list (string * V)) : bool :=
  bool_decide (is_Some (dict_get k d)).

Fixpoint dict_del (k : string) (d : list (string * V)) : list (string * V) :=
  match d with
  | [] => []
  | (k', v') :: d' => if decide (k' = k) then d' else (k', v') :: dict_del k d'
  end.
End odict.

(** ** Strings: [str.split] on one character, and slices of the result *)

Fixpoint split_on (sep : ascii) (s : string) : list string :=
  match s with
  | EmptyString => [EmptyString]
  | String c s' =>
      if decide (c = sep) then EmptyString :: split_on sep s'
      else match split_on sep s' with
           | [] => [String c EmptyString]
           | w :: ws => String c w :: ws
           end
  end.

(** [path.split(".")] *)
Definition split_dots (path : string) : list string := split_on "."%char path.

(** [xs[:-1]] *)
Definition but_last {A} (xs : list A) : list A := take (length xs - 1) xs.

(** ** Python values, objects and the heap *)

Definition loc := nat.

Inductive value :=
| VNone
| VBool (b : bool)
| VInt (n : Z)
| VFloat (x : float)
| VStr (s : string)
| VTuple (vs : list value)
| VDict (kvs : list (string * value))
| VRef (l : loc).

(** A class: the module it is defined in and its [__name__]. *)
Record class := Class { c_module : string; c_name : string }.

Global Instance class_eq_dec : EqDecision class.
Proof. solve_decision. Defined.

(** Tensor elements: float32 values (each one is a binary64 value, which is
    how they are carried here) and int64 values. *)
Inductive tdata :=
| DFloat (xs : list float)
| DLong (ns : list Z).

(** A tensor object: a shape over a storage.  Views share the storage;
    [nn.Parameter] is a tensor subclass. *)
Record tensor := Tensor {
  t_is_param : bool;
  t_shape : list nat;
  t_storage : loc;
}.

(** An [nn.Module] instance. *)
Record module := Module {
  m_class : class;                          (* type(m) *)
  m_bases : list class;                     (* the rest of type(m).__mro__ *)
  m_sized : bool;                           (* the class defines __len__ = len(self._modules) *)
  m_constants : option (list string);       (* the class attribute __constants__ *)
  m_dict : list (string * value);           (* plain instance attributes, __dict__ *)
  _parameters : list (string * option loc);
  _buffers : list (string * option loc);
  _modules : list (string * option loc);
}.

Inductive obj :=
| OStorage (d : tdata)
| OTensor (t : tensor)
| OModule (m : module).

Inductive exn_kind :=
| ValueError | TypeError | KeyError | AttributeError | IndexError
| RuntimeError | ZeroDivisionError | RecursionError | SystemError.

Record exn := Exn { exn_type : exn_kind; exn_msg : string }.

Inductive result (A : Type) :=
| Ok (a : A)
| Raise (e : exn).
Arguments Ok {A} a.
Arguments Raise {A} e.

Global Instance result_ret : MRet result := λ A a, Ok a.
Global Instance result_bind : MBind result := λ A C k r,
  match r with
  | Ok a => k a
  | Raise e => Raise e
  end.

(** A tensor value: shape and elements, as a numeric kernel reads it. *)
Definition tval : Type := list nat * tdata.

(** ** The numeric backend

    What the embedding takes from torch without looking inside: the default
    random generator, the convolution kernels, the mean, and float32
    subtraction. *)
Class Backend := {
  generator : Type;
  (** [torch.rand]: that many samples of U[0,1) and the advanced generator *)
  rand_floats : generator → nat → list float * generator;
  (** [reset_parameters] of a convolution: initial weight and bias data *)
  init_floats : generator → nat → list float * generator;
  (** [F.conv1d] / [F.conv2d] (after [F.pad] for a padding mode other than
      zeros): input, weight, bias, stride, padding, dilation, groups,
      padding mode; [None] is torch's [RuntimeError] *)
  conv1d_kernel : tval → tval → option tval → list Z → list Z → list Z → Z → string → option tval;
  conv2d_kernel : tval → tval → option tval → list Z → list Z → list Z → Z → string → option tval;
  (** [Tensor.mean()] of a float tensor *)
  mean_kernel : list nat → list float → float;
  (** float32 subtraction *)
  sub32 : float → float → float;
}.

Section model.
Context `{B : Backend}.

Record state := State {
  heap : list obj;
  rng : generator;
  log : list string;
}.

Definition M (A : Type) : Type := state → result A * state.

Definition raise {A} (k : exn_kind) (msg : string) : M A := λ s, (Raise (Exn k msg), s).

Global Instance M_ret : MRet M := λ A a s, (Ok a, s).
Global Instance M_bind : MBind M := λ A C k m s,
  match m s with
  | (Ok a, s') => k a s'
  | (Raise e, s') => (Raise e, s')
  end.

End model.

Abbreviation ret := mret (only parsing).

(** ** Heap access and the Python operations the sources use *)

Section python.
Context `{B : Backend}.

Definition get_state : M state := λ s, (Ok s, s).

(** Allocation appends: references already handed out stay valid. *)
Definition alloc (o : obj) : M loc :=
  λ s, (Ok (length (heap s)), State (heap s ++ [o]) (rng s) (log s)).

Definition read (l : loc) : M obj :=
  λ s, match heap s !! l with
       | Some o => (Ok o, s)
       | None => (Raise (Exn SystemError "dangling reference"), s)
       end.

Definition write (l : loc) (o : obj) : M unit :=
  λ s, (Ok tt, State (<[l := o]> (heap s)) (rng s) (log s)).

Definition read_module (l : loc) : M module :=
  o ← read l;
  match o with
  | OModule m => ret m
  | _ => raise AttributeError "not a module"
  end.

Definition read_tensor (l : loc) : M tensor :=
  o ← read l;
  match o with
  | OTensor t => ret t
  | _ => raise AttributeError "not a tensor"
  end.

Definition read_storage (l : loc) : M tdata :=
  o ← read l;
  match o with
  | OStorage d => ret d
  | _ => raise SystemError "not a storage"
  end.

(** The value of a tensor object: its shape and the elements of its storage. *)
Definition tensor_value (l : loc) : M tval :=
  t ← read_tensor l;
  d ← read_storage (t_storage t);
  ret (t_shape t, d).

(** A [for] loop over a list that threads an accumulator. *)
Fixpoint foldlM {A C} (f : C → A → M C) (c : C) (xs : list A) : M C :=
  match xs with
  | [] => ret c
  | x :: xs' => c' ← f c x; foldlM f c' xs'
  end.

(** [logging.warning(msg)] *)
Definition logging_warning (msg : string) : M unit :=
  λ s, (Ok tt, State (heap s) (rng s) (log s ++ [msg])).

(** [isinstance(x, C)] for an object reference [x] and a module class [C] *)
Definition isinstance_obj (o : option obj) (C : class) : bool :=
  match o with
  | Some (OModule m) => bool_decide (C = m_class m ∨ C ∈ m_bases m)
  | _ => false
  end.

Definition isinstance (l : loc) (C : class) : M bool :=
  λ s, (Ok (isinstance_obj (heap s !! l) C), s).

(** [isinstance(x, nn.Parameter)] and [isinstance(x, torch.Tensor)] for a value *)
Definition is_parameter (h : list obj) (v : value) : bool :=
  match v with
  | VRef l => match h !! l with Some (OTensor t) => t_is_param t | _ => false end
  | _ => false
  end.

Definition is_tensor (h : list obj) (v : value) : bool :=
  match v with
  | VRef l => match h !! l with Some (OTensor _) => true | _ => false end
  | _ => false
  end.

Definition is_module (h : list obj) (v : value) : bool :=
  match v with
  | VRef l => match h !! l with Some (OModule _) => true | _ => false end
  | _ => false
  end.

Definition opt_ref (o : option loc) : value :=
  match o with Some l => VRef l | None => VNone end.

(** [Module.__getattr__] after ordinary lookup: instance attributes, then
    [_parameters], [_buffers], [_modules]. *)
Definition module_getattr (m : module) (name : string) : option value :=
  match dict_get name (m_dict m) with
  | Some v => Some v
  | None =>
      match dict_get name (_parameters m) with
      | Some p => Some (opt_ref p)
      | None =>
          match dict_get name (_buffers m) with
          | Some b => Some (opt_ref b)
          | None =>
              match dict_get name (_modules m) with
              | Some c => Some (opt_ref c)
              | None => None
              end
          end
      end
  end.

(** [getattr(x, name)] *)
Definition getattr (l : loc) (name : string) : M value :=
  m ← read_module l;
  match module_getattr m name with
  | Some v => ret v
  | None => raise AttributeError name
  end.

(** [getattr(x, name, None)] *)
Definition getattr_default (l : loc) (name : string) : M value :=
  m ← read_module l;
  ret (default VNone (module_getattr m name)).

(** [x[i]] for a tuple *)
Definition getitem (v : value) (i : nat) : M value :=
  match v with
  | VTuple vs =>
      match vs !! i with
      | Some x => ret x
      | None => raise IndexError "tuple index out of range"
      end
  | VStr s =>
      match s, i with
      | String c _, O => ret (VStr (String c EmptyString))
      | _, _ => raise IndexError "string index out of range"
      end
  | _ => raise TypeError "object is not subscriptable"
  end.

Definition set_dict (m : module) (d : list (string * value)) : module :=
  Module (m_class m) (m_bases m) (m_sized m) (m_constants m) d
         (_parameters m) (_buffers m) (_modules m).
Definition set_parameters (m : module) (ps : list (string * option loc)) : module :=
  Module (m_class m) (m_bases m) (m_sized m) (m_constants m) (m_dict m)
         ps (_buffers m) (_modules m).
Definition set_buffers (m : module) (bs : list (string * option loc)) : module :=
  Module (m_class m) (m_bases m) (m_sized m) (m_constants m) (m_dict m)
         (_parameters m) bs (_modules m).
Definition set_modules (m : module) (cs : list (string * option loc)) : module :=
  Module (m_class m) (m_bases m) (m_sized m) (m_constants m) (m_dict m)
         (_parameters m) (_buffers m) cs.

(** [Module.__setattr__]: a Parameter is registered (and the name removed
    from the other tables); [None] is accepted for a registered parameter,
    child or buffer; a Module value becomes a child; a tensor may replace a
    buffer; anything else is a plain attribute. *)
Definition module_setattr (l : loc) (name : string) (v : value) : M unit :=
  m ← read_module l;
  s ← get_state;
  if is_parameter (heap s) v then
    match v with
    | VRef p =>
        let m1 := set_modules (set_buffers (set_dict m (dict_del name (m_dict m)))
                                 (dict_del name (_buffers m)))
                              (dict_del name (_modules m)) in
        write l (OModule (set_parameters m1 (dict_set name (Some p) (_parameters m1))))
    | _ => raise SystemError "unreachable"
    end
  else if dict_mem name (_parameters m) then
    match v with
    | VNone => write l (OModule (set_parameters m (dict_set name None (_parameters m))))
    | _ => raise TypeError "cannot assign as parameter"
    end
  else if is_module (heap s) v then
    match v with
    | VRef c =>
        let m1 := set_buffers (set_parameters (set_dict m (dict_del name (m_dict m)))
                                 (dict_del name (_parameters m)))
                              (dict_del name (_buffers m)) in
        write l (OModule (set_modules m1 (dict_set name (Some c) (_modules m1))))
    | _ => raise SystemError "unreachable"
    end
  else if dict_mem name (_modules m) then
    match v with
    | VNone => write l (OModule (set_modules m (dict_set name None (_modules m))))
    | _ => raise TypeError "cannot assign as child module"
    end
  else if dict_mem name (_buffers m) then
    match v with
    | VNone => write l (OModule (set_buffers m (dict_set name None (_buffers m))))
    | VRef t =>
        if is_tensor (heap s) v
        then write l (OModule (set_buffers m (dict_set name (Some t) (_buffers m))))
        else raise TypeError "cannot assign as buffer"
    | _ => raise TypeError "cannot assign as buffer"
    end
  else write l (OModule (set_dict m (dict_set name v (m_dict m)))).

End python.

(** ** torch: tensors *)

Section torch.
Context `{B : Backend}.

Definition numel (shape : list nat) : nat := foldr Nat.mul 1 shape.

(** A Python int used as a size. *)
Definition as_size (v : value) : M nat :=
  match v with
  | VInt n =>
      if decide (0 ≤ n)%Z then ret (Z.to_nat n)
      else raise RuntimeError "negative dimension"
  | VBool b => ret (if b then 1 else 0)
  | _ => raise TypeError "an integer is required"
  end.

Definition as_int (v : value) : M Z :=
  match v with
  | VInt n => ret n
  | VBool b => ret (if b then 1%Z else 0%Z)
  | _ => raise TypeError "an integer is required"
  end.

Fixpoint as_ints (vs : list value) : M (list Z) :=
  match vs with
  | [] => ret []
  | v :: vs' => n ← as_int v; ns ← as_ints vs'; ret (n :: ns)
  end.

Definition as_int_tuple (v : value) : M (list Z) :=
  match v with
  | VTuple vs => as_ints vs
  | _ => raise TypeError "a tuple of ints is required"
  end.

(** [torch.rand] at a shape *)
Definition torch_rand (shape : list nat) : M tval :=
  λ s, let '(xs, g) := rand_floats (rng s) (numel shape) in
       (Ok (shape, DFloat xs), State (heap s) g (log s)).

(** The data [reset_parameters] draws for a tensor of that shape. *)
Definition init_data (shape : list nat) : M tdata :=
  λ s, let '(xs, g) := init_floats (rng s) (numel shape) in
       (Ok (DFloat xs), State (heap s) g (log s)).

(** A new tensor object over a new storage. *)
Definition new_tensor (param : bool) (shape : list nat) (d : tdata) : M loc :=
  st ← alloc (OStorage d);
  alloc (OTensor (Tensor param shape st)).

(** [t.unsqueeze(-1)] and [t.squeeze()] on shapes: views, the data is shared. *)
Definition unsqueeze_last (shape : list nat) : list nat := shape ++ [1].
Definition squeeze (shape : list nat) : list nat := filter (λ n, n ≠ 1) shape.

(** [nn.Parameter(t.unsqueeze(-1))]: a new Parameter object over [t]'s storage *)
Definition Parameter_of_unsqueezed (t : loc) : M loc :=
  x ← read_tensor t;
  alloc (OTensor (Tensor true (unsqueeze_last (t_shape x)) (t_storage x))).

(** [t.mean()] *)
Definition float_mean (x : tval) : result float :=
  match x.2 with
  | DFloat xs => Ok (mean_kernel x.1 xs)
  | DLong _ => Raise (Exn RuntimeError "mean is not defined for Long")
  end.

Definition tensor_mean (x : tval) : M float := λ s, (float_mean x, s).

(** The Python float [1e-6], exactly. *)
Definition tolerance : float := 0x1.0c6f7a0b5ed8dp-20%float.

(** [close.abs() > 1e-6] *)
Definition exceeds_tolerance (close : float) : bool :=
  PrimFloat.ltb tolerance (PrimFloat.abs close).

(** ** torch: classes of [torch.nn] *)

Definition nn_Module := Class "torch.nn.modules.module" "Module".
Definition nn_ConvNd := Class "torch.nn.modules.conv" "_ConvNd".
Definition nn_Conv1d := Class "torch.nn.modules.conv" "Conv1d".
Definition nn_Conv2d := Class "torch.nn.modules.conv" "Conv2d".
Definition nn_NormBase := Class "torch.nn.modules.batchnorm" "_NormBase".
Definition nn_BatchNorm := Class "torch.nn.modules.batchnorm" "_BatchNorm".
Definition nn_BatchNorm1d := Class "torch.nn.modules.batchnorm" "BatchNorm1d".
Definition nn_BatchNorm2d := Class "torch.nn.modules.batchnorm" "BatchNorm2d".
Definition nn_AvgPoolNd := Class "torch.nn.modules.pooling" "_AvgPoolNd".
Definition nn_AvgPool1d := Class "torch.nn.modules.pooling" "AvgPool1d".
Definition nn_AvgPool2d := Class "torch.nn.modules.pooling" "AvgPool2d".
Definition nn_AdaptiveAvgPoolNd := Class "torch.nn.modules.pooling" "_AdaptiveAvgPoolNd".
Definition nn_AdaptiveAvgPool1d := Class "torch.nn.modules.pooling" "AdaptiveAvgPool1d".
Definition nn_AdaptiveAvgPool2d := Class "torch.nn.modules.pooling" "AdaptiveAvgPool2d".

(** [type(m).__name__] *)
Definition type_name (m : module) : string := c_name (m_class m).

(** Truth value of a module: a class with [__len__] is false when empty. *)
Definition module_truthy (m : module) : bool :=
  if m_sized m then negb (bool_decide (length (_modules m) = 0)) else true.

Definition truthy (v : value) : bool :=
  match v with
  | VNone => false
  | VBool b => b
  | VInt n => negb (bool_decide (n = 0%Z))
  | VFloat x => negb (PrimFloat.eqb x 0%float)
  | VStr s => negb (bool_decide (s = EmptyString))
  | VTuple vs => negb (bool_decide (vs = []))
  | VDict kvs => negb (bool_decide (length kvs = 0))
  | VRef _ => true
  end.

(** ** torch: convolution *)

Definition conv_constants : list string :=
  ["stride"; "padding"; "dilation"; "groups"; "padding_mode"; "output_padding";
   "in_channels"; "out_channels"; "kernel_size"].

Definition valid_padding_modes : list string :=
  ["zeros"; "reflect"; "replicate"; "circular"].

(** [_reverse_repeat_tuple(t, 2)] *)
Definition reverse_repeat_twice (vs : list value) : list value :=
  flat_map (λ v, [v; v]) (reverse vs).

(** [nn.Conv2d(in_channels, out_channels, kernel_size=.., stride=..,
    padding=.., dilation=.., groups=.., padding_mode=..)], the geometry
    given as pairs, [bias] left at its default [True]. *)
Definition Conv2d (in_channels out_channels kernel_size stride padding dilation
                   groups padding_mode : value) : M loc :=
  cin ← as_int in_channels;
  cout ← as_int out_channels;
  g ← as_int groups;
  (if decide (g = 0%Z) then raise ZeroDivisionError "integer division or modulo by zero"
   else ret tt);;
  (if decide ((cin `mod` g)%Z = 0%Z) then ret tt
   else raise ValueError "in_channels must be divisible by groups");;
  (if decide ((cout `mod` g)%Z = 0%Z) then ret tt
   else raise ValueError "out_channels must be divisible by groups");;
  (match padding_mode with
   | VStr pm => if decide (pm ∈ valid_padding_modes) then ret tt
                else raise ValueError "padding_mode must be one of zeros, reflect, replicate, circular"
   | _ => raise ValueError "padding_mode must be one of zeros, reflect, replicate, circular"
   end);;
  pad ← (match padding with
         | VTuple vs => ret (VTuple (reverse_repeat_twice vs))
         | _ => raise TypeError "padding is not a tuple"
         end);
  ks ← (match kernel_size with
        | VTuple vs => mapM as_size vs
        | _ => raise TypeError "kernel_size is not a tuple"
        end);
  d0 ← as_size out_channels;
  d1 ← as_size (VInt (cin `div` g));
  let wshape := d0 :: d1 :: ks in
  w0 ← init_data wshape;
  w ← new_tensor true wshape w0;
  b0 ← init_data [d0];
  b ← new_tensor true [d0] b0;
  alloc (OModule
    {| m_class := nn_Conv2d;
       m_bases := [nn_ConvNd; nn_Module];
       m_sized := false;
       m_constants := Some conv_constants;
       m_dict :=
         [("in_channels", in_channels); ("out_channels", out_channels);
          ("kernel_size", kernel_size); ("stride", stride); ("padding", padding);
          ("dilation", dilation); ("transposed", VBool false);
          ("output_padding", VTuple [VInt 0; VInt 0]); ("groups", groups);
          ("padding_mode", padding_mode); ("_reversed_padding_repeated_twice", pad)];
       _parameters := [("weight", Some w); ("bias", Some b)];
       _buffers := [];
       _modules := [] |}).

(** [forward] of a convolution module: the kernel applied to the module's
    weight, bias and geometry. *)
Definition conv_forward
    (kernel : tval → tval → option tval → list Z → list Z → list Z → Z → string → option tval)
    (l : loc) (x : tval) : M tval :=
  wv ← getattr l "weight";
  w ← (match wv with VRef wl => tensor_value wl | _ => raise TypeError "weight is not a tensor" end);
  bv ← getattr l "bias";
  b ← (match bv with
       | VNone => ret None
       | VRef bl => t ← tensor_value bl; ret (Some t)
       | _ => raise TypeError "bias is not a tensor"
       end);
  stride ← (v ← getattr l "stride"; as_int_tuple v);
  padding ← (v ← getattr l "padding"; as_int_tuple v);
  dilation ← (v ← getattr l "dilation"; as_int_tuple v);
  groups ← (v ← getattr l "groups"; as_int v);
  pmv ← getattr l "padding_mode";
  pm ← (match pmv with VStr pm => ret pm | _ => raise TypeError "padding_mode is not a str" end);
  match kernel x w b stride padding dilation groups pm with
  | Some y => ret y
  | None => raise RuntimeError "convolution failed"
  end.

Definition Conv1d_call : loc → tval → M tval := conv_forward conv1d_kernel.
Definition Conv2d_call : loc → tval → M tval := conv_forward conv2d_kernel.

(** ** torch: batch normalisation *)

Definition norm_constants : list string :=
  ["track_running_stats"; "momentum"; "eps"; "num_features"; "affine"].

(** [nn.BatchNorm2d(num_features, eps=.., momentum=.., affine=..,
    track_running_stats=..)]: weight ones and bias zeros when affine,
    running mean zeros, running variance ones and a zero update count when
    statistics are tracked, [None] entries otherwise. *)
Definition BatchNorm2d (num_features eps momentum affine track_running_stats : value) : M loc :=
  params ←
    (if truthy affine then
       n ← as_size num_features;
       w ← new_tensor true [n] (DFloat (replicate n 1%float));
       b ← new_tensor true [n] (DFloat (replicate n 0%float));
       ret [("weight", Some w); ("bias", Some b)]
     else ret [("weight", None); ("bias", None)]);
  buffers ←
    (if truthy track_running_stats then
       n ← as_size num_features;
       rm ← new_tensor false [n] (DFloat (replicate n 0%float));
       rv ← new_tensor false [n] (DFloat (replicate n 1%float));
       nb ← new_tensor false [] (DLong [0%Z]);
       ret [("running_mean", Some rm); ("running_var", Some rv);
            ("num_batches_tracked", Some nb)]
     else ret [("running_mean", None); ("running_var", None);
               ("num_batches_tracked", None)]);
  alloc (OModule
    {| m_class := nn_BatchNorm2d;
       m_bases := [nn_BatchNorm; nn_NormBase; nn_Module];
       m_sized := false;
       m_constants := Some norm_constants;
       m_dict :=
         [("num_features", num_features); ("eps", eps); ("momentum", momentum);
          ("affine", affine); ("track_running_stats", track_running_stats)];
       _parameters := params;
       _buffers := buffers;
       _modules := [] |}).

(** A state dict: keys to (detached) tensors, in insertion order. *)
Definition state_dict_t : Type := list (string * tensor).

(** The entries of one table of a module ([_parameters] or [_buffers]):
    every entry that is not [None], detached, under [prefix + name]. *)
Fixpoint save_entries (pre : string) (es : list (string * option loc))
    (dest : state_dict_t) : M state_dict_t :=
  match es with
  | [] => ret dest
  | (name, None) :: es' => save_entries pre es' dest
  | (name, Some l) :: es' =>
      t ← read_tensor l;
      save_entries pre es' (dict_set (pre +:+ name) (Tensor false (t_shape t) (t_storage t)) dest)
  end.

(** [Module.state_dict(destination, prefix)]: own parameters, own buffers,
    then every child under [prefix + name + "."].  There is no memo: the
    recursion ends on the depth of the hierarchy. *)
Fixpoint state_dict_go (fuel : nat) (l : loc) (pre : string) (dest : state_dict_t)
    : M state_dict_t :=
  match fuel with
  | O => raise RecursionError "maximum recursion depth exceeded"
  | S fuel' =>
      m ← read_module l;
      d1 ← save_entries pre (_parameters m) dest;
      d2 ← save_entries pre (_buffers m) d1;
      foldlM (λ d c,
                match c.2 with
                | None => ret d
                | Some cl => state_dict_go fuel' cl (pre +:+ c.1 +:+ ".") d
                end) d2 (_modules m)
  end.

Definition state_dict (l : loc) : M state_dict_t :=
  s ← get_state;
  state_dict_go (S (length (heap s))) l "" [].

(** The non-[None] entries of a module's parameters and buffers. *)
Definition local_state (m : module) : list (string * loc) :=
  omap (λ e, match e.2 with Some l => Some (e.1, l) | None => None end)
       (_parameters m ++ _buffers m).

(** The outcome of loading one module's own entries. *)
Record load_report := LoadReport {
  missing_keys : list string;
  unexpected_keys : list string;
  error_msgs : list string;
}.

(** One entry of [_load_from_state_dict]: a key that is present is checked
    for its shape and copied in place into the destination's storage; a
    one-element vector is accepted for a scalar destination. *)
Definition load_entry (sd : state_dict_t) (pre : string) (r : load_report)
    (e : string * loc) : M load_report :=
  let key := pre +:+ e.1 in
  match dict_get key sd with
  | None => ret (LoadReport (missing_keys r ++ [key]) (unexpected_keys r) (error_msgs r))
  | Some input =>
      param ← read_tensor e.2;
      d ← read_storage (t_storage input);
      let '(ishape, idata) :=
        match t_shape param, t_shape input with
        | [], [_] =>
            ([], match d with
                 | DFloat xs => DFloat (take 1 xs)
                 | DLong ns => DLong (take 1 ns)
                 end)
        | _, sh => (sh, d)
        end in
      if decide (ishape = t_shape param) then
        write (t_storage param) (OStorage idata);;
        ret r
      else ret (LoadReport (missing_keys r) (unexpected_keys r)
                           (error_msgs r ++ ["size mismatch for " +:+ key]))
  end.

(** The name a key starts with after the prefix: [key[len(prefix):].split(".", 1)[0]]. *)
Definition key_head (pre key : string) : option string :=
  if String.prefix pre key
  then head (split_dots (String.substring (String.length pre)
                           (String.length key - String.length pre) key))
  else None.

(** [Module._load_from_state_dict] in strict mode. *)
Definition load_from_state_dict (l : loc) (sd : state_dict_t) (pre : string)
    (r : load_report) : M load_report :=
  m ← read_module l;
  r1 ← foldlM (load_entry sd pre) r (local_state m);
  let unexpected :=
    List.filter (λ key, match key_head pre key with
                   | Some name =>
                       negb (dict_mem name (_modules m)) && negb (dict_mem name (local_state m))
                   | None => false
                   end) sd.*1 in
  ret (LoadReport (missing_keys r1) (unexpected_keys r1 ++ unexpected) (error_msgs r1)).

(** The recursive [load] of [load_state_dict]: the module, then its children. *)
Fixpoint load_go (fuel : nat) (l : loc) (sd : state_dict_t) (pre : string)
    (r : load_report) : M load_report :=
  match fuel with
  | O => raise RecursionError "maximum recursion depth exceeded"
  | S fuel' =>
      r1 ← load_from_state_dict l sd pre r;
      m ← read_module l;
      foldlM (λ r' c,
                match c.2 with
                | None => ret r'
                | Some cl => load_go fuel' cl sd (pre +:+ c.1 +:+ ".") r'
                end) r1 (_modules m)
  end.

(** [Module.load_state_dict(state_dict)] with [strict=True]. *)
Definition load_state_dict (l : loc) (sd : state_dict_t) : M unit :=
  s ← get_state;
  r ← load_go (S (length (heap s))) l sd "" (LoadReport [] [] []);
  if bool_decide (missing_keys r = [] ∧ unexpected_keys r = [] ∧ error_msgs r = [])
  then ret tt
  else raise RuntimeError "Error(s) in loading state_dict".

(** ** torch: pooling constructors *)

Definition pool_module (C base : class) (constants : list string)
    (d : list (string * value)) : obj :=
  OModule {| m_class := C; m_bases := [base; nn_Module]; m_sized := false;
             m_constants := Some constants; m_dict := d;
             _parameters := []; _buffers := []; _modules := [] |}.

(** [nn.AdaptiveAvgPool2d(output_size)], called with positional arguments *)
Definition AdaptiveAvgPool2d (args : list value) : M loc :=
  match args with
  | [output_size] =>
      alloc (pool_module nn_AdaptiveAvgPool2d nn_AdaptiveAvgPoolNd ["output_size"]
               [("output_size", output_size)])
  | _ => raise TypeError "__init__() takes 2 positional arguments"
  end.

Definition avg_pool_constants : list string :=
  ["kernel_size"; "stride"; "padding"; "ceil_mode"; "count_include_pad"; "divisor_override"].

(** [nn.AvgPool2d(kernel_size, stride=None, padding=0, ceil_mode=False,
    count_include_pad=True, divisor_override=None)], called with positional
    arguments *)
Definition AvgPool2d (args : list value) : M loc :=
  match args with
  | [] => raise TypeError "__init__() missing 1 required positional argument: 'kernel_size'"
  | kernel_size :: rest =>
      if decide (5 < length rest) then raise TypeError "__init__() takes from 2 to 7 positional arguments"
      else
        let stride := default VNone (rest !! 0) in
        let padding := default (VInt 0) (rest !! 1) in
        let ceil_mode := default (VBool false) (rest !! 2) in
        let count_include_pad := default (VBool true) (rest !! 3) in
        let divisor_override := default VNone (rest !! 4) in
        alloc (pool_module nn_AvgPool2d nn_AvgPoolNd avg_pool_constants
                 [("kernel_size", kernel_size);
                  ("stride", match stride with VNone => kernel_size | _ => stride end);
                  ("padding", padding); ("ceil_mode", ceil_mode);
                  ("count_include_pad", count_include_pad);
                  ("divisor_override", divisor_override)])
  end.

(** ** torch: [Module.named_modules]

    Pre-order, the module itself first under the prefix; a module already
    in the memo is skipped, so a shared module is listed under the first
    path that reaches it.  A child's prefix is
    [prefix + ('.' if prefix else '') + name]. *)

Definition child_prefix (pre name : string) : string :=
  pre +:+ (if decide (pre = EmptyString) then EmptyString else ".") +:+ name.

Definition nm_acc : Type := list (string * loc) * gset loc.

(** One turn of the loop over [self._modules.items()]: a [None] child is
    skipped, another child yields its own enumeration. *)
Definition visit (go : gset loc → string → loc → result nm_acc) (pre : string)
    (acc : result nm_acc) (c : string * option loc) : result nm_acc :=
  match acc with
  | Raise e => Raise e
  | Ok (out, memo') =>
      match c.2 with
      | None => Ok (out, memo')
      | Some cl =>
          match go memo' (child_prefix pre c.1) cl with
          | Raise e => Raise e
          | Ok (out', memo'') => Ok (out ++ out', memo'')
          end
      end
  end.

Fixpoint named_modules_go (fuel : nat) (h : list obj) (memo : gset loc)
    (pre : string) (l : loc) : result nm_acc :=
  match fuel with
  | O => Raise (Exn RecursionError "maximum recursion depth exceeded")
  | S fuel' =>
      match h !! l with
      | Some (OModule m) =>
          if decide (l ∈ memo) then Ok ([], memo)
          else foldl (visit (named_modules_go fuel' h) pre)
                     (Ok ([(pre, l)], {[l]} ∪ memo)) (_modules m)
      | _ => Raise (Exn AttributeError "named_modules")
      end
  end.

(** [list(model.named_modules())] *)
Definition named_modules (model : loc) : M (list (string * loc)) :=
  λ s, match named_modules_go (S (length (heap s))) (heap s) ∅ EmptyString model with
       | Ok (out, _) => (Ok out, s)
       | Raise e => (Raise e, s)
       end.

End torch.

Arguments numel : simpl never.
Arguments exceeds_tolerance : simpl never.

(** * [nemo/utils/export_utils.py] *)

Section export_utils.
Context `{B : Backend}.

(** A conversion function: node to replacement node or [None]. *)
Definition expander : Type := loc → M (option loc).

(** The body of the validation loop of [expand_Conv1D]. *)
Definition check_expansion (conv1d conv2d : loc) : M unit :=
  c ← (v ← getattr conv1d "in_channels"; as_size v);
  sample_input ← torch_rand [1; c; 256];
  y1 ← Conv1d_call conv1d sample_input;
  m1 ← tensor_mean y1;
  y2 ← Conv2d_call conv2d (unsqueeze_last sample_input.1, sample_input.2);
  m2 ← tensor_mean (squeeze y2.1, y2.2);
  let close := sub32 m1 m2 in
  if exceeds_tolerance close
  then raise ValueError "Unable to expand Conv1D to Conv2D"
  else ret tt.

(** [for _ in range(n): body] *)
Fixpoint for_range (n : nat) (body : M unit) : M unit :=
  match n with
  | O => ret tt
  | S n' => body;; for_range n' body
  end.

Definition expand_Conv1D (conv1d : loc) : M (option loc) :=
  is_conv ← isinstance conv1d nn_Conv1d;
  if negb is_conv then ret None
  else
    in_channels ← getattr conv1d "in_channels";
    out_channels ← getattr conv1d "out_channels";
    k ← (v ← getattr conv1d "kernel_size"; getitem v 0);
    st ← (v ← getattr conv1d "stride"; getitem v 0);
    p ← (v ← getattr conv1d "padding"; getitem v 0);
    d ← (v ← getattr conv1d "dilation"; getitem v 0);
    groups ← getattr conv1d "groups";
    padding_mode ← getattr conv1d "padding_mode";
    conv2d ← Conv2d in_channels out_channels
                    (VTuple [k; VInt 1]) (VTuple [st; VInt 1])
                    (VTuple [p; VInt 0]) (VTuple [d; VInt 1])
                    groups padding_mode;
    bias ← getattr conv1d "bias";
    module_setattr conv2d "bias" bias;;
    weight ← getattr conv1d "weight";
    w ← (match weight with
         | VRef wl => Parameter_of_unsqueezed wl
         | _ => raise AttributeError "unsqueeze"
         end);
    module_setattr conv2d "weight" (VRef w);;
    for_range 2 (check_expansion conv1d conv2d);;
    ret (Some conv2d).

Definition expand_BatchNorm1d (bn1d : loc) : M (option loc) :=
  is_bn ← isinstance bn1d nn_BatchNorm1d;
  if negb is_bn then ret None
  else
    num_features ← getattr bn1d "num_features";
    eps ← getattr bn1d "eps";
    momentum ← getattr bn1d "momentum";
    affine ← getattr bn1d "affine";
    track_running_stats ← getattr bn1d "track_running_stats";
    mod' ← BatchNorm2d num_features eps momentum affine track_running_stats;
    bn_state ← state_dict bn1d;
    load_state_dict mod' bn_state;;
    ret (Some mod').

(** [parent_mod._modules[sub_path]]; [parent_mod] may have become [None]. *)
Definition child_of (parent_mod : option loc) (sub_path : string) : M (option loc) :=
  match parent_mod with
  | None => raise AttributeError "'NoneType' object has no attribute '_modules'"
  | Some pl =>
      m ← read_module pl;
      match dict_get sub_path (_modules m) with
      | Some c => ret c
      | None => raise KeyError sub_path
      end
  end.

(** [parent_mod._modules[name] = new_mod] *)
Definition set_child (parent_mod : option loc) (name : string) (new_mod : loc) : M unit :=
  match parent_mod with
  | None => raise AttributeError "'NoneType' object has no attribute '_modules'"
  | Some pl =>
      m ← read_module pl;
      write pl (OModule (set_modules m (dict_set name (Some new_mod) (_modules m))))
  end.

(** The body of the loop of [swap_expanded]. *)
Definition swap_entry (model : loc) (e : string * loc) : M unit :=
  let expanded_path := split_dots e.1 in
  parent_mod ← foldlM child_of (Some model) (but_last expanded_path);
  match last expanded_path with
  | Some name => set_child parent_mod name e.2
  | None => raise IndexError "list index out of range"
  end.

Definition swap_expanded (model : loc) (mapping : list (string * loc)) : M loc :=
  foldlM (λ _ e, swap_entry model e) tt mapping;;
  ret model.

Definition simple_expand (BaseT : class) (DestT : list value → M loc) : expander :=
  λ mod',
    is_base ← isinstance mod' BaseT;
    if negb is_base then ret None
    else
      m ← read_module mod';
      names ← (match m_constants m with
               | Some ns => ret ns
               | None => raise AttributeError "__constants__"
               end);
      args ← mapM (getattr_default mod') names;
      out ← DestT args;
      ret (Some out).

Definition default_expansions : gmap string expander :=
  <["Conv1d" := expand_Conv1D]>
  (<["BatchNorm1d" := expand_BatchNorm1d]>
  (<["AdaptiveAvgPool1d" := simple_expand nn_AdaptiveAvgPool1d AdaptiveAvgPool2d]>
  (<["AvgPool1d" := simple_expand nn_AvgPool1d AvgPool2d]> ∅))).

(** [if swapped:] *)
Definition swapped_truthy (swapped : option loc) : M bool :=
  match swapped with
  | None => ret false
  | Some l =>
      s ← get_state;
      ret (match heap s !! l with
           | Some (OModule m) => module_truthy m
           | _ => true
           end)
  end.

(** The body of the loop of [auto_expand]. *)
Definition expand_entry (expansions : gmap string expander)
    (mapping : list (string * loc)) (e : string * loc) : M (list (string * loc)) :=
  m ← read_module e.2;
  let m_type := type_name m in
  match expansions !! m_type with
  | None => ret mapping
  | Some f =>
      swapped ← (f e.2 : M (option loc));
      t ← swapped_truthy swapped;
      match swapped with
      | Some new_mod => if t : bool then ret (dict_set e.1 new_mod mapping) else ret mapping
      | None => ret mapping
      end
  end.

(** The mapping [auto_expand] builds before it substitutes. *)
Definition build_mapping (model : loc) (expansions : gmap string expander)
    : M (list (string * loc)) :=
  nm ← named_modules model;
  foldlM (expand_entry expansions) [] nm.

Definition auto_expand (model : loc) (expansions : option (gmap string expander)) : M loc :=
  let expansions := default default_expansions expansions in
  mapping ← build_mapping model expansions;
  logging_warning ("Swapped " +:+ pretty (length mapping) +:+ " modules");;
  swap_expanded model mapping;;
  ret model.

End export_utils.

(** ** Well-formed source nodes and the validation in the specification's words *)

Section nodes.
Context `{B : Backend}.

(** The configuration of an [nn.Conv1d]. *)
Record conv1d_config := Conv1dConfig {
  cv_in_channels : Z;
  cv_out_channels : Z;
  cv_kernel_size : Z;
  cv_stride : Z;
  cv_padding : Z;
  cv_dilation : Z;
  cv_groups : Z;
  cv_padding_mode : string;
  cv_weight : loc;
  cv_bias : option loc;
}.

(** What a reference to an optional tensor reads as. *)
Definition optional_tensor (h : list obj) (p : option loc) (b : option tval) : Prop :=
  match p with
  | None => b = None
  | Some bl =>
      ∃ bt bd, h !! bl = Some (OTensor bt) ∧ t_is_param bt = true ∧
               h !! t_storage bt = Some (OStorage bd) ∧ b = Some (t_shape bt, bd)
  end.

(** The object at [l] is an [nn.Conv1d] (or an instance of a subclass) as
    its constructor leaves it: the attributes the constructor stores, with
    the checks it makes, a weight Parameter of rank 3 and a bias that is a
    Parameter or [None]. *)
Record is_Conv1d (h : list obj) (l : loc) (m : module) (c : conv1d_config)
    (wt : tensor) (wd : tdata) (b : option tval) : Prop := {
  c1_obj : h !! l = Some (OModule m);
  c1_class : nn_Conv1d = m_class m ∨ nn_Conv1d ∈ m_bases m;
  c1_in : dict_get "in_channels" (m_dict m) = Some (VInt (cv_in_channels c));
  c1_out : dict_get "out_channels" (m_dict m) = Some (VInt (cv_out_channels c));
  c1_kernel : dict_get "kernel_size" (m_dict m) = Some (VTuple [VInt (cv_kernel_size c)]);
  c1_stride : dict_get "stride" (m_dict m) = Some (VTuple [VInt (cv_stride c)]);
  c1_padding : dict_get "padding" (m_dict m) = Some (VTuple [VInt (cv_padding c)]);
  c1_dilation : dict_get "dilation" (m_dict m) = Some (VTuple [VInt (cv_dilation c)]);
  c1_groups : dict_get "groups" (m_dict m) = Some (VInt (cv_groups c));
  c1_mode : dict_get "padding_mode" (m_dict m) = Some (VStr (cv_padding_mode c));
  c1_weight_attr : dict_get "weight" (m_dict m) = None;
  c1_bias_attr : dict_get "bias" (m_dict m) = None;
  c1_weight : dict_get "weight" (_parameters m) = Some (Some (cv_weight c));
  c1_bias : dict_get "bias" (_parameters m) = Some (cv_bias c);
  c1_groups_nonzero : cv_groups c ≠ 0%Z;
  c1_in_divisible : (cv_in_channels c `mod` cv_groups c = 0)%Z;
  c1_out_divisible : (cv_out_channels c `mod` cv_groups c = 0)%Z;
  c1_mode_valid : cv_padding_mode c ∈ valid_padding_modes;
  c1_in_nonneg : (0 ≤ cv_in_channels c)%Z;
  c1_out_nonneg : (0 ≤ cv_out_channels c)%Z;
  c1_per_group_nonneg : (0 ≤ cv_in_channels c `div` cv_groups c)%Z;
  c1_kernel_nonneg : (0 ≤ cv_kernel_size c)%Z;
  c1_weight_obj : h !! cv_weight c = Some (OTensor wt);
  c1_weight_param : t_is_param wt = true;
  c1_weight_data : h !! t_storage wt = Some (OStorage wd);
  c1_bias_obj : optional_tensor h (cv_bias c) b;
}.

(** The attributes of the [nn.Conv2d] that [expand_Conv1D] builds for a
    node of configuration [c]. *)
Definition conv2d_dict (c : conv1d_config) : list (string * value) :=
  [("in_channels", VInt (cv_in_channels c)); ("out_channels", VInt (cv_out_channels c));
   ("kernel_size", VTuple [VInt (cv_kernel_size c); VInt 1]);
   ("stride", VTuple [VInt (cv_stride c); VInt 1]);
   ("padding", VTuple [VInt (cv_padding c); VInt 0]);
   ("dilation", VTuple [VInt (cv_dilation c); VInt 1]);
   ("transposed", VBool false); ("output_padding", VTuple [VInt 0; VInt 0]);
   ("groups", VInt (cv_groups c)); ("padding_mode", VStr (cv_padding_mode c));
   ("_reversed_padding_repeated_twice",
    VTuple [VInt 0; VInt 0; VInt (cv_padding c); VInt (cv_padding c)])].

Definition conv2d_module (d : list (string * value)) (w : loc) (b : option loc) : module :=
  {| m_class := nn_Conv2d; m_bases := [nn_ConvNd; nn_Module]; m_sized := false;
     m_constants := Some conv_constants; m_dict := d;
     _parameters := [("weight", Some w); ("bias", b)]; _buffers := []; _modules := [] |}.

(** The shape of the weight the [nn.Conv2d] constructor allocates. *)
Definition conv2d_weight_shape (c : conv1d_config) : list nat :=
  [Z.to_nat (cv_out_channels c); Z.to_nat (cv_in_channels c `div` cv_groups c);
   Z.to_nat (cv_kernel_size c); 1].

(** The heap after the construction part of [expand_Conv1D]: the
    constructor's weight and bias (storage and Parameter each, now
    unreferenced), the new node, and the new weight Parameter over the old
    weight's storage. *)
Definition expanded_heap (h : list obj) (c : conv1d_config) (wt : tensor)
    (w0 b0 : list float) : list obj :=
  h ++ [OStorage (DFloat w0);
        OTensor (Tensor true (conv2d_weight_shape c) (length h));
        OStorage (DFloat b0);
        OTensor (Tensor true [Z.to_nat (cv_out_channels c)] (length h + 2));
        OModule (conv2d_module (conv2d_dict c) (length h + 5) (cv_bias c));
        OTensor (Tensor true (t_shape wt ++ [1]) (t_storage wt))].

(** A kernel's failure is torch's [RuntimeError]. *)
Definition kernel_result (y : option tval) : result tval :=
  match y with
  | Some t => Ok t
  | None => Raise (Exn RuntimeError "convolution failed")
  end.

(** The comparison of the specification on one sample [x] of shape
    (1, C, 256): the mean of the 1-D node's output minus the mean of the 2-D
    node's output collapsed on its singleton dimensions.  The 2-D node has
    the 1-D weight with a trailing singleton dimension, the same bias, and
    geometry (k,1), (s,1), (p,0), (d,1). *)
Definition mean_difference (c : conv1d_config) (w : tval) (b : option tval)
    (x : list float) : result float :=
  let n := Z.to_nat (cv_in_channels c) in
  y1 ← kernel_result (conv1d_kernel ([1; n; 256], DFloat x) w b
         [cv_stride c] [cv_padding c] [cv_dilation c] (cv_groups c) (cv_padding_mode c));
  m1 ← float_mean y1;
  y2 ← kernel_result (conv2d_kernel ([1; n; 256; 1], DFloat x) (w.1 ++ [1], w.2) b
         [cv_stride c; 1%Z] [cv_padding c; 0%Z] [cv_dilation c; 1%Z]
         (cv_groups c) (cv_padding_mode c));
  m2 ← float_mean (squeeze y2.1, y2.2);
  Ok (sub32 m1 m2).

(** The outcome of the validation on one sample, given that comparison. *)
Definition sample_verdict (d : result float) : result unit :=
  match d with
  | Raise e => Raise e
  | Ok close =>
      if exceeds_tolerance close
      then Raise (Exn ValueError "Unable to expand Conv1D to Conv2D")
      else Ok tt
  end.

(** The two samples [expand_Conv1D] draws: the generator first serves the
    initialisation of the new node's weight and bias. *)
Definition validation_samples (c : conv1d_config) (g : generator)
    : list float * list float :=
  let cout := Z.to_nat (cv_out_channels c) in
  let g1 := (init_floats g (numel (conv2d_weight_shape c))).2 in
  let g2 := (init_floats g1 (numel [cout])).2 in
  let n := numel [1; Z.to_nat (cv_in_channels c); 256] in
  let '(x1, g3) := rand_floats g2 n in
  let '(x2, _) := rand_floats g3 n in
  (x1, x2).

(** The configuration and the state entries of an [nn.BatchNorm1d]. *)
Record bn_config := BnConfig {
  bn_num_features : Z;
  bn_eps : value;
  bn_momentum : value;
  bn_affine : bool;
  bn_track_running_stats : bool;
  bn_weight : option loc;
  bn_bias : option loc;
  bn_running_mean : option loc;
  bn_running_var : option loc;
  bn_num_batches_tracked : option loc;
}.

(** An entry of a module's state: a tensor of the given shape when present,
    [None] otherwise. *)
Definition state_entry (h : list obj) (present : bool) (shape : list nat)
    (e : option loc) : Prop :=
  if present
  then ∃ l t d, e = Some l ∧ h !! l = Some (OTensor t) ∧ t_shape t = shape ∧
                h !! t_storage t = Some (OStorage d)
  else e = None.

(** The object at [l] is an [nn.BatchNorm1d] as its constructor leaves it
    (and as training updates it): weight and bias of one element per
    feature when affine, running mean and variance of that shape and a
    scalar update count when statistics are tracked, no child. *)
Record is_BatchNorm1d (h : list obj) (l : loc) (m : module) (c : bn_config) : Prop := {
  b1_obj : h !! l = Some (OModule m);
  b1_class : nn_BatchNorm1d = m_class m ∨ nn_BatchNorm1d ∈ m_bases m;
  b1_num_features : dict_get "num_features" (m_dict m) = Some (VInt (bn_num_features c));
  b1_eps : dict_get "eps" (m_dict m) = Some (bn_eps c);
  b1_momentum : dict_get "momentum" (m_dict m) = Some (bn_momentum c);
  b1_affine : dict_get "affine" (m_dict m) = Some (VBool (bn_affine c));
  b1_track : dict_get "track_running_stats" (m_dict m)
             = Some (VBool (bn_track_running_stats c));
  b1_nonneg : (0 ≤ bn_num_features c)%Z;
  b1_parameters : _parameters m = [("weight", bn_weight c); ("bias", bn_bias c)];
  b1_buffers : _buffers m = [("running_mean", bn_running_mean c);
                             ("running_var", bn_running_var c);
                             ("num_batches_tracked", bn_num_batches_tracked c)];
  b1_modules : _modules m = [];
  b1_weight : state_entry h (bn_affine c) [Z.to_nat (bn_num_features c)] (bn_weight c);
  b1_bias : state_entry h (bn_affine c) [Z.to_nat (bn_num_features c)] (bn_bias c);
  b1_running_mean : state_entry h (bn_track_running_stats c)
                      [Z.to_nat (bn_num_features c)] (bn_running_mean c);
  b1_running_var : state_entry h (bn_track_running_stats c)
                     [Z.to_nat (bn_num_features c)] (bn_running_var c);
  b1_num_batches_tracked : state_entry h (bn_track_running_stats c) []
                             (bn_num_batches_tracked c);
}.

(** What an entry of a module's state holds: shape and elements. *)
Definition entry_value (h : list obj) (e : option loc) : option tval :=
  match e with
  | None => None
  | Some l =>
      match h !! l with
      | Some (OTensor t) =>
          match h !! t_storage t with
          | Some (OStorage d) => Some (t_shape t, d)
          | _ => None
          end
      | _ => None
      end
  end.

(** The learned and running state of a module, name by name: its
    parameters, then its buffers. *)
Definition module_state (h : list obj) (m : module) : list (string * option tval) :=
  (λ e, (e.1, entry_value h e.2)) <$> (_parameters m ++ _buffers m).

End nodes.

(** ** The hierarchy read as a graph *)

Section hierarchy.
Context `{B : Backend}.

Definition module_at (h : list obj) (l : loc) : option module :=
  match h !! l with
  | Some (OModule m) => Some m
  | _ => None
  end.

(** Following child names from a node: [None] when a name is missing or
    the walk has reached a [None] child and must go on; otherwise the node
    (or [None] child) reached. *)
Fixpoint walk (h : list obj) (parent : option loc) (segs : list string)
    : option (option loc) :=
  match segs with
  | [] => Some parent
  | name :: segs' =>
      match parent with
      | None => None
      | Some pl =>
          match module_at h pl with
          | Some m =>
              match dict_get name (_modules m) with
              | Some c => walk h c segs'
              | None => None
              end
          | None => None
          end
      end
  end.

(** The dotted path [named_modules] builds for a chain of child names. *)
Definition path_of (segs : list string) : string := foldl child_prefix EmptyString segs.

Fixpoint has_dot (s : string) : bool :=
  match s with
  | EmptyString => false
  | String c s' => bool_decide (c = "."%char) || has_dot s'
  end.

Definition good_name (name : string) : Prop :=
  name ≠ EmptyString ∧ has_dot name = false.

(** Child tables as torch keeps them: a dictionary (no key twice) whose
    names [add_module] accepts (not empty, no dot). *)
Definition well_named (h : list obj) : Prop :=
  ∀ l m, h !! l = Some (OModule m) →
         NoDup (_modules m).*1 ∧ Forall good_name (_modules m).*1.

Definition named_well (o : obj) : Prop :=
  match o with
  | OModule m => NoDup (_modules m).*1 ∧ Forall good_name (_modules m).*1
  | _ => True
  end.

Global Instance good_name_dec name : Decision (good_name name).
Proof. unfold good_name. apply _. Defined.

Global Instance named_well_dec o : Decision (named_well o).
Proof. destruct o; apply _. Defined.

(** The node at [c] is a module whose kind is a key of the rule table. *)
Definition kind_in_table (h : list obj) (table : gmap string expander) (c : loc) : Prop :=
  ∃ m, h !! c = Some (OModule m) ∧ is_Some (table !! type_name m).

(** A conversion function that only constructs: it changes no object that
    exists when it is called, the modules it allocates have no child older
    than the call, and a node it returns is one it allocated. *)
Definition constructs (f : expander) : Prop :=
  ∀ l s r s', f l s = (r, s') →
    heap s `prefix_of` heap s' ∧
    (∀ q m name c, length (heap s) ≤ q → heap s' !! q = Some (OModule m) →
                   dict_get name (_modules m) = Some (Some c) → length (heap s) ≤ c) ∧
    (∀ new, r = Ok (Some new) → length (heap s) ≤ new).

(** Every conversion function of a rule table only constructs. *)
Definition constructing (table : gmap string expander) : Prop :=
  ∀ k f, table !! k = Some f → constructs f.

(** No module at or after [n] has a child before [n]. *)
Definition fresh_closed (n : nat) (h : list obj) : Prop :=
  ∀ q m name c, n ≤ q → h !! q = Some (OModule m) →
                dict_get name (_modules m) = Some (Some c) → n ≤ c.

(** What [named_modules] started at [l] with prefix [pre] may yield: the
    path of a chain of child names together with the module the chain
    reaches. *)
Definition enumerated (h : list obj) (l : loc) (pre : string) (K : string) (u : loc) : Prop :=
  ∃ segs, K = foldl child_prefix pre segs ∧
          walk h (Some l) segs = Some (Some u) ∧ is_Some (module_at h u).

(** A mapping whose keys are paths of nodes of a kind of the table and
    whose replacements were allocated after the [n] first objects. *)
Definition mapping_of (h : list obj) (table : gmap string expander) (model : loc)
    (mapping : list (string * loc)) : Prop :=
  ∀ K new, (K, new) ∈ mapping →
           length h ≤ new ∧
           ∃ u, enumerated h model EmptyString K u ∧ kind_in_table h table u.

(** A child entry during substitution, against the entry of the same name
    before the pass: the same, or a replacement allocated by the pass where
    the entry held a node of a kind of the table (or where there was no
    entry). *)
Definition slot_kept (h : list obj) (table : gmap string expander)
    (orig cur : option (option loc)) : Prop :=
  cur = orig ∨
  ∃ new, cur = Some (Some new) ∧ length h ≤ new ∧
         (orig = None ∨ ∃ u, orig = Some (Some u) ∧ kind_in_table h table u).

Definition object_kept (h : list obj) (table : gmap string expander) (o o' : obj) : Prop :=
  match o with
  | OModule m =>
      ∃ m', o' = OModule m' ∧ m' = set_modules m (_modules m') ∧
            ∀ name, slot_kept h table (dict_get name (_modules m)) (dict_get name (_modules m'))
  | _ => o' = o
  end.

(** The heap [H] during a pass that started from [h]. *)
Definition pass_invariant (h : list obj) (table : gmap string expander) (H : list obj) : Prop :=
  (∀ l o, h !! l = Some o → ∃ o', H !! l = Some o' ∧ object_kept h table o o') ∧
  fresh_closed (length h) H.

(** An object after substitutions, against the object before: a module
    differs at most in its child table, which has lost no name. *)
Definition entries_set (o o' : obj) : Prop :=
  match o with
  | OModule m =>
      ∃ cs, o' = OModule (set_modules m cs) ∧
            ∀ name, dict_mem name (_modules m) = true → dict_mem name cs = true
  | _ => o' = o
  end.

Definition same_but_children (h h' : list obj) : Prop :=
  length h' = length h ∧
  ∀ l o, h !! l = Some o → ∃ o', h' !! l = Some o' ∧ entries_set o o'.

(** Where the walk of [swap_expanded] is, against the walk along the same
    names before the pass. *)
Definition tracked (n : nat) (orig cur : option loc) : Prop :=
  cur = orig ∨ cur = None ∨ ∃ f, cur = Some f ∧ n ≤ f.

End hierarchy.

(** ** Entries of a mapping that do not interfere *)

Section slots.

(** The child entries a walk looks up, as (node, name) pairs. *)
Fixpoint walk_slots (h : list obj) (parent : option loc) (segs : list string)
    : list (loc * string) :=
  match segs with
  | [] => []
  | name :: segs' =>
      match parent with
      | None => []
      | Some pl =>
          (pl, name) ::
          match module_at h pl with
          | Some m =>
              match dict_get name (_modules m) with
              | Some c => walk_slots h c segs'
              | None => []
              end
          | None => []
          end
      end
  end.

(** The child entry the loop of [swap_expanded] assigns for a key: the
    module the segments before the last lead to, and the last segment. *)
Definition slot_of (h : list obj) (model : loc) (K : string) : option (loc * string) :=
  match walk h (Some model) (but_last (split_dots K)), last (split_dots K) with
  | Some (Some p), Some name =>
      match module_at h p with Some _ => Some (p, name) | None => None end
  | _, _ => None
  end.

(** Every key addresses a child entry of a module, and no key's walk looks
    up a child entry that an entry before it assigns. *)
Fixpoint independent (h : list obj) (model : loc) (mapping : list (string * loc)) : Prop :=
  match mapping with
  | [] => True
  | e :: rest =>
      match slot_of h model e.1 with
      | Some sl =>
          Forall (λ e', sl ∉ walk_slots h (Some model) (but_last (split_dots e'.1))) rest
      | None => False
      end ∧ independent h model rest
  end.

Global Instance independent_dec h model mapping : Decision (independent h model mapping).
Proof.
  induction mapping as [|e rest IH]; cbn [independent]; [apply _|].
  destruct (slot_of h model e.1); apply _.
Defined.

(** The heap [H] after the entries [done] of a mapping, started from [h]. *)
Definition substituted (h : list obj) (model : loc) (done : list (string * loc))
    (H : list obj) : Prop :=
  (∀ (l : loc) m name,
     h !! l = Some (OModule m) →
     ∃ m', H !! l = Some (OModule m') ∧
           ((∀ e, e ∈ done → slot_of h model e.1 ≠ Some (l, name)) →
            dict_get name (_modules m') = dict_get name (_modules m))) ∧
  (∀ i K new (p : loc) name,
     done !! i = Some (K, new) → slot_of h model K = Some (p, name) →
     (∀ j e, i < j → done !! j = Some e → slot_of h model e.1 ≠ Some (p, name)) →
     ∃ m', H !! p = Some (OModule m') ∧ dict_get name (_modules m') = Some (Some new)).

End slots.

(** What the enumeration returns for a memo: no node twice, none that the
    memo held, and the memo extended by the nodes listed. *)
Definition listed_once (memo : gset loc) (out : list (string * loc)) (memo' : gset loc) : Prop :=
  NoDup out.*2 ∧ (∀ u, u ∈ out.*2 → u ∉ memo) ∧ (∀ u, u ∈ memo' ↔ u ∈ memo ∨ u ∈ out.*2).

Section nesting.
Context `{B : Backend}.

(** No node of a kind of the table that lies below the root has a node of
    a kind of the table below it. *)
Definition unnested (h : list obj) (table : gmap string expander) (model : loc) : Prop :=
  ∀ segs segs' a u,
    segs ≠ [] → segs' ≠ [] →
    walk h (Some model) segs = Some (Some a) → kind_in_table h table a →
    walk h (Some a) segs' = Some (Some u) → ¬ kind_in_table h table u.

(** The modules of a kind of the table have no child entry, as the four
    kinds of the default table have none in torch. *)
Definition leaf_kinds (h : list obj) (table : gmap string expander) : Prop :=
  Forall (λ o, match o with
               | OModule m => is_Some (table !! type_name m) → _modules m = []
               | _ => True
               end) h.

End nesting.

(** ** Frame conditions *)

Section frames.
Context `{B : Backend}.

(** A computation that leaves the heap as it was. *)
Definition reads {A} (m : M A) : Prop :=
  ∀ s r s', m s = (r, s') → heap s' = heap s.

(** [H] is [h] with objects added after it, each of which satisfies [P]. *)
Definition extends_with (h : list obj) (P : obj → Prop) (H : list obj) : Prop :=
  h `prefix_of` H ∧ ∀ q o, length h ≤ q → H !! q = Some o → P o.

(** A computation that keeps such an extension, with a result in [Q]. *)
Definition keeps (h : list obj) (P : obj → Prop) {A} (Q : A → Prop) (m : M A) : Prop :=
  ∀ s r s', extends_with h P (heap s) → m s = (r, s') →
            extends_with h P (heap s') ∧ ∀ a, r = Ok a → Q a.

Definition childless (o : obj) : Prop :=
  match o with
  | OModule m => _modules m = []
  | _ => True
  end.

(** The objects [expand_Conv1D] adds. *)
Definition conv_built (o : obj) : Prop :=
  match o with
  | OModule m => _modules m = [] ∧ dict_mem "weight" (_parameters m) = true ∧
                 dict_mem "bias" (_parameters m) = true
  | _ => True
  end.

(** The objects [expand_BatchNorm1d] adds after the [n] first ones. *)
Definition norm_built (n : nat) (o : obj) : Prop :=
  match o with
  | OModule m => _modules m = [] ∧
                 ∀ name p, (name, Some p) ∈ _parameters m ++ _buffers m → n ≤ p
  | OTensor t => n ≤ t_storage t
  | OStorage _ => True
  end.

End frames.

(** * [inspect]: signatures and argument binding *)

Inductive param_kind :=
| POSITIONAL_ONLY | POSITIONAL_OR_KEYWORD | VAR_POSITIONAL | KEYWORD_ONLY | VAR_KEYWORD.

Global Instance param_kind_eq_dec : EqDecision param_kind.
Proof. solve_decision. Defined.

(** [inspect.Parameter]; no default is [Parameter.empty]. *)
Record parameter := Param {
  p_name : string;
  p_kind : param_kind;
  p_default : option value;
}.

(** A callable: what [inspect.signature] reports and what a call does with
    positional and named arguments. *)
Record callable := Callable {
  fn_signature : list parameter;
  fn_call : list value → list (string * value) → result value;
}.

Definition type_error {A} (msg : string) : result A := Raise (Exn TypeError msg).

(** ** Calling a function defined with [def]

    Python's own binding of a call's arguments to the parameters: positional
    arguments fill the positional parameters in order and the surplus goes
    to the starred parameter; a named argument fills the parameter of that
    name unless it is positional-only or a starred parameter, in which case
    (as for an unknown name) it goes to the double-starred parameter;
    defaults fill what is left. *)

Definition takes_positional (p : parameter) : bool :=
  bool_decide (p_kind p = POSITIONAL_ONLY ∨ p_kind p = POSITIONAL_OR_KEYWORD).

Definition takes_keyword (p : parameter) : bool :=
  bool_decide (p_kind p = POSITIONAL_OR_KEYWORD ∨ p_kind p = KEYWORD_ONLY).

Definition has_kind (k : param_kind) (params : list parameter) : bool :=
  existsb (λ p, bool_decide (p_kind p = k)) params.

(** One named argument of a call. *)
Definition call_keyword (params : list parameter)
    (acc : list (string * value) * list (string * value)) (kv : string * value)
    : result (list (string * value) * list (string * value)) :=
  let '(named, kwdict) := acc in
  if existsb (λ p, takes_keyword p && bool_decide (p_name p = kv.1)) params then
    if dict_mem kv.1 named then type_error "got multiple values for argument"
    else Ok (dict_set kv.1 kv.2 named, kwdict)
  else if has_kind VAR_KEYWORD params then Ok (named, dict_set kv.1 kv.2 kwdict)
  else type_error "got an unexpected keyword argument".

Fixpoint call_keywords (params : list parameter)
    (acc : list (string * value) * list (string * value)) (kwargs : list (string * value))
    : result (list (string * value) * list (string * value)) :=
  match kwargs with
  | [] => Ok acc
  | kv :: kwargs' => acc' ← call_keyword params acc kv; call_keywords params acc' kwargs'
  end.

(** The local variables a call starts with, in the order of the parameters. *)
Definition py_bind (params : list parameter) (args : list value)
    (kwargs : list (string * value)) : result (list (string * value)) :=
  let positional := List.filter takes_positional params in
  let named := zip (p_name <$> positional) args in
  let surplus := drop (length positional) args in
  if negb (bool_decide (surplus = [])) && negb (has_kind VAR_POSITIONAL params)
  then type_error "takes fewer positional arguments than were given"
  else
    '(named', kwdict) ← call_keywords params (named, []) kwargs;
    mapM (λ p,
            match p_kind p with
            | VAR_POSITIONAL => Ok (p_name p, VTuple surplus)
            | VAR_KEYWORD => Ok (p_name p, VDict kwdict)
            | _ =>
                match dict_get (p_name p) named' with
                | Some v => Ok (p_name p, v)
                | None =>
                    match p_default p with
                    | Some d => Ok (p_name p, d)
                    | None => type_error "missing a required argument"
                    end
                end
            end) params.

(** A function defined with [def]: its parameters and its body as a
    function of the local variables. *)
Definition py_function (params : list parameter)
    (body : list (string * value) → result value) : callable :=
  Callable params (λ args kwargs, env ← py_bind params args kwargs; body env).

(** First loop of [Signature._bind]: positional arguments against the
    parameters in order.  The result is the arguments bound so far and the
    parameters still to be processed by name. *)
Fixpoint bind_positional (params : list parameter) (args : list value)
    (kwargs arguments : list (string * value))
    : result (list (string * value) * list parameter) :=
  match args with
  | [] =>
      match params with
      | [] => Ok (arguments, [])
      | param :: rest =>
          if decide (p_kind param = VAR_POSITIONAL) then Ok (arguments, rest)
          else if dict_mem (p_name param) kwargs then
            if decide (p_kind param = POSITIONAL_ONLY)
            then type_error "parameter is positional only, but was passed as a keyword"
            else Ok (arguments, param :: rest)
          else if decide (p_kind param = VAR_KEYWORD ∨ is_Some (p_default param))
          then Ok (arguments, param :: rest)
          else type_error "missing a required argument"
      end
  | arg_val :: args' =>
      match params with
      | [] => type_error "too many positional arguments"
      | param :: rest =>
          if decide (p_kind param = VAR_KEYWORD ∨ p_kind param = KEYWORD_ONLY)
          then type_error "too many positional arguments"
          else if decide (p_kind param = VAR_POSITIONAL)
          then Ok (dict_set (p_name param) (VTuple (arg_val :: args')) arguments, rest)
          else if dict_mem (p_name param) kwargs && negb (bool_decide (p_kind param = POSITIONAL_ONLY))
          then type_error "multiple values for argument"
          else bind_positional rest args' kwargs (dict_set (p_name param) arg_val arguments)
      end
  end.

(** Second loop of [Signature._bind]: the remaining parameters take their
    values from the named arguments, which are popped as they are used. *)
Fixpoint bind_keywords (params : list parameter)
    (kwargs arguments : list (string * value)) (kwargs_param : option parameter)
    : result (list (string * value) * list (string * value) * option parameter) :=
  match params with
  | [] => Ok (arguments, kwargs, kwargs_param)
  | param :: rest =>
      if decide (p_kind param = VAR_KEYWORD)
      then bind_keywords rest kwargs arguments (Some param)
      else if decide (p_kind param = VAR_POSITIONAL)
      then bind_keywords rest kwargs arguments kwargs_param
      else
        match dict_get (p_name param) kwargs with
        | None =>
            if decide (is_Some (p_default param))
            then bind_keywords rest kwargs arguments kwargs_param
            else type_error "missing a required argument"
        | Some arg_val =>
            if decide (p_kind param = POSITIONAL_ONLY)
            then type_error "parameter is positional only, but was passed as a keyword"
            else bind_keywords rest (dict_del (p_name param) kwargs)
                               (dict_set (p_name param) arg_val arguments) kwargs_param
        end
  end.

(** [Signature.bind( *args, **kwargs)]: the [arguments] of the result. *)
Definition signature_bind (sig : list parameter) (args : list value)
    (kwargs : list (string * value)) : result (list (string * value)) :=
  match bind_positional sig args kwargs [] with
  | Raise e => Raise e
  | Ok (arguments, params) =>
      match bind_keywords params kwargs arguments None with
      | Raise e => Raise e
      | Ok (arguments', kwargs', kwargs_param) =>
          match kwargs' with
          | [] => Ok arguments'
          | _ :: _ =>
              match kwargs_param with
              | Some kp => Ok (dict_set (p_name kp) (VDict kwargs') arguments')
              | None => type_error "got an unexpected keyword argument"
              end
          end
      end
  end.

(** [BoundArguments.apply_defaults] *)
Fixpoint apply_defaults (sig : list parameter) (arguments : list (string * value))
    : list (string * value) :=
  match sig with
  | [] => []
  | param :: rest =>
      match dict_get (p_name param) arguments with
      | Some v => (p_name param, v) :: apply_defaults rest arguments
      | None =>
          match p_default param with
          | Some d => (p_name param, d) :: apply_defaults rest arguments
          | None =>
              match p_kind param with
              | VAR_POSITIONAL => (p_name param, VTuple []) :: apply_defaults rest arguments
              | VAR_KEYWORD => (p_name param, VDict []) :: apply_defaults rest arguments
              | _ => apply_defaults rest arguments
              end
          end
      end
  end.

(** [BoundArguments.args] *)
Fixpoint bound_args (sig : list parameter) (arguments : list (string * value)) : list value :=
  match sig with
  | [] => []
  | param :: rest =>
      if decide (p_kind param = VAR_KEYWORD ∨ p_kind param = KEYWORD_ONLY) then []
      else
        match dict_get (p_name param) arguments with
        | None => []
        | Some arg =>
            if decide (p_kind param = VAR_POSITIONAL)
            then match arg with
                 | VTuple vs => vs ++ bound_args rest arguments
                 | _ => bound_args rest arguments
                 end
            else arg :: bound_args rest arguments
        end
  end.

(** [dict.update] *)
Definition dict_update {V} (d upd : list (string * V)) : list (string * V) :=
  foldl (λ acc kv, dict_set kv.1 kv.2 acc) d upd.

(** [BoundArguments.kwargs] *)
Fixpoint bound_kwargs (sig : list parameter) (arguments : list (string * value))
    (kwargs_started : bool) (kwargs : list (string * value)) : list (string * value) :=
  match sig with
  | [] => kwargs
  | param :: rest =>
      let taken :=
        match dict_get (p_name param) arguments with
        | None => kwargs
        | Some arg =>
            if decide (p_kind param = VAR_KEYWORD)
            then match arg with
                 | VDict kvs => dict_update kwargs kvs
                 | _ => kwargs
                 end
            else dict_set (p_name param) arg kwargs
        end in
      if kwargs_started then bound_kwargs rest arguments true taken
      else if decide (p_kind param = VAR_KEYWORD ∨ p_kind param = KEYWORD_ONLY)
      then bound_kwargs rest arguments true taken
      else if dict_mem (p_name param) arguments
      then bound_kwargs rest arguments false kwargs
      else bound_kwargs rest arguments true kwargs
  end.

(** * [nemo/utils/injection_utils.py] *)

(** [set(signature.parameters.keys())] *)
Definition fn_arg_names (fn : callable) : gset string :=
  list_to_set (p_name <$> fn_signature fn).

(** [{k: v for k, v in kwargs.items() if k in fn_arg_names}] *)
Definition out_kwargs (fn : callable) (kwargs : list (string * value)) : list (string * value) :=
  List.filter (λ kv, bool_decide (kv.1 ∈ fn_arg_names fn)) kwargs.

(** The positional and named arguments [run_injected] calls [fn] with. *)
Definition injected_arguments (fn : callable) (args : list value)
    (kwargs : list (string * value)) : result (list value * list (string * value)) :=
  let signature := fn_signature fn in
  match signature_bind signature args (out_kwargs fn kwargs) with
  | Raise e => Raise e
  | Ok arguments =>
      let bound := apply_defaults signature arguments in
      Ok (bound_args signature bound, bound_kwargs signature bound false [])
  end.

Definition run_injected (fn : callable) (args : list value)
    (kwargs : list (string * value)) : result value :=
  match injected_arguments fn args kwargs with
  | Raise e => Raise e
  | Ok (a, k) => fn_call fn a k
  end.

(** What [inspect.Signature] guarantees of a parameter list: no name
    twice, no default for a variadic parameter. *)
Definition wf_signature (sig : list parameter) : Prop :=
  NoDup (p_name <$> sig) ∧
  ∀ p, p ∈ sig → p_kind p = VAR_POSITIONAL ∨ p_kind p = VAR_KEYWORD → p_default p = None.

(** A signature as [def f(a, b=1, *, c, d=2)] declares it: parameters that
    are positional or keyword, then keyword-only ones, no name twice. *)
Definition simple_signature (pos kwo : list parameter) : Prop :=
  NoDup (p_name <$> pos ++ kwo) ∧
  Forall (λ p, p_kind p = POSITIONAL_OR_KEYWORD) pos ∧
  Forall (λ p, p_kind p = KEYWORD_ONLY) kwo.

(** Each parameter with the value a dictionary has for its name, or else
    with its default; nothing when a parameter has neither. *)
Fixpoint filled (params : list parameter) (d : list (string * value))
    : option (list (string * value)) :=
  match params with
  | [] => Some []
  | p :: rest =>
      match (match dict_get (p_name p) d with Some v => Some v | None => p_default p end) with
      | Some v => cons (p_name p, v) <$> filled rest d
      | None => None
      end
  end.

(** The binding of a call to a simple signature: the positional arguments
    to the first parameters in order, none of which may also be named; the
    other parameters by name or default. *)
Fixpoint bind_simple (pos kwo : list parameter) (args : list value)
    (named : list (string * value)) {struct args} : option (list (string * value)) :=
  match args with
  | [] => filled (pos ++ kwo) named
  | v :: args' =>
      match pos with
      | [] => None
      | p :: pos' =>
          if dict_mem (p_name p) named then None
          else cons (p_name p, v) <$> bind_simple pos' kwo args' named
      end
  end.

(** A parameter that a named argument may fill and that is not variadic. *)
Definition plain (p : parameter) : Prop :=
  p_kind p = POSITIONAL_OR_KEYWORD ∨ p_kind p = KEYWORD_ONLY.

(** * [tests/utils/test_injection_utils.py] *)

(** [def foo(x, y=1, *, z=None): return (x, y, z)] *)
Definition foo : callable :=
  py_function
    [Param "x" POSITIONAL_OR_KEYWORD None;
     Param "y" POSITIONAL_OR_KEYWORD (Some (VInt 1));
     Param "z" KEYWORD_ONLY (Some VNone)]
    (λ env,
       match dict_get "x" env, dict_get "y" env, dict_get "z" env with
       | Some x, Some y, Some z => Ok (VTuple [x; y; z])
       | _, _, _ => Raise (Exn SystemError "unbound local")
       end).

(** [def collect(x, *args, **kwargs): return (x, args, kwargs)] *)
Definition collect : callable :=
  py_function
    [Param "x" POSITIONAL_OR_KEYWORD None;
     Param "args" VAR_POSITIONAL None;
     Param "kwargs" VAR_KEYWORD None]
    (λ env,
       match dict_get "x" env, dict_get "args" env, dict_get "kwargs" env with
       | Some x, Some a, Some k => Ok (VTuple [x; a; k])
       | _, _, _ => Raise (Exn SystemError "unbound local")
       end).

(** * A backend that runs

    Concrete runs need a [Backend]: a counter for the generator, constant
    samples, kernels that return the weight they are given, the first
    element for the mean, and binary64 subtraction. *)
Definition toy_backend : Backend := {|
  generator := nat;
  rand_floats g n := (replicate n 0.5%float, S g);
  init_floats g n := (replicate n 0%float, S g);
  conv1d_kernel x w b st p d g pm := Some w;
  conv2d_kernel x w b st p d g pm := Some w;
  mean_kernel sh xs := default 0%float (head xs);
  sub32 := PrimFloat.sub |}.

(** A state of the toy backend: a heap, a fresh generator, an empty log. *)
Definition toy_state (h : list obj) : @state toy_backend := @State toy_backend h 0 [].

(** A [nn.ReLU()]: a module of no kind the conversions know. *)
Definition nn_ReLU := Class "torch.nn.modules.activation" "ReLU".

Definition example_relu : module :=
  {| m_class := nn_ReLU; m_bases := [nn_Module]; m_sized := false;
     m_constants := Some ["inplace"]; m_dict := [("inplace", VBool false)];
     _parameters := []; _buffers := []; _modules := [] |}.

(** A backend whose 2-D kernel is wrong: it returns its input. *)
Definition skewed_backend : Backend := {|
  generator := nat;
  rand_floats g n := (replicate n 0.5%float, S g);
  init_floats g n := (replicate n 0%float, S g);
  conv1d_kernel x w b st p d g pm := Some w;
  conv2d_kernel x w b st p d g pm := Some x;
  mean_kernel sh xs := default 0%float (head xs);
  sub32 := PrimFloat.sub |}.

(** ** A small model

    [nn.Conv1d(2, 4, 3, padding=1)] with all-ones weight and zero bias. *)
Definition example_conv1d_config : conv1d_config :=
  {| cv_in_channels := 2; cv_out_channels := 4; cv_kernel_size := 3; cv_stride := 1;
     cv_padding := 1; cv_dilation := 1; cv_groups := 1; cv_padding_mode := "zeros";
     cv_weight := 1; cv_bias := Some 3 |}.

Definition example_conv1d : module :=
  {| m_class := nn_Conv1d; m_bases := [nn_ConvNd; nn_Module]; m_sized := false;
     m_constants := Some conv_constants;
     m_dict := [("in_channels", VInt 2); ("out_channels", VInt 4);
                ("kernel_size", VTuple [VInt 3]); ("stride", VTuple [VInt 1]);
                ("padding", VTuple [VInt 1]); ("dilation", VTuple [VInt 1]);
                ("transposed", VBool false); ("output_padding", VTuple [VInt 0]);
                ("groups", VInt 1); ("padding_mode", VStr "zeros");
                ("_reversed_padding_repeated_twice", VTuple [VInt 1; VInt 1])];
     _parameters := [("weight", Some 1); ("bias", Some 3)];
     _buffers := []; _modules := [] |}.

Definition example_conv1d_heap : list obj :=
  [OStorage (DFloat (replicate 24 1%float)); OTensor (Tensor true [4; 2; 3] 0);
   OStorage (DFloat (replicate 4 0%float)); OTensor (Tensor true [4] 2);
   OModule example_conv1d].

(** [nn.BatchNorm1d(2)] after some training steps. *)
Definition example_bn_config : bn_config :=
  {| bn_num_features := 2; bn_eps := VFloat 0x1.4f8b588e368f1p-17%float; bn_momentum := VFloat 0x1.999999999999ap-4%float;
     bn_affine := true; bn_track_running_stats := true;
     bn_weight := Some 1; bn_bias := Some 3; bn_running_mean := Some 5;
     bn_running_var := Some 7; bn_num_batches_tracked := Some 9 |}.

Definition example_bn1d : module :=
  {| m_class := nn_BatchNorm1d; m_bases := [nn_BatchNorm; nn_NormBase; nn_Module];
     m_sized := false; m_constants := Some norm_constants;
     m_dict := [("num_features", VInt 2); ("eps", VFloat 0x1.4f8b588e368f1p-17%float);
                ("momentum", VFloat 0x1.999999999999ap-4%float); ("affine", VBool true);
                ("track_running_stats", VBool true)];
     _parameters := [("weight", Some 1); ("bias", Some 3)];
     _buffers := [("running_mean", Some 5); ("running_var", Some 7);
                  ("num_batches_tracked", Some 9)];
     _modules := [] |}.

Definition example_bn_heap : list obj :=
  [OStorage (DFloat [1.5%float; 0.75%float]); OTensor (Tensor true [2] 0);
   OStorage (DFloat [0.25%float; (-0.5)%float]); OTensor (Tensor true [2] 2);
   OStorage (DFloat [0.125%float; 2%float]); OTensor (Tensor false [2] 4);
   OStorage (DFloat [1.25%float; 0.5%float]); OTensor (Tensor false [2] 6);
   OStorage (DLong [17%Z]); OTensor (Tensor false [] 8);
   OModule example_bn1d].

(** A user-defined container: an [nn.Module] subclass that only holds children. *)
Definition container (name : string) (children : list (string * option loc)) : module :=
  {| m_class := Class "__main__" name; m_bases := [nn_Module]; m_sized := false;
     m_constants := None; m_dict := [("training", VBool true)];
     _parameters := []; _buffers := []; _modules := children |}.

(** A hierarchy [Net(a=Block(b=Block(c=ReLU, d=ReLU)), z=ReLU)] and, at 6, a
    node that is not part of it. *)
Definition example_tree_heap : list obj :=
  [OModule (container "Net" [("a", Some 1); ("z", Some 4)]);
   OModule (container "Block" [("b", Some 2)]);
   OModule (container "Block" [("c", Some 3); ("d", Some 5)]);
   OModule example_relu; OModule example_relu; OModule example_relu;
   OModule example_relu].

(** [nn.AdaptiveAvgPool1d(1)] and [nn.AvgPool1d(2)] *)
Definition example_adaptive_pool : module :=
  {| m_class := nn_AdaptiveAvgPool1d; m_bases := [nn_AdaptiveAvgPoolNd; nn_Module];
     m_sized := false; m_constants := Some ["output_size"];
     m_dict := [("training", VBool true); ("output_size", VInt 1)];
     _parameters := []; _buffers := []; _modules := [] |}.

Definition example_avg_pool : module :=
  {| m_class := nn_AvgPool1d; m_bases := [nn_AvgPoolNd; nn_Module];
     m_sized := false;
     m_constants := Some ["kernel_size"; "stride"; "padding"; "ceil_mode"; "count_include_pad"];
     m_dict := [("training", VBool true); ("kernel_size", VTuple [VInt 2]);
                ("stride", VTuple [VInt 2]); ("padding", VTuple [VInt 0]);
                ("ceil_mode", VBool false); ("count_include_pad", VBool true)];
     _parameters := []; _buffers := []; _modules := [] |}.

(** [Net(pool=AdaptiveAvgPool1d(1), act=ReLU(), body=Block(pool=AvgPool1d(2), act=ReLU()))] *)
Definition example_model_heap : list obj :=
  [OModule (container "Net" [("pool", Some 1); ("act", Some 2); ("body", Some 3)]);
   OModule example_adaptive_pool; OModule example_relu;
   OModule (container "Block" [("pool", Some 4); ("act", Some 5)]);
   OModule example_avg_pool; OModule example_relu].

(** [Net(conv=Conv1d(2, 4, 3, padding=1), act=ReLU())], the root at 5. *)
Definition example_conv_model_heap : list obj :=
  example_conv1d_heap ++
  [OModule (container "Net" [("conv", Some 4); ("act", Some 6)]); OModule example_relu].

(** A rule table of one's own: every [Block] becomes an
    [nn.AdaptiveAvgPool2d(1)]. *)
Definition example_rule : expander (B := toy_backend) :=
  λ _, l ← AdaptiveAvgPool2d [VInt 1]; ret (Some l).

Definition example_table : gmap string (expander (B := toy_backend)) :=
  {["Block" := example_rule]}.

(** [Net(a=Block(m=Seq(b=Block())))] *)
Definition example_nested_heap : list obj :=
  [OModule (container "Net" [("a", Some 1)]);
   OModule (container "Block" [("m", Some 2)]);
   OModule (container "Seq" [("b", Some 3)]);
   OModule (container "Block" [])].

(** [nn.Sequential()]: a container with [__len__], here without children,
    and a conversion that returns one. *)
Definition nn_Sequential := Class "torch.nn.modules.container" "Sequential".

Definition empty_sequential : module :=
  {| m_class := nn_Sequential; m_bases := [nn_Module]; m_sized := true;
     m_constants := None; m_dict := [("training", VBool true)];
     _parameters := []; _buffers := []; _modules := [] |}.

Definition to_empty_sequential : expander (B := toy_backend) :=
  λ _, l ← alloc (OModule empty_sequential); ret (Some l).

(** [Net(a=pool, b=pool)] with one [nn.AvgPool1d(2)] registered under two
    names, the root at 0. *)
Definition example_shared_heap : list obj :=
  [OModule (container "Net" [("a", Some 1); ("b", Some 1)]); OModule example_avg_pool].

(** * Properties *)

(** ** The monad *)

Section monad_facts.
Context `{B : Backend}.

Lemma bind_ok {A C} (m : M A) (k : A → M C) s a s' :
  m s = (Ok a, s') → (m ≫= k) s = k a s'.
Proof. intros H. unfold mbind, M_bind. by rewrite H. Qed.

Lemma bind_raise {A C} (m : M A) (k : A → M C) s e s' :
  m s = (Raise e, s') → (m ≫= k) s = (Raise e, s').
Proof. intros H. unfold mbind, M_bind. by rewrite H. Qed.

Lemma bind_run {A C} (m : M A) (k : A → M C) s r s' :
  m s = (r, s') →
  (m ≫= k) s = match r with Ok a => k a s' | Raise e => (Raise e, s') end.
Proof. intros H. unfold mbind, M_bind. by rewrite H. Qed.

Lemma bind_inv_ok {A C} (m : M A) (k : A → M C) s c s' :
  (m ≫= k) s = (Ok c, s') → ∃ a s1, m s = (Ok a, s1) ∧ k a s1 = (Ok c, s').
Proof.
  unfold mbind, M_bind. destruct (m s) as [[a|e] s1]; [eauto | discriminate].
Qed.

Lemma bind_inv_raise {A C} (m : M A) (k : A → M C) s e s' :
  (m ≫= k) s = (Raise e, s') →
  m s = (Raise e, s') ∨ ∃ a s1, m s = (Ok a, s1) ∧ k a s1 = (Raise e, s').
Proof.
  unfold mbind, M_bind. destruct (m s) as [[a|e0] s1]; [eauto | intros [= -> ->]; eauto].
Qed.

End monad_facts.

(** ** No match is not an error *)

Section no_match.
Context `{B : Backend}.

Lemma expand_Conv1D_no_match s l :
  isinstance_obj (heap s !! l) nn_Conv1d = false → expand_Conv1D l s = (Ok None, s).
Proof. intros H. unfold expand_Conv1D, isinstance, mbind, M_bind. by rewrite H. Qed.

Lemma expand_BatchNorm1d_no_match s l :
  isinstance_obj (heap s !! l) nn_BatchNorm1d = false → expand_BatchNorm1d l s = (Ok None, s).
Proof. intros H. unfold expand_BatchNorm1d, isinstance, mbind, M_bind. by rewrite H. Qed.

Lemma simple_expand_no_match BaseT DestT s l :
  isinstance_obj (heap s !! l) BaseT = false → simple_expand BaseT DestT l s = (Ok None, s).
Proof. intros H. unfold simple_expand, isinstance, mbind, M_bind. by rewrite H. Qed.

(** C7.  On a node that is not of the expected source kind, each
    conversion function ([expand_Conv1D], [expand_BatchNorm1d], and every
    function [simple_expand] produces) returns [None] without raising, and
    leaves the whole state (heap, generator, log) as it was. *)
Theorem conversions_return_None_on_other_kinds s l BaseT DestT :
  (isinstance_obj (heap s !! l) nn_Conv1d = false →
   expand_Conv1D l s = (Ok None, s)) ∧
  (isinstance_obj (heap s !! l) nn_BatchNorm1d = false →
   expand_BatchNorm1d l s = (Ok None, s)) ∧
  (isinstance_obj (heap s !! l) BaseT = false →
   simple_expand BaseT DestT l s = (Ok None, s)).
Proof.
  split_and!.
  - apply expand_Conv1D_no_match.
  - apply expand_BatchNorm1d_no_match.
  - apply simple_expand_no_match.
Qed.

End no_match.

Lemma conversions_return_None_on_other_kinds_witness :
  let s := toy_state [OModule example_relu] in
  expand_Conv1D 0 s = (Ok None, s) ∧
  expand_BatchNorm1d 0 s = (Ok None, s) ∧
  simple_expand nn_AvgPool1d AvgPool2d 0 s = (Ok None, s).
Proof.
  intros s.
  destruct (@conversions_return_None_on_other_kinds toy_backend s 0 nn_AvgPool1d AvgPool2d)
    as (H1 & H2 & H3).
  split_and!; [apply H1 | apply H2 | apply H3]; reflexivity.
Defined.

(** ** Running the code on a symbolic heap *)

Ltac mred := repeat (progress (unfold mbind, M_bind, mret, M_ret, raise; cbn)).

Section runs.
Context `{B : Backend}.

Lemma heap_lookup_old (h tl : list obj) l o : h !! l = Some o → (h ++ tl) !! l = Some o.
Proof. apply lookup_app_l_Some. Qed.

Lemma heap_lookup_new (h tl : list obj) i : (h ++ tl) !! (length h + i) = tl !! i.
Proof. rewrite lookup_app_r by lia. f_equal. lia. Qed.

Lemma heap_lookup_new_Some (h tl : list obj) i o :
  tl !! i = Some o → (h ++ tl) !! (length h + i) = Some o.
Proof. by rewrite heap_lookup_new. Qed.

Lemma heap_insert_new (h tl : list obj) i o :
  <[length h + i := o]> (h ++ tl) = h ++ <[i := o]> tl.
Proof. rewrite insert_app_r_alt by lia. do 2 f_equal. lia. Qed.

Lemma as_ints_ok (ns : list Z) s : as_ints (VInt <$> ns) s = (Ok ns, s).
Proof.
  induction ns as [|n ns IH]; [done|]. cbn. unfold mbind, M_bind. cbn. by rewrite IH.
Qed.

Lemma getattr_run h g lg l m name v :
  h !! l = Some (OModule m) → module_getattr m name = Some v →
  getattr l name (State h g lg) = (Ok v, State h g lg).
Proof.
  intros Hl Hv. unfold getattr, read_module, read. mred. rewrite Hl. mred. by rewrite Hv.
Qed.

Lemma module_getattr_dict m name v :
  dict_get name (m_dict m) = Some v → module_getattr m name = Some v.
Proof. intros H'. unfold module_getattr. by rewrite H'. Qed.

Lemma module_getattr_param m name p :
  dict_get name (m_dict m) = None → dict_get name (_parameters m) = Some p →
  module_getattr m name = Some (opt_ref p).
Proof. intros H1 H2. unfold module_getattr. by rewrite H1, H2. Qed.

Lemma tensor_value_run h g lg l t d :
  h !! l = Some (OTensor t) → h !! t_storage t = Some (OStorage d) →
  tensor_value l (State h g lg) = (Ok (t_shape t, d), State h g lg).
Proof.
  intros Hl Hd. unfold tensor_value, read_tensor, read_storage, read. mred.
  rewrite Hl. mred. by rewrite Hd.
Qed.

Lemma optional_tensor_extend h tl p b :
  optional_tensor h p b → optional_tensor (h ++ tl) p b.
Proof.
  destruct p as [bl|]; [|done]. intros (bt & bd & H1 & H2 & H3 & H4).
  exists bt, bd. split_and!; eauto using heap_lookup_old.
Qed.

Lemma is_Conv1d_extend h tl l m c wt wd b :
  is_Conv1d h l m c wt wd b → is_Conv1d (h ++ tl) l m c wt wd b.
Proof.
  intros []. split; eauto using heap_lookup_old, optional_tensor_extend.
Qed.

(** The [nn.Conv2d] constructor on the arguments [expand_Conv1D] gives it. *)
Lemma Conv2d_run (c : conv1d_config) h g0 lg w0 g1 b0 g2 :
  cv_groups c ≠ 0%Z → (cv_in_channels c `mod` cv_groups c = 0)%Z →
  (cv_out_channels c `mod` cv_groups c = 0)%Z → cv_padding_mode c ∈ valid_padding_modes →
  (0 ≤ cv_out_channels c)%Z → (0 ≤ cv_in_channels c `div` cv_groups c)%Z →
  (0 ≤ cv_kernel_size c)%Z →
  init_floats g0 (numel (conv2d_weight_shape c)) = (w0, g1) →
  init_floats g1 (numel [Z.to_nat (cv_out_channels c)]) = (b0, g2) →
  Conv2d (VInt (cv_in_channels c)) (VInt (cv_out_channels c))
         (VTuple [VInt (cv_kernel_size c); VInt 1]) (VTuple [VInt (cv_stride c); VInt 1])
         (VTuple [VInt (cv_padding c); VInt 0]) (VTuple [VInt (cv_dilation c); VInt 1])
         (VInt (cv_groups c)) (VStr (cv_padding_mode c))
    (State h g0 lg) =
  (Ok (length h + 4),
   State (h ++ [OStorage (DFloat w0);
                OTensor (Tensor true (conv2d_weight_shape c) (length h));
                OStorage (DFloat b0);
                OTensor (Tensor true [Z.to_nat (cv_out_channels c)] (length h + 2));
                OModule (conv2d_module (conv2d_dict c) (length h + 1) (Some (length h + 3)))])
         g2 lg).
Proof.
  intros Hg Hin Hout Hpm Hc Hd Hk Hw Hb.
  unfold Conv2d. mred.
  rewrite !decide_False by done. mred.
  rewrite !decide_True by done. mred.
  unfold init_data, new_tensor, alloc. mred.
  change (Z.to_nat 1) with 1.
  unfold conv2d_weight_shape in *. rewrite Hw. mred. rewrite Hb. mred.
  rewrite <- !app_assoc, !length_app. cbn [app length].
  rewrite <- ?Nat.add_assoc. cbn [Nat.add].
  reflexivity.
Qed.

(** The forward pass of a convolution module whose attributes are known. *)
Lemma conv_forward_run kernel h gn lg l m wl wt wd bias b st pd dl g pm x :
  h !! l = Some (OModule m) →
  module_getattr m "weight" = Some (VRef wl) →
  h !! wl = Some (OTensor wt) →
  h !! t_storage wt = Some (OStorage wd) →
  module_getattr m "bias" = Some (opt_ref bias) →
  optional_tensor h bias b →
  module_getattr m "stride" = Some (VTuple (VInt <$> st)) →
  module_getattr m "padding" = Some (VTuple (VInt <$> pd)) →
  module_getattr m "dilation" = Some (VTuple (VInt <$> dl)) →
  module_getattr m "groups" = Some (VInt g) →
  module_getattr m "padding_mode" = Some (VStr pm) →
  conv_forward kernel l x (State h gn lg) =
  (kernel_result (kernel x (t_shape wt, wd) b st pd dl g pm), State h gn lg).
Proof.
  intros Hl Hw Hwl Hwd Hb Hbv Hst Hpd Hdl Hg Hpm.
  set (s := State h gn lg).
  unfold conv_forward.
  rewrite (bind_ok _ _ _ _ _ (getattr_run h gn lg _ _ _ _ Hl Hw)).
  rewrite (bind_ok _ _ _ _ _ (tensor_value_run h gn lg _ _ _ Hwl Hwd)).
  rewrite (bind_ok _ _ _ _ _ (getattr_run h gn lg _ _ _ _ Hl Hb)).
  assert (Hbias : (match opt_ref bias with
                   | VNone => mret None
                   | VRef bl => t ← tensor_value bl; mret (Some t)
                   | _ => raise TypeError "bias is not a tensor"
                   end : M (option tval)) s = (Ok b, s)).
  { destruct bias as [bl|]; cbn in *.
    - destruct Hbv as (bt & bd & Hbl & _ & Hbd & ->).
      by rewrite (bind_ok _ _ _ _ _ (tensor_value_run h gn lg _ _ _ Hbl Hbd)).
    - by subst b. }
  rewrite (bind_ok _ _ _ _ _ Hbias).
  assert (Htuple : ∀ name ns, module_getattr m name = Some (VTuple (VInt <$> ns)) →
            (v ← getattr l name; as_int_tuple v) s = (Ok ns, s)).
  { intros name ns Hn. rewrite (bind_ok _ _ _ _ _ (getattr_run h gn lg _ _ _ _ Hl Hn)).
    cbn. apply as_ints_ok. }
  rewrite (bind_ok _ _ _ _ _ (Htuple _ _ Hst)).
  rewrite (bind_ok _ _ _ _ _ (Htuple _ _ Hpd)).
  rewrite (bind_ok _ _ _ _ _ (Htuple _ _ Hdl)).
  assert (Hgroups : (v ← getattr l "groups"; as_int v) s = (Ok g, s)).
  { by rewrite (bind_ok _ _ _ _ _ (getattr_run h gn lg _ _ _ _ Hl Hg)). }
  rewrite (bind_ok _ _ _ _ _ Hgroups).
  rewrite (bind_ok _ _ _ _ _ (getattr_run h gn lg _ _ _ _ Hl Hpm)).
  mred. by destruct (kernel _ _ _ _ _ _ _ _).
Qed.

(** One round of the validation, on a heap that holds the source node and
    the node built for it. *)
Lemma check_expansion_run H g lg l m c wt wd b r w2 x g' :
  is_Conv1d H l m c wt wd b →
  H !! r = Some (OModule (conv2d_module (conv2d_dict c) w2 (cv_bias c))) →
  H !! w2 = Some (OTensor (Tensor true (t_shape wt ++ [1]) (t_storage wt))) →
  rand_floats g (numel [1; Z.to_nat (cv_in_channels c); 256]) = (x, g') →
  check_expansion l r (State H g lg) =
  (sample_verdict (mean_difference c (t_shape wt, wd) b x), State H g' lg).
Proof.
  intros W Hr Hw2 Hx. destruct W.
  unfold check_expansion.
  assert (Hc : (v ← getattr l "in_channels"; as_size v) (State H g lg)
               = (Ok (Z.to_nat (cv_in_channels c)), State H g lg)).
  { rewrite (bind_ok _ _ _ _ _ (getattr_run H g lg _ _ _ _ c1_obj0 (module_getattr_dict _ _ _ c1_in0))).
    cbn. by rewrite decide_True. }
  rewrite (bind_ok _ _ _ _ _ Hc).
  assert (Hrand : torch_rand [1; Z.to_nat (cv_in_channels c); 256] (State H g lg)
                  = (Ok ([1; Z.to_nat (cv_in_channels c); 256], DFloat x), State H g' lg)).
  { unfold torch_rand. cbn. by rewrite Hx. }
  rewrite (bind_ok _ _ _ _ _ Hrand).
  unfold Conv1d_call, Conv2d_call, mean_difference.
  rewrite (bind_run _ _ _ _ _
             (conv_forward_run conv1d_kernel H g' lg l m (cv_weight c) wt wd (cv_bias c) b
                [cv_stride c] [cv_padding c] [cv_dilation c] (cv_groups c) (cv_padding_mode c) _
                c1_obj0 (module_getattr_param _ _ _ c1_weight_attr0 c1_weight0)
                c1_weight_obj0 c1_weight_data0
                (module_getattr_param _ _ _ c1_bias_attr0 c1_bias0) c1_bias_obj0
                (module_getattr_dict _ _ _ c1_stride0) (module_getattr_dict _ _ _ c1_padding0)
                (module_getattr_dict _ _ _ c1_dilation0) (module_getattr_dict _ _ _ c1_groups0)
                (module_getattr_dict _ _ _ c1_mode0))).
  destruct (conv1d_kernel _ _ _ _ _ _ _ _) as [y1|]; [|done]. cbn [kernel_result].
  unfold tensor_mean at 1. mred.
  destruct (float_mean y1) as [m1|e1]; [|done]. mred.
  rewrite (conv_forward_run conv2d_kernel H g' lg r _ w2 _ wd (cv_bias c) b
             [cv_stride c; 1%Z] [cv_padding c; 0%Z] [cv_dilation c; 1%Z]
             (cv_groups c) (cv_padding_mode c) _ Hr eq_refl Hw2 c1_weight_data0
             eq_refl c1_bias_obj0 eq_refl eq_refl eq_refl eq_refl eq_refl).
  cbn [t_shape].
  destruct (conv2d_kernel _ _ _ _ _ _ _ _) as [y2|]; [|done]. cbn [kernel_result].
  unfold tensor_mean. mred.
  destruct (float_mean (squeeze y2.1, y2.2)) as [m2|e2]; [|done]. mred.
  unfold sample_verdict. by destruct (exceeds_tolerance (sub32 m1 m2)).
Qed.

(** Assigning a Parameter to an attribute of a module. *)
Lemma module_setattr_parameter h g lg l m name p t :
  h !! l = Some (OModule m) → h !! p = Some (OTensor t) → t_is_param t = true →
  module_setattr l name (VRef p) (State h g lg) =
  (Ok tt,
   State (<[l := OModule
              (let m1 := set_modules (set_buffers (set_dict m (dict_del name (m_dict m)))
                                        (dict_del name (_buffers m)))
                                     (dict_del name (_modules m)) in
               set_parameters m1 (dict_set name (Some p) (_parameters m1)))]> h) g lg).
Proof.
  intros Hl Hp Ht. unfold module_setattr, read_module, read, get_state. mred.
  rewrite Hl. mred. rewrite Hp, Ht. done.
Qed.

(** Assigning [None] to a registered parameter. *)
Lemma module_setattr_none h g lg l m name :
  h !! l = Some (OModule m) → dict_mem name (_parameters m) = true →
  module_setattr l name VNone (State h g lg) =
  (Ok tt, State (<[l := OModule (set_parameters m (dict_set name None (_parameters m)))]> h) g lg).
Proof.
  intros Hl Hp. unfold module_setattr, read_module, read, get_state. mred.
  rewrite Hl. mred. rewrite Hp. done.
Qed.

(** [expand_Conv1D] on a well-formed node: the construction always
    succeeds and leaves [expanded_heap]; the outcome is the verdict on the
    first sample, then on the second. *)
Lemma expand_Conv1D_run h g lg l m c wt wd b w0 g1 b0 g2 x1 g3 x2 g4 :
  is_Conv1d h l m c wt wd b →
  init_floats g (numel (conv2d_weight_shape c)) = (w0, g1) →
  init_floats g1 (numel [Z.to_nat (cv_out_channels c)]) = (b0, g2) →
  rand_floats g2 (numel [1; Z.to_nat (cv_in_channels c); 256]) = (x1, g3) →
  rand_floats g3 (numel [1; Z.to_nat (cv_in_channels c); 256]) = (x2, g4) →
  expand_Conv1D l (State h g lg) =
  match sample_verdict (mean_difference c (t_shape wt, wd) b x1) with
  | Raise e => (Raise e, State (expanded_heap h c wt w0 b0) g3 lg)
  | Ok _ =>
      match sample_verdict (mean_difference c (t_shape wt, wd) b x2) with
      | Raise e => (Raise e, State (expanded_heap h c wt w0 b0) g4 lg)
      | Ok _ => (Ok (Some (length h + 4)), State (expanded_heap h c wt w0 b0) g4 lg)
      end
  end.
Proof.
  intros W Hw0 Hb0 Hx1 Hx2. pose proof W as W0. destruct W.
  unfold expand_Conv1D.
  assert (Hinst : isinstance l nn_Conv1d (State h g lg) = (Ok true, State h g lg)).
  { unfold isinstance. cbn. rewrite c1_obj0. cbn. by rewrite bool_decide_eq_true_2. }
  rewrite (bind_ok _ _ _ _ _ Hinst). cbn [negb].
  assert (Hattr : ∀ name v, dict_get name (m_dict m) = Some v →
            getattr l name (State h g lg) = (Ok v, State h g lg)).
  { intros name v Hv. by apply (getattr_run h g lg l m), module_getattr_dict. }
  assert (Hfirst : ∀ name n, dict_get name (m_dict m) = Some (VTuple [VInt n]) →
            (v ← getattr l name; getitem v 0) (State h g lg) = (Ok (VInt n), State h g lg)).
  { intros name n Hv. by rewrite (bind_ok _ _ _ _ _ (Hattr _ _ Hv)). }
  rewrite (bind_ok _ _ _ _ _ (Hattr _ _ c1_in0)).
  rewrite (bind_ok _ _ _ _ _ (Hattr _ _ c1_out0)).
  rewrite (bind_ok _ _ _ _ _ (Hfirst _ _ c1_kernel0)).
  rewrite (bind_ok _ _ _ _ _ (Hfirst _ _ c1_stride0)).
  rewrite (bind_ok _ _ _ _ _ (Hfirst _ _ c1_padding0)).
  rewrite (bind_ok _ _ _ _ _ (Hfirst _ _ c1_dilation0)).
  rewrite (bind_ok _ _ _ _ _ (Hattr _ _ c1_groups0)).
  rewrite (bind_ok _ _ _ _ _ (Hattr _ _ c1_mode0)).
  rewrite (bind_ok _ _ _ _ _
             (Conv2d_run c h g lg w0 g1 b0 g2 c1_groups_nonzero0 c1_in_divisible0
                c1_out_divisible0 c1_mode_valid0 c1_out_nonneg0 c1_per_group_nonneg0
                c1_kernel_nonneg0 Hw0 Hb0)).
  set (news := [OStorage (DFloat w0);
                OTensor (Tensor true (conv2d_weight_shape c) (length h));
                OStorage (DFloat b0);
                OTensor (Tensor true [Z.to_nat (cv_out_channels c)] (length h + 2));
                OModule (conv2d_module (conv2d_dict c) (length h + 1) (Some (length h + 3)))]).
  rewrite (bind_ok _ _ _ _ _
             (getattr_run (h ++ news) g2 lg l m "bias" _ (heap_lookup_old _ _ _ _ c1_obj0)
                (module_getattr_param _ _ _ c1_bias_attr0 c1_bias0))).
  assert (Hset_bias :
    module_setattr (length h + 4) "bias" (opt_ref (cv_bias c)) (State (h ++ news) g2 lg) =
    (Ok tt, State (h ++ <[4 := OModule (conv2d_module (conv2d_dict c) (length h + 1)
                                           (cv_bias c))]> news) g2 lg)).
  { destruct (cv_bias c) as [bl|] eqn:Hbias; cbn [opt_ref].
    - destruct c1_bias_obj0 as (bt & bd & Hbl & Hbp & _).
      erewrite module_setattr_parameter;
        [|by apply heap_lookup_new_Some|by apply heap_lookup_old|done].
      by rewrite heap_insert_new.
    - erewrite module_setattr_none; [|by apply heap_lookup_new_Some|done].
      by rewrite heap_insert_new. }
  rewrite (bind_ok _ _ _ _ _ Hset_bias). subst news. cbn [list_insert insert].
  set (news := [OStorage (DFloat w0);
                OTensor (Tensor true (conv2d_weight_shape c) (length h));
                OStorage (DFloat b0);
                OTensor (Tensor true [Z.to_nat (cv_out_channels c)] (length h + 2));
                OModule (conv2d_module (conv2d_dict c) (length h + 1) (cv_bias c))]).
  rewrite (bind_ok _ _ _ _ _
             (getattr_run (h ++ news) g2 lg l m "weight" _ (heap_lookup_old _ _ _ _ c1_obj0)
                (module_getattr_param _ _ _ c1_weight_attr0 c1_weight0))).
  cbn [opt_ref].
  assert (Hparam :
    Parameter_of_unsqueezed (cv_weight c) (State (h ++ news) g2 lg) =
    (Ok (length h + 5),
     State (h ++ news ++ [OTensor (Tensor true (t_shape wt ++ [1]) (t_storage wt))]) g2 lg)).
  { unfold Parameter_of_unsqueezed, read_tensor, read, alloc. mred.
    rewrite (heap_lookup_old _ _ _ _ c1_weight_obj0). mred.
    by rewrite length_app, <- app_assoc. }
  rewrite (bind_ok _ _ _ _ _ Hparam).
  assert (Hset_weight :
    module_setattr (length h + 4) "weight" (VRef (length h + 5))
      (State (h ++ news ++ [OTensor (Tensor true (t_shape wt ++ [1]) (t_storage wt))]) g2 lg) =
    (Ok tt, State (expanded_heap h c wt w0 b0) g2 lg)).
  { erewrite module_setattr_parameter;
      [|by apply heap_lookup_new_Some|by apply heap_lookup_new_Some|done].
    by rewrite heap_insert_new. }
  rewrite (bind_ok _ _ _ _ _ Hset_weight).
  assert (W2 := is_Conv1d_extend h (drop (length h) (expanded_heap h c wt w0 b0)) _ _ _ _ _ _ W0).
  assert (Hheap : h ++ drop (length h) (expanded_heap h c wt w0 b0) = expanded_heap h c wt w0 b0).
  { unfold expanded_heap. by rewrite drop_app_length. }
  rewrite Hheap in W2. clear Hheap.
  assert (Hcheck : ∀ gi x gi',
    rand_floats gi (numel [1; Z.to_nat (cv_in_channels c); 256]) = (x, gi') →
    check_expansion l (length h + 4) (State (expanded_heap h c wt w0 b0) gi lg) =
    (sample_verdict (mean_difference c (t_shape wt, wd) b x),
     State (expanded_heap h c wt w0 b0) gi' lg)).
  { intros gi x gi' Hx.
    apply (check_expansion_run _ gi lg l m c wt wd b (length h + 4) (length h + 5)); [done|..|done].
    - by apply heap_lookup_new_Some.
    - by apply heap_lookup_new_Some. }
  specialize (Hcheck _ _ _ Hx1) as Hc1. specialize (Hcheck _ _ _ Hx2) as Hc2.
  cbn [for_range].
  destruct (sample_verdict (mean_difference c (t_shape wt, wd) b x1)) as [[]|e1].
  - destruct (sample_verdict (mean_difference c (t_shape wt, wd) b x2)) as [[]|e2].
    + rewrite (bind_ok _ _ _ _ _
                 (eq_trans (bind_ok _ _ _ _ _ Hc1) (eq_trans (bind_ok _ _ _ _ _ Hc2) eq_refl))).
      done.
    + rewrite (bind_raise _ _ _ _ _
                 (eq_trans (bind_ok _ _ _ _ _ Hc1) (bind_raise _ _ _ _ _ Hc2))).
      done.
  - by rewrite (bind_raise _ _ _ _ _ (bind_raise _ _ _ _ _ Hc1)).
Qed.

(** *** Batch normalisation *)

Lemma heap_lookup_new0 (h tl : list obj) o :
  tl !! 0 = Some o → (h ++ tl) !! (length h) = Some o.
Proof. intros. rewrite <- (Nat.add_0_r (length h)). by apply heap_lookup_new_Some. Qed.

Lemma heap_insert_new0 (h tl : list obj) o :
  <[length h := o]> (h ++ tl) = h ++ <[0 := o]> tl.
Proof. rewrite <- (Nat.add_0_r (length h)) at 1. apply heap_insert_new. Qed.

Lemma read_module_run h g lg l m :
  h !! l = Some (OModule m) → read_module l (State h g lg) = (Ok m, State h g lg).
Proof. intros Hl. unfold read_module, read. mred. by rewrite Hl. Qed.

Lemma read_tensor_run h g lg l t :
  h !! l = Some (OTensor t) → read_tensor l (State h g lg) = (Ok t, State h g lg).
Proof. intros Hl. unfold read_tensor, read. mred. by rewrite Hl. Qed.

Lemma read_storage_run h g lg l d :
  h !! l = Some (OStorage d) → read_storage l (State h g lg) = (Ok d, State h g lg).
Proof. intros Hl. unfold read_storage, read. mred. by rewrite Hl. Qed.

Lemma save_entries_some h g lg pre name p es dest t :
  h !! p = Some (OTensor t) →
  save_entries pre ((name, Some p) :: es) dest (State h g lg) =
  save_entries pre es (dict_set (pre +:+ name) (Tensor false (t_shape t) (t_storage t)) dest)
    (State h g lg).
Proof. intros Hp. cbn [save_entries]. by rewrite (bind_ok _ _ _ _ _ (read_tensor_run h g lg p t Hp)). Qed.

(** The state dict of a module without children. *)
Lemma state_dict_leaf h g lg l m sd1 sd2 :
  h !! l = Some (OModule m) → _modules m = [] →
  save_entries "" (_parameters m) [] (State h g lg) = (Ok sd1, State h g lg) →
  save_entries "" (_buffers m) sd1 (State h g lg) = (Ok sd2, State h g lg) →
  state_dict l (State h g lg) = (Ok sd2, State h g lg).
Proof.
  intros Hl Hm H1 H2. unfold state_dict.
  assert (Hs : get_state (State h g lg) = (Ok (State h g lg), State h g lg)) by done.
  rewrite (bind_ok _ _ _ _ _ Hs). cbn [heap state_dict_go].
  rewrite (bind_ok _ _ _ _ _ (read_module_run h g lg l m Hl)).
  rewrite (bind_ok _ _ _ _ _ H1), (bind_ok _ _ _ _ _ H2), Hm. done.
Qed.

(** Loading one entry whose key is present with the right shape: the
    source's elements are copied into the destination's storage. *)
Lemma load_entry_run h tl g lg sd pre r name i j input pt d :
  dict_get (pre +:+ name) sd = Some input →
  tl !! i = Some (OTensor pt) →
  t_storage pt = length h + j →
  h !! t_storage input = Some (OStorage d) →
  t_shape input = t_shape pt →
  load_entry sd pre r (name, length h + i) (State (h ++ tl) g lg) =
  (Ok r, State (h ++ <[j := OStorage d]> tl) g lg).
Proof.
  intros Hkey Hpt Hst Hd Hshape. unfold load_entry. cbn [fst snd]. rewrite Hkey.
  rewrite (bind_ok _ _ _ _ _
             (read_tensor_run (h ++ tl) g lg _ pt (heap_lookup_new_Some h tl i _ Hpt))).
  rewrite (bind_ok _ _ _ _ _
             (read_storage_run (h ++ tl) g lg _ d (heap_lookup_old h tl _ _ Hd))).
  rewrite <- Hshape.
  assert (Hmatch : match t_shape input, t_shape input with
                   | [], [_] =>
                       ([], match d with
                            | DFloat xs => DFloat (take 1 xs)
                            | DLong ns => DLong (take 1 ns)
                            end)
                   | _, sh => (sh, d)
                   end = (t_shape input, d)).
  { by destruct (t_shape input) as [|? [|? ?]]. }
  rewrite Hmatch. rewrite decide_True by done.
  unfold write. mred. by rewrite Hst, heap_insert_new.
Qed.

(** [load_state_dict] into a module without children, when every entry of
    the module loads and no key is unexpected. *)
Lemma load_state_dict_leaf h h' g lg r m2 sd :
  h !! r = Some (OModule m2) → h' !! r = Some (OModule m2) → _modules m2 = [] →
  foldlM (load_entry sd "") (LoadReport [] [] []) (local_state m2) (State h g lg)
  = (Ok (LoadReport [] [] []), State h' g lg) →
  List.filter (λ key, match key_head "" key with
                      | Some name =>
                          negb (dict_mem name (_modules m2)) &&
                          negb (dict_mem name (local_state m2))
                      | None => false
                      end) sd.*1 = [] →
  load_state_dict r sd (State h g lg) = (Ok tt, State h' g lg).
Proof.
  intros Hr Hr' Hm Hload Hunexpected. unfold load_state_dict.
  assert (Hs : get_state (State h g lg) = (Ok (State h g lg), State h g lg)) by done.
  rewrite (bind_ok _ _ _ _ _ Hs). cbn [heap load_go].
  assert (Hfrom : load_from_state_dict r sd "" (LoadReport [] [] []) (State h g lg)
                  = (Ok (LoadReport [] [] []), State h' g lg)).
  { unfold load_from_state_dict.
    rewrite (bind_ok _ _ _ _ _ (read_module_run h g lg r m2 Hr)).
    rewrite (bind_ok _ _ _ _ _ Hload). cbn [missing_keys unexpected_keys error_msgs].
    by rewrite Hunexpected. }
  assert (Hgo : load_go (S (length h)) r sd "" (LoadReport [] [] []) (State h g lg)
                = (Ok (LoadReport [] [] []), State h' g lg)).
  { cbn [load_go]. rewrite (bind_ok _ _ _ _ _ Hfrom).
    rewrite (bind_ok _ _ _ _ _ (read_module_run h' g lg r m2 Hr')). by rewrite Hm. }
  by rewrite (bind_ok _ _ _ _ _ Hgo).
Qed.

End runs.

(** ** [expand_Conv1D] *)

Section conv1d.
Context `{B : Backend}.

Lemma validation_samples_eq c g x1 x2 :
  validation_samples c g = (x1, x2) →
  ∃ w0 g1 b0 g2 g3 g4,
    init_floats g (numel (conv2d_weight_shape c)) = (w0, g1) ∧
    init_floats g1 (numel [Z.to_nat (cv_out_channels c)]) = (b0, g2) ∧
    rand_floats g2 (numel [1; Z.to_nat (cv_in_channels c); 256]) = (x1, g3) ∧
    rand_floats g3 (numel [1; Z.to_nat (cv_in_channels c); 256]) = (x2, g4).
Proof.
  unfold validation_samples.
  destruct (init_floats g _) as [w0 g1] eqn:Hw. cbn [snd].
  destruct (init_floats g1 _) as [b0 g2] eqn:Hb. cbn [snd].
  destruct (rand_floats g2 _) as [y1 g3] eqn:H1.
  destruct (rand_floats g3 _) as [y2 g4] eqn:H2.
  intros [= <- <-]. by exists w0, g1, b0, g2, g3, g4.
Qed.

Lemma mean_difference_error c w b x e :
  mean_difference c w b x = Raise e → exn_type e = RuntimeError.
Proof.
  unfold mean_difference, float_mean, kernel_result, mbind, result_bind.
  repeat case_match; naive_solver.
Qed.

Lemma sample_verdict_ok d :
  sample_verdict d = Ok tt ↔ ∃ close, d = Ok close ∧ exceeds_tolerance close = false.
Proof.
  unfold sample_verdict. destruct d as [close|e].
  - destruct (exceeds_tolerance close) eqn:E; split.
    + discriminate.
    + intros (close' & [= <-] & E'). congruence.
    + eauto.
    + done.
  - split; [discriminate|]. by intros (close & ? & _).
Qed.



End conv1d.

Lemma example_is_Conv1d :
  is_Conv1d example_conv1d_heap 4 example_conv1d example_conv1d_config
    (Tensor true [4; 2; 3] 0) (DFloat (replicate 24 1%float))
    (Some ([4], DFloat (replicate 4 0%float))).
Proof.
  split; try done; try (by left); try (cbn; lia);
    try (apply list_elem_of_In; cbn; tauto).
  cbn. by eexists _, _.
Qed.


(** ** [expand_BatchNorm1d] *)

Ltac hnorm :=
  rewrite ?length_app, <- ?app_assoc; cbn [length app];
  rewrite <- ?Nat.add_assoc; cbn [Nat.add].


Section batchnorm.
Context `{B : Backend}.

Lemma load_entry_run0 h tl g lg sd pre r name i input pt d :
  dict_get (pre +:+ name) sd = Some input →
  tl !! i = Some (OTensor pt) →
  t_storage pt = length h →
  h !! t_storage input = Some (OStorage d) →
  t_shape input = t_shape pt →
  load_entry sd pre r (name, length h + i) (State (h ++ tl) g lg) =
  (Ok r, State (h ++ <[0 := OStorage d]> tl) g lg).
Proof. intros ?? Hst ??. eapply load_entry_run; eauto. rewrite Hst. lia. Qed.

Ltac load_step :=
  erewrite bind_ok; cycle 1;
  [ first [ eapply load_entry_run;
            [reflexivity|reflexivity|reflexivity|cbn; eassumption|cbn; congruence]
          | eapply load_entry_run0;
            [reflexivity|reflexivity|reflexivity|cbn; eassumption|cbn; congruence] ]
  | cbn [list_insert insert] ].

Lemma entry_value_old h l t d :
  h !! l = Some (OTensor t) → h !! t_storage t = Some (OStorage d) →
  entry_value h (Some l) = Some (t_shape t, d).
Proof. intros H1 H2. unfold entry_value. by rewrite H1, H2. Qed.

Lemma entry_value_new h tl i j t d :
  tl !! i = Some (OTensor t) → t_storage t = length h + j → tl !! j = Some (OStorage d) →
  entry_value (h ++ tl) (Some (length h + i)) = Some (t_shape t, d).
Proof.
  intros H1 H2 H3. unfold entry_value.
  by rewrite (heap_lookup_new_Some _ _ _ _ H1), H2, (heap_lookup_new_Some _ _ _ _ H3).
Qed.

Lemma entry_value_new0 h tl i t d :
  tl !! i = Some (OTensor t) → t_storage t = length h → tl !! 0 = Some (OStorage d) →
  entry_value (h ++ tl) (Some (length h + i)) = Some (t_shape t, d).
Proof. intros H1 H2 H3. eapply entry_value_new; eauto. rewrite H2. lia. Qed.

Ltac entry_step :=
  first
    [ erewrite entry_value_new by reflexivity
    | erewrite entry_value_new0 by reflexivity
    | match goal with
      | H1 : ?h !! ?l = Some (OTensor ?t), H2 : ?h !! t_storage ?t = Some (OStorage ?d)
        |- context [entry_value ?h (Some ?l)] =>
          rewrite (entry_value_old h l t d H1 H2)
      end ].

Ltac norm_props :=
  cbn [heap]; split_and!;
  [ by apply prefix_app_r
  | lia
  | first [by apply heap_lookup_new_Some | by apply heap_lookup_new0]
  | reflexivity | reflexivity | reflexivity | reflexivity | reflexivity | reflexivity
  | cbn [_parameters _buffers app fmap list_fmap fst snd]; repeat entry_step; cbn [t_shape];
    repeat match goal with
           | H : t_shape ?t = _ |- context [t_shape ?t] => rewrite H
           end;
    reflexivity ].

Ltac save_step :=
  match goal with
  | H : ?h !! ?p = Some (OTensor ?t) |- context [save_entries _ ((_, Some ?p) :: _)] =>
      rewrite (save_entries_some _ _ _ _ _ _ _ _ _ (heap_lookup_old _ _ _ _ H))
  end.

Ltac run_norm h g lg b1_obj b1_modules b1_parameters b1_buffers flags :=
  let Hctor := fresh "Hctor" in
  eexists _, _, _; split;
  [ match goal with
    | |- context [BatchNorm2d ?a1 ?a2 ?a3 ?a4 ?a5] =>
        eassert (Hctor : BatchNorm2d a1 a2 a3 a4 a5 (State h g lg)
                         = (Ok _, State (h ++ _) g lg))
    end;
    [ unfold BatchNorm2d, new_tensor, alloc; mred; rewrite ?decide_True by done; mred;
      hnorm; reflexivity | ];
    rewrite (bind_ok _ _ _ _ _ Hctor); clear Hctor;
    erewrite bind_ok; cycle 1;
    [ eapply state_dict_leaf; [by apply heap_lookup_old|done|..];
      [ rewrite b1_parameters; repeat save_step; reflexivity
      | rewrite b1_buffers; repeat save_step; reflexivity ]
    | ];
    erewrite bind_ok; cycle 1;
    [ eapply load_state_dict_leaf;
        [first [by apply heap_lookup_new_Some | by apply heap_lookup_new0]| |done| |];
      [ |
        cbn [local_state _parameters _buffers app omap list_omap fst snd foldlM];
        repeat load_step; reflexivity
      | vm_compute; reflexivity ];
      first [by apply heap_lookup_new_Some | by apply heap_lookup_new0]
    | reflexivity ]
  | ].



End batchnorm.

Lemma example_is_BatchNorm1d :
  is_BatchNorm1d example_bn_heap 10 example_bn1d example_bn_config.
Proof.
  split; try done; try (by left); cbn; by eexists _, _, _.
Qed.


(** ** Dictionaries and dotted paths *)

Section dict_facts.
Context {V : Type}.
Implicit Types d : list (string * V).

Lemma dict_get_set_eq k v d : dict_get k (dict_set k v d) = Some v.
Proof.
  induction d as [|[k' v'] d IH]; cbn.
  - by rewrite decide_True.
  - destruct (decide (k' = k)) as [->|Hne]; cbn.
    + by rewrite decide_True.
    + by rewrite decide_False.
Qed.

Lemma dict_get_set_ne k k' v d : k ≠ k' → dict_get k' (dict_set k v d) = dict_get k' d.
Proof.
  intros Hne. induction d as [|[k0 v0] d IH]; cbn.
  - by rewrite decide_False.
  - destruct (decide (k0 = k)) as [->|Hne0]; cbn.
    + by rewrite !decide_False.
    + destruct (decide (k0 = k')); [done | apply IH].
Qed.

Lemma dict_get_elem_of k v d : dict_get k d = Some v → (k, v) ∈ d.
Proof.
  induction d as [|[k0 v0] d IH]; cbn; [done|].
  destruct (decide (k0 = k)) as [->|Hne].
  - intros [= ->]. left.
  - intros Hd. right. by apply IH.
Qed.

Lemma dict_set_keys k v d k' :
  k' ∈ (dict_set k v d).*1 ↔ k' = k ∨ k' ∈ d.*1.
Proof.
  induction d as [|[k0 v0] d IH]; cbn.
  - rewrite list_elem_of_singleton. set_solver.
  - destruct (decide (k0 = k)) as [->|Hne]; cbn; set_solver.
Qed.

Lemma dict_set_elem_of k v d k' v' :
  (k', v') ∈ dict_set k v d → (k' = k ∧ v' = v) ∨ (k', v') ∈ d.
Proof.
  induction d as [|[k0 v0] d IH]; cbn.
  - rewrite list_elem_of_singleton. intros [= -> ->]. by left.
  - destruct (decide (k0 = k)) as [->|Hne]; cbn.
    + rewrite !elem_of_cons. intros [[= -> ->]|?]; [by left | right; by right].
    + rewrite !elem_of_cons. intros [[= -> ->]|?]; [right; by left |].
      destruct (IH H) as [?|?]; [by left | right; by right].
Qed.

End dict_facts.

Lemma split_on_nonempty sep s : split_on sep s ≠ [].
Proof. destruct s as [|c s]; cbn; [done|]. destruct (decide (c = sep)); [done|]. by destruct (split_on sep s). Qed.

Lemma split_dots_last path : ∃ name, last (split_dots path) = Some name.
Proof.
  unfold split_dots. pose proof (split_on_nonempty "."%char path) as Hne.
  destruct (split_on "."%char path) as [|x xs] using rev_ind; [done|].
  exists x. by rewrite last_snoc.
Qed.

(** ** [swap_expanded] *)

Section swap.
Context `{B : Backend}.

Lemma module_at_Some h l m : module_at h l = Some m ↔ h !! l = Some (OModule m).
Proof. unfold module_at. destruct (h !! l) as [[]|]; naive_solver. Qed.

(** The walk of [swap_expanded] over the segments before the last one. *)
Lemma walk_run h g lg segs parent r :
  walk h parent segs = Some r →
  foldlM child_of parent segs (State h g lg) = (Ok r, State h g lg).
Proof.
  revert parent. induction segs as [|name segs IH]; intros parent; cbn.
  - by intros [= ->].
  - destruct parent as [pl|]; [|done].
    destruct (module_at h pl) as [m|] eqn:Hm; [|done].
    apply module_at_Some in Hm.
    destruct (dict_get name (_modules m)) as [c|] eqn:Hc; [|done].
    intros Hw.
    assert (Hstep : child_of (Some pl) name (State h g lg) = (Ok c, State h g lg)).
    { unfold child_of. rewrite (bind_ok _ _ _ _ _ (read_module_run h g lg pl m Hm)).
      by rewrite Hc. }
    rewrite (bind_ok _ _ _ _ _ Hstep). by apply IH.
Qed.

Lemma read_module_fail h g lg l :
  module_at h l = None → ∃ e, read_module l (State h g lg) = (Raise e, State h g lg).
Proof.
  unfold module_at, read_module, read, mbind, M_bind. cbn.
  destruct (h !! l) as [[d|t|m]|]; cbn; intros; try done; eauto.
Qed.

(** A failed walk raises and leaves the state as it was. *)
Lemma walk_fail h g lg segs parent :
  walk h parent segs = None →
  ∃ e, foldlM child_of parent segs (State h g lg) = (Raise e, State h g lg).
Proof.
  revert parent. induction segs as [|name segs IH]; intros parent; cbn [walk foldlM]; [done|].
  destruct parent as [pl|].
  - destruct (module_at h pl) as [m|] eqn:Hm.
    + apply module_at_Some in Hm.
      destruct (dict_get name (_modules m)) as [c|] eqn:Hc.
      * intros Hw. apply IH in Hw as [e He]. exists e.
        assert (Hstep : child_of (Some pl) name (State h g lg) = (Ok c, State h g lg)).
        { unfold child_of. rewrite (bind_ok _ _ _ _ _ (read_module_run h g lg pl m Hm)).
          by rewrite Hc. }
        by rewrite (bind_ok _ _ _ _ _ Hstep).
      * intros _. eexists. apply bind_raise. unfold child_of.
        rewrite (bind_ok _ _ _ _ _ (read_module_run h g lg pl m Hm)). by rewrite Hc.
    + intros _. destruct (read_module_fail h g lg pl Hm) as [e He]. exists e.
      apply bind_raise. unfold child_of. by apply bind_raise.
  - intros _. eexists. by apply bind_raise.
Qed.

Lemma set_child_run h g lg p m name new_mod :
  h !! p = Some (OModule m) →
  set_child (Some p) name new_mod (State h g lg) =
  (Ok tt, State (<[p := OModule (set_modules m (dict_set name (Some new_mod) (_modules m)))]> h)
             g lg).
Proof.
  intros Hp. unfold set_child. by rewrite (bind_ok _ _ _ _ _ (read_module_run h g lg p m Hp)).
Qed.

Lemma swap_entry_run h g lg model path new_mod p m name :
  walk h (Some model) (but_last (split_dots path)) = Some (Some p) →
  h !! p = Some (OModule m) →
  last (split_dots path) = Some name →
  swap_entry model (path, new_mod) (State h g lg) =
  (Ok tt, State (<[p := OModule (set_modules m (dict_set name (Some new_mod) (_modules m)))]> h)
             g lg).
Proof.
  intros Hw Hp Hl. unfold swap_entry. cbn [fst snd].
  rewrite (bind_ok _ _ _ _ _ (walk_run h g lg _ _ _ Hw)), Hl.
  by apply set_child_run.
Qed.

Lemma swap_expanded_cons model e mapping s :
  swap_expanded model (e :: mapping) s =
  match swap_entry model e s with
  | (Ok _, s') => swap_expanded model mapping s'
  | (Raise e', s') => (Raise e', s')
  end.
Proof.
  unfold swap_expanded. cbn [foldlM]. unfold mbind, M_bind.
  by destruct (swap_entry model e s) as [[[]|?] ?].
Qed.

Lemma swap_expanded_returns_model model mapping s r s' :
  swap_expanded model mapping s = (Ok r, s') → r = model.
Proof.
  unfold swap_expanded. intros H'.
  apply bind_inv_ok in H' as (a & s1 & _ & H'). by injection H' as <- _.
Qed.

(** C4.  For a mapping entry whose dotted path resolves up to its last
    segment (for "a.b.c": the node reached from the root by "a" then "b"),
    in-place substitution sets the child of that node named by the last
    segment to the replacement and changes nothing else: every other object
    of the heap is the same, and the parent keeps its class, attributes,
    parameters, buffers and every other child entry.  Substitution goes on
    with the rest of the mapping from that heap, and what it returns is the
    root reference it was given. *)
Theorem swap_expanded_replaces_exactly_the_addressed_child
    h g lg model path new_mod mapping p m :
  walk h (Some model) (but_last (split_dots path)) = Some (Some p) →
  h !! p = Some (OModule m) →
  ∃ name m' h',
    last (split_dots path) = Some name ∧
    swap_entry model (path, new_mod) (State h g lg) = (Ok tt, State h' g lg) ∧
    swap_expanded model ((path, new_mod) :: mapping) (State h g lg)
      = swap_expanded model mapping (State h' g lg) ∧
    swap_expanded model [(path, new_mod)] (State h g lg) = (Ok model, State h' g lg) ∧
    length h' = length h ∧
    (∀ q, q ≠ p → h' !! q = h !! q) ∧
    h' !! p = Some (OModule m') ∧
    dict_get name (_modules m') = Some (Some new_mod) ∧
    (∀ k, k ≠ name → dict_get k (_modules m') = dict_get k (_modules m)) ∧
    m' = set_modules m (_modules m').
Proof.
  intros Hw Hp. destruct (split_dots_last path) as [name Hl].
  pose proof (swap_entry_run h g lg model path new_mod p m name Hw Hp Hl) as Hrun.
  exists name, (set_modules m (dict_set name (Some new_mod) (_modules m))),
         (<[p := OModule (set_modules m (dict_set name (Some new_mod) (_modules m)))]> h).
  split_and!.
  - done.
  - done.
  - by rewrite swap_expanded_cons, Hrun.
  - by rewrite swap_expanded_cons, Hrun.
  - apply length_insert.
  - intros q Hq. by apply list_lookup_insert_ne.
  - apply list_lookup_insert_eq. by eapply lookup_lt_Some.
  - apply dict_get_set_eq.
  - intros k Hk. cbn. by apply dict_get_set_ne.
  - done.
Qed.

End swap.

Lemma swap_expanded_replaces_exactly_the_addressed_child_witness :
  ∃ h' m',
    swap_expanded 0 [("a.b.c", 6)] (toy_state example_tree_heap) = (Ok 0, toy_state h') ∧
    (∀ q, q ≠ 2 → h' !! q = example_tree_heap !! q) ∧
    h' !! 2 = Some (OModule m') ∧
    dict_get "c" (_modules m') = Some (Some 6) ∧
    dict_get "d" (_modules m') = Some (Some 5).
Proof.
  destruct (@swap_expanded_replaces_exactly_the_addressed_child toy_backend
              example_tree_heap 0 [] 0 "a.b.c" 6 [] 2
              (container "Block" [("c", Some 3); ("d", Some 5)]) eq_refl eq_refl)
    as (name & m' & h' & Hname & _ & _ & Hrun & _ & Hframe & Hp & Hnew & Hother & _).
  vm_compute in Hname. injection Hname as <-.
  exists h', m'.
  exact (conj Hrun (conj Hframe (conj Hp (conj Hnew
           (eq_trans (Hother "d" ltac:(discriminate)) eq_refl))))).
Defined.

(** ** Dotted paths *)

Section paths.

Lemma split_on_cons sep c s :
  split_on sep (String c s) =
    if decide (c = sep) then EmptyString :: split_on sep s
    else match split_on sep s with
         | [] => [String c EmptyString]
         | w :: ws => String c w :: ws
         end.
Proof. done. Qed.

Lemma split_on_app sep a b :
  split_on sep (a +:+ String sep b) = split_on sep a ++ split_on sep b.
Proof.
  induction a as [|c a IH].
  - change (EmptyString +:+ String sep b) with (String sep b).
    rewrite split_on_cons. by rewrite decide_True.
  - change (String c a +:+ String sep b) with (String c (a +:+ String sep b)).
    rewrite !split_on_cons, IH.
    destruct (decide (c = sep)) as [->|Hne]; [done|].
    pose proof (split_on_nonempty sep a) as Hne'.
    by destruct (split_on sep a).
Qed.

Lemma split_dots_no_dot x : has_dot x = false → split_dots x = [x].
Proof.
  unfold split_dots. induction x as [|c x IH]; [done|].
  rewrite split_on_cons. cbn [has_dot].
  intros [Hc Hx]%orb_false_elim.
  rewrite IH by done. destruct (decide (c = "."%char)) as [->|]; [|done].
  by vm_compute in Hc.
Qed.

Lemma append_empty a b : a +:+ b = EmptyString → b = EmptyString.
Proof. by destruct a. Qed.

Lemma child_prefix_nonempty pre name : name ≠ EmptyString → child_prefix pre name ≠ EmptyString.
Proof.
  unfold child_prefix. intros Hn He. by apply append_empty, append_empty in He.
Qed.

Lemma path_of_snoc segs x : path_of (segs ++ [x]) = child_prefix (path_of segs) x.
Proof. unfold path_of. by rewrite foldl_app. Qed.

Lemma path_of_nonempty segs :
  segs ≠ [] → Forall good_name segs → path_of segs ≠ EmptyString.
Proof.
  destruct segs as [|x segs] using rev_ind; [done|].
  intros _ [_ Hx]%Forall_app. apply Forall_singleton in Hx as [Hx _].
  rewrite path_of_snoc. by apply child_prefix_nonempty.
Qed.

(** [split] undoes the paths [named_modules] builds, except for the root's
    empty path, which splits into one empty segment. *)
Lemma split_dots_path_of segs :
  segs ≠ [] → Forall good_name segs → split_dots (path_of segs) = segs.
Proof.
  induction segs as [|x segs IH] using rev_ind; [done|].
  intros _ [Hsegs Hx]%Forall_app. apply Forall_singleton in Hx as [Hx Hdot].
  rewrite path_of_snoc. unfold child_prefix.
  destruct (decide (path_of segs = EmptyString)) as [He|Hne].
  - destruct segs as [|y segs]; [|by destruct (path_of_nonempty (y :: segs))].
    cbn. by apply split_dots_no_dot.
  - destruct segs as [|y segs]; [done|].
    change ("." +:+ x) with (String "."%char x).
    unfold split_dots in *. rewrite split_on_app, IH by done.
    f_equal. by apply split_dots_no_dot.
Qed.

Lemma split_dots_empty : split_dots EmptyString = [EmptyString].
Proof. done. Qed.

End paths.

(** ** [named_modules] *)

Section enumeration.
Context `{B : Backend}.

Lemma dict_get_NoDup {V} k (v : V) (d : list (string * V)) :
  NoDup d.*1 → (k, v) ∈ d → dict_get k d = Some v.
Proof.
  induction d as [|[k0 v0] d IH]; cbn; [by intros _ ?%elem_of_nil|].
  intros [Hk0 Hd]%NoDup_cons [[= -> ->]|Hin]%elem_of_cons.
  - by rewrite decide_True.
  - rewrite decide_False; [by apply IH|].
    intros ->. apply Hk0. apply list_elem_of_fmap. by exists (k, v).
Qed.

Lemma dict_get_None {V} k (d : list (string * V)) : k ∉ d.*1 → dict_get k d = None.
Proof.
  induction d as [|[k0 v0] d IH]; cbn; [done|].
  intros Hk. rewrite decide_False by set_solver. apply IH. set_solver.
Qed.

Lemma enumerated_child h l m pre name cl K u :
  h !! l = Some (OModule m) →
  dict_get name (_modules m) = Some (Some cl) →
  enumerated h cl (child_prefix pre name) K u →
  enumerated h l pre K u.
Proof.
  intros Hl Hc (segs & -> & Hw & Hu). exists (name :: segs). split_and!; [done| |done].
  cbn. apply module_at_Some in Hl. by rewrite Hl, Hc.
Qed.

Section children.
Variables (h : list obj) (l : loc) (m : module) (pre : string).
Variable go : gset loc → string → loc → result nm_acc.
Hypothesis Hl : h !! l = Some (OModule m).
Hypothesis Hnodup : NoDup (_modules m).*1.
Hypothesis Hgo : ∀ memo name cl out memo' K u,
  go memo name cl = Ok (out, memo') → (K, u) ∈ out → enumerated h cl name K u.

Lemma visit_raise cs e : foldl (visit go pre) (Raise e) cs = Raise e.
Proof. by induction cs. Qed.

Lemma visit_sound cs out0 memo0 out memo' :
  cs ⊆ _modules m →
  (∀ K u, (K, u) ∈ out0 → enumerated h l pre K u) →
  foldl (visit go pre) (Ok (out0, memo0)) cs = Ok (out, memo') →
  ∀ K u, (K, u) ∈ out → enumerated h l pre K u.
Proof using Hl Hnodup Hgo.
  revert out0 memo0. induction cs as [|[name c] cs IH]; intros out0 memo0 Hcs H0; cbn [foldl].
  - intros Heq. injection Heq as <- <-. exact H0.
  - assert (Hc : dict_get name (_modules m) = Some c).
    { apply dict_get_NoDup; [done|]. apply Hcs. left. }
    assert (Hcs' : cs ⊆ _modules m) by set_solver.
    unfold visit at 2. cbn [fst snd].
    destruct c as [cl|]; [|by apply IH].
    destruct (go memo0 (child_prefix pre name) cl) as [[out1 memo1]|e] eqn:Hg.
    + apply IH; [done|]. intros K u [Hin|Hin]%elem_of_app; [by apply H0|].
      eapply enumerated_child; [done..|]. by eapply Hgo.
    + by rewrite visit_raise.
Qed.

End children.

Lemma named_modules_go_sound fuel h memo pre l out memo' :
  well_named h →
  named_modules_go fuel h memo pre l = Ok (out, memo') →
  ∀ K u, (K, u) ∈ out → enumerated h l pre K u.
Proof.
  intros Hwf. revert memo pre l out memo'.
  induction fuel as [|fuel IH]; intros memo pre l out memo'; cbn [named_modules_go]; [done|].
  destruct (h !! l) as [[d|t|m]|] eqn:Hl; try done.
  destruct (decide (l ∈ memo)); [by intros [= <- <-] K u ?%elem_of_nil|].
  destruct (Hwf l m Hl) as [Hnodup _].
  intros Hf. eapply (visit_sound h l m pre (named_modules_go fuel h) Hl Hnodup);
    [by eauto | reflexivity | | exact Hf].
  intros K u [= -> ->]%list_elem_of_singleton. exists []. split_and!; [done..|].
  unfold module_at. by rewrite Hl.
Qed.

Lemma named_modules_sound model s r s' :
  well_named (heap s) →
  named_modules model s = (r, s') →
  s' = s ∧ ∀ nm, r = Ok nm → ∀ K u, (K, u) ∈ nm → enumerated (heap s) model EmptyString K u.
Proof.
  intros Hwf. unfold named_modules.
  destruct (named_modules_go _ _ _ _ _) as [[out memo]|e] eqn:Hgo; intros [= <- <-]; split; try done.
  intros nm [= <-]. by eapply named_modules_go_sound.
Qed.

End enumeration.

(** ** Building the mapping *)

Section build.
Context `{B : Backend}.

Lemma ret_run {A} (a : A) (s : state) : (mret a : M A) s = (Ok a, s).
Proof. done. Qed.

Lemma swapped_truthy_run swapped s : ∃ t, swapped_truthy swapped s = (Ok t, s).
Proof. destruct swapped; eexists; reflexivity. Qed.

Lemma fresh_closed_start h : fresh_closed (length h) h.
Proof.
  intros q m name c Hq Hm _. apply lookup_lt_Some in Hm. lia.
Qed.

(** What a constructing conversion keeps of a heap that extends [h0]. *)
Lemma constructs_step h0 f l s r s' :
  constructs f →
  h0 `prefix_of` heap s → fresh_closed (length h0) (heap s) →
  f l s = (r, s') →
  h0 `prefix_of` heap s' ∧ fresh_closed (length h0) (heap s') ∧
  ∀ new, r = Ok (Some new) → length h0 ≤ new.
Proof.
  intros Hf Hpre Hclosed Hrun. destruct (Hf l s r s' Hrun) as (Hext & Hnew & Hres).
  pose proof (prefix_length _ _ Hpre) as Hlen.
  split_and!.
  - by etrans.
  - intros q m name c Hq Hm Hc.
    destruct (decide (q < length (heap s))) as [Hlt|Hge].
    + destruct (lookup_lt_is_Some_2 (heap s) q Hlt) as [o Ho].
      pose proof (prefix_lookup_Some _ _ _ _ Ho Hext) as Ho'.
      rewrite Hm in Ho'. injection Ho' as <-. by eapply Hclosed.
    + etrans; [exact Hlen|]. eapply Hnew; [|done..]. lia.
  - intros new Hr. etrans; [exact Hlen|]. by apply Hres.
Qed.

Lemma expand_entry_step h0 model table mapping K u s r s' :
  constructing table →
  h0 `prefix_of` heap s → fresh_closed (length h0) (heap s) →
  enumerated h0 model EmptyString K u →
  mapping_of h0 table model mapping →
  expand_entry table mapping (K, u) s = (r, s') →
  h0 `prefix_of` heap s' ∧ fresh_closed (length h0) (heap s') ∧
  ∀ mapping', r = Ok mapping' → mapping_of h0 table model mapping'.
Proof.
  intros Htable Hpre Hclosed Henum Hmap.
  pose proof Henum as (segs & _ & _ & [m Hm]).
  apply module_at_Some in Hm.
  pose proof (prefix_lookup_Some _ _ _ _ Hm Hpre) as Hu.
  destruct s as [h g lg]. cbn [heap] in *.
  unfold expand_entry. cbn [fst snd].
  rewrite (bind_ok _ _ _ _ _ (read_module_run h g lg u m Hu)).
  destruct (table !! type_name m) as [f|] eqn:Hf.
  - destruct (f u (State h g lg)) as [r1 s1] eqn:Hrun.
    rewrite (bind_run _ _ _ _ _ Hrun).
    destruct (constructs_step h0 f u (State h g lg) _ _ (Htable _ _ Hf) Hpre Hclosed Hrun)
      as (Hpre1 & Hclosed1 & Hnew).
    destruct r1 as [swapped|e]; [|by intros [= <- <-]].
    destruct (swapped_truthy_run swapped s1) as [t Ht].
    rewrite (bind_ok _ _ _ _ _ Ht).
    assert (Hadd : ∀ new, swapped = Some new → mapping_of h0 table model (dict_set K new mapping)).
    { intros new -> K' new' [[-> ->]|Hin]%dict_set_elem_of; [|by apply Hmap].
      split; [by apply Hnew|]. exists u. split; [done|]. exists m. split; [done|]. by exists f. }
    destruct swapped as [new|]; [destruct t|]; rewrite ret_run; intros [= <- <-];
      (split_and!; [done..|]); intros mapping' [= <-]; eauto.
  - rewrite ret_run. intros [= <- <-]. split_and!; [done..|]. by intros mapping' [= <-].
Qed.

Lemma build_loop h0 model table nm mapping s r s' :
  constructing table →
  h0 `prefix_of` heap s → fresh_closed (length h0) (heap s) →
  (∀ K u, (K, u) ∈ nm → enumerated h0 model EmptyString K u) →
  mapping_of h0 table model mapping →
  foldlM (expand_entry table) mapping nm s = (r, s') →
  h0 `prefix_of` heap s' ∧ fresh_closed (length h0) (heap s') ∧
  ∀ mapping', r = Ok mapping' → mapping_of h0 table model mapping'.
Proof.
  intros Htable. revert mapping s.
  induction nm as [|[K u] nm IH]; intros mapping s Hpre Hclosed Hnm Hmap; cbn [foldlM].
  - rewrite ret_run. intros [= <- <-]. split_and!; [done..|]. by intros mapping' [= <-].
  - destruct (expand_entry table mapping (K, u) s) as [r1 s1] eqn:Hrun.
    rewrite (bind_run _ _ _ _ _ Hrun).
    destruct (expand_entry_step h0 model table mapping K u s r1 s1)
      as (Hpre1 & Hclosed1 & Hmap1); try done.
    { apply Hnm. left. }
    destruct r1 as [mapping1|e].
    + apply IH; try done; [|by apply Hmap1]. intros K' u' Hin. apply Hnm. by right.
    + intros [= <- <-]. split_and!; [done..|]. by intros mapping' [=].
Qed.

(** The mapping of a pass over a table of constructing conversions: built
    without a change to the objects there were, each key the path of a node
    of a kind of the table, each replacement allocated by the pass. *)
Lemma build_mapping_sound model table s r s' :
  well_named (heap s) → constructing table →
  build_mapping model table s = (r, s') →
  heap s `prefix_of` heap s' ∧ fresh_closed (length (heap s)) (heap s') ∧
  ∀ mapping, r = Ok mapping → mapping_of (heap s) table model mapping.
Proof.
  intros Hwf Htable. unfold build_mapping.
  destruct (named_modules model s) as [r0 s0] eqn:Hnm.
  rewrite (bind_run _ _ _ _ _ Hnm).
  destruct (named_modules_sound model s r0 s0 Hwf Hnm) as [-> Hsound].
  destruct r0 as [nm|e].
  - apply build_loop; try done.
    + apply fresh_closed_start.
    + by apply Hsound.
    + by intros K new ?%elem_of_nil.
  - intros [= <- <-]. split_and!; [done|apply fresh_closed_start|]. by intros mapping [=].
Qed.

End build.

(** ** Substitution after the mapping is built *)

Section substitution.
Context `{B : Backend}.
Implicit Types (h H : list obj) (table : gmap string expander).

Lemma slot_kept_refl h table v : slot_kept h table v v.
Proof. by left. Qed.

Lemma set_modules_id m : set_modules m (_modules m) = m.
Proof. by destruct m. Qed.

Lemma set_modules_twice m cs cs' : set_modules (set_modules m cs) cs' = set_modules m cs'.
Proof. done. Qed.

Lemma object_kept_refl h table o : object_kept h table o o.
Proof.
  destruct o as [d|t|m]; cbn; [done..|].
  exists m. split_and!; [done|by rewrite set_modules_id|]. intros name. apply slot_kept_refl.
Qed.

Lemma pass_invariant_start h table H :
  h `prefix_of` H → fresh_closed (length h) H → pass_invariant h table H.
Proof.
  intros Hpre Hclosed. split; [|done]. intros l o Hl. exists o. split.
  - by eapply prefix_lookup_Some.
  - apply object_kept_refl.
Qed.

Lemma walk_names h start segs r :
  well_named h → walk h start segs = Some r → Forall good_name segs.
Proof.
  intros Hwf. revert start. induction segs as [|name segs IH]; intros start; cbn; [done|].
  destruct start as [pl|]; [|done].
  destruct (module_at h pl) as [m|] eqn:Hm; [|done]. apply module_at_Some in Hm.
  destruct (dict_get name (_modules m)) as [c|] eqn:Hc; [|done].
  intros Hw. constructor; [|by eapply IH].
  destruct (Hwf pl m Hm) as [_ Hgood]. rewrite Forall_forall in Hgood. apply Hgood.
  apply list_elem_of_fmap. exists (name, c). split; [done|]. by apply dict_get_elem_of.
Qed.

Lemma walk_snoc h start segs name r :
  walk h start (segs ++ [name]) = Some r →
  ∃ p m, walk h start segs = Some (Some p) ∧ h !! p = Some (OModule m) ∧
         dict_get name (_modules m) = Some r.
Proof.
  revert start. induction segs as [|x segs IH]; intros start; cbn.
  - destruct start as [pl|]; [|done].
    destruct (module_at h pl) as [m|] eqn:Hm; [|done]. apply module_at_Some in Hm.
    destruct (dict_get name (_modules m)) as [c|] eqn:Hc; [|done].
    intros [= <-]. by exists pl, m.
  - destruct start as [pl|]; [|done].
    destruct (module_at h pl) as [m|]; [|done].
    destruct (dict_get x (_modules m)) as [c|]; [|done]. apply IH.
Qed.

Lemma walk_prefix h H start segs r :
  h `prefix_of` H → walk h start segs = Some r → walk H start segs = Some r.
Proof.
  intros Hpre. revert start. induction segs as [|x segs IH]; intros start; cbn; [done|].
  destruct start as [pl|]; [|done].
  destruct (module_at h pl) as [m|] eqn:Hm; [|done]. apply module_at_Some in Hm.
  pose proof (prefix_lookup_Some _ _ _ _ Hm Hpre) as Hm'. apply module_at_Some in Hm'.
  rewrite Hm'. destruct (dict_get x (_modules m)) as [c|]; [|done]. apply IH.
Qed.

Lemma but_last_snoc {A} (xs : list A) x : but_last (xs ++ [x]) = xs.
Proof.
  unfold but_last. rewrite length_app. cbn.
  replace (length xs + 1 - 1) with (length xs) by lia. by rewrite take_app_length.
Qed.

(** While the pass substitutes, the walk from the root along the names of
    an original chain is where the original walk was, or at a [None]
    child, or on a node the pass allocated. *)
Lemma walk_tracks h table H segs orig cur r :
  pass_invariant h table H →
  tracked (length h) orig cur →
  walk h orig segs = Some r →
  match walk H cur segs with
  | Some r' => tracked (length h) r r'
  | None => True
  end.
Proof.
  intros [Hobj Hclosed]. revert orig cur.
  induction segs as [|name segs IH]; intros orig cur Htr; cbn [walk].
  - by intros [= <-].
  - destruct orig as [pl|]; [|done].
    destruct (module_at h pl) as [m|] eqn:Hm; [|done]. apply module_at_Some in Hm.
    destruct (dict_get name (_modules m)) as [c|] eqn:Hc; [|done].
    intros Hw. destruct Htr as [->|[->|(f & -> & Hf)]]; [| done |].
    + destruct (Hobj pl _ Hm) as (o' & Ho' & m' & -> & _ & Hslots).
      apply module_at_Some in Ho'. rewrite Ho'.
      specialize (Hslots name). rewrite Hc in Hslots.
      destruct Hslots as [->|(new & -> & Hnew & _)].
      * eapply IH; [|done]. by left.
      * eapply IH; [|done]. right; right. by exists new.
    + destruct (module_at H f) as [mf|] eqn:Hmf; [|done]. apply module_at_Some in Hmf.
      destruct (dict_get name (_modules mf)) as [[c'|]|] eqn:Hc'; [| |done].
      * eapply IH; [|done]. right; right. exists c'. split; [done|]. by eapply Hclosed.
      * eapply IH; [|done]. right; by left.
Qed.

(** One turn of the loop of [swap_expanded]: an error with the state as it
    was, or one child entry set. *)
Lemma swap_entry_cases H g lg model K new :
  (∃ e, swap_entry model (K, new) (State H g lg) = (Raise e, State H g lg)) ∨
  (∃ q mq name,
      walk H (Some model) (but_last (split_dots K)) = Some (Some q) ∧
      H !! q = Some (OModule mq) ∧ last (split_dots K) = Some name ∧
      swap_entry model (K, new) (State H g lg) =
      (Ok tt, State (<[q := OModule (set_modules mq (dict_set name (Some new) (_modules mq)))]> H)
                    g lg)).
Proof.
  destruct (split_dots_last K) as [name Hname].
  destruct (walk H (Some model) (but_last (split_dots K))) as [[q|]|] eqn:Hw.
  - destruct (module_at H q) as [mq|] eqn:Hq.
    + apply module_at_Some in Hq. right. exists q, mq, name. split_and!; [done..|].
      by apply swap_entry_run.
    + left. destruct (read_module_fail H g lg q Hq) as [e He]. exists e.
      unfold swap_entry. cbn [fst snd].
      rewrite (bind_ok _ _ _ _ _ (walk_run H g lg _ _ _ Hw)), Hname.
      unfold set_child. by apply bind_raise.
  - left. eexists. unfold swap_entry. cbn [fst snd].
    by rewrite (bind_ok _ _ _ _ _ (walk_run H g lg _ _ _ Hw)), Hname.
  - left. destruct (walk_fail H g lg _ _ Hw) as [e He]. exists e.
    unfold swap_entry. cbn [fst snd]. by apply bind_raise.
Qed.

(** Setting an entry of a node that was there before the pass. *)
Lemma pass_invariant_set_original h table H q m0 mq name (new : loc) :
  pass_invariant h table H →
  h !! q = Some (OModule m0) → H !! q = Some (OModule mq) →
  slot_kept h table (dict_get name (_modules m0)) (Some (Some new)) →
  pass_invariant h table
    (<[q := OModule (set_modules mq (dict_set name (Some new) (_modules mq)))]> H).
Proof.
  intros [Hobj Hclosed] Hq0 Hq Hslot. pose proof (lookup_lt_Some _ _ _ Hq0) as Hlt.
  pose proof (lookup_lt_Some _ _ _ Hq) as HltH. split.
  - intros l o Hl. destruct (decide (l = q)) as [->|Hne].
    + rewrite Hl in Hq0. injection Hq0 as ->.
      rewrite list_lookup_insert_eq by done. eexists. split; [done|].
      destruct (Hobj q _ Hl) as (o' & Ho' & m' & -> & Hm' & Hslots).
      rewrite Hq in Ho'. injection Ho' as ->.
      eexists. split; [done|]. split.
      * rewrite Hm' at 1. by rewrite set_modules_twice.
      * intros k. cbn. destruct (decide (k = name)) as [->|Hk].
        -- by rewrite dict_get_set_eq.
        -- rewrite dict_get_set_ne by done. apply Hslots.
    + rewrite list_lookup_insert_ne by done. by apply Hobj.
  - intros q' m name' c Hq' Hm. rewrite list_lookup_insert_ne in Hm by lia. by eapply Hclosed.
Qed.

(** Setting an entry of a node the pass allocated. *)
Lemma pass_invariant_set_fresh h table H q mq name (new : loc) :
  pass_invariant h table H →
  length h ≤ q → H !! q = Some (OModule mq) → length h ≤ new →
  pass_invariant h table
    (<[q := OModule (set_modules mq (dict_set name (Some new) (_modules mq)))]> H).
Proof.
  intros [Hobj Hclosed] Hge Hq Hnew. pose proof (lookup_lt_Some _ _ _ Hq) as HltH. split.
  - intros l o Hl. pose proof (lookup_lt_Some _ _ _ Hl).
    rewrite list_lookup_insert_ne by lia. by apply Hobj.
  - intros q' m name' c Hq' Hm. destruct (decide (q' = q)) as [->|Hne].
    + rewrite list_lookup_insert_eq in Hm by done. injection Hm as <-. cbn.
      destruct (decide (name' = name)) as [->|Hk].
      * rewrite dict_get_set_eq. by intros [= <-].
      * rewrite dict_get_set_ne by done. by eapply Hclosed.
    + rewrite list_lookup_insert_ne in Hm by done. by eapply Hclosed.
Qed.

Lemma swap_entry_keeps h table model H g lg K (new : loc) r s' :
  well_named h →
  pass_invariant h table H →
  length h ≤ new →
  (∃ u, enumerated h model EmptyString K u ∧ kind_in_table h table u) →
  swap_entry model (K, new) (State H g lg) = (r, s') →
  ∃ H', s' = State H' g lg ∧ pass_invariant h table H'.
Proof.
  intros Hwf Hinv Hnew (u & (segs & -> & Hw & [mu Hu]) & Hkind).
  intros Hrun.
  destruct (swap_entry_cases H g lg model (foldl child_prefix EmptyString segs) new)
    as [[e He]|(q & mq & name & Hwalk & Hq & Hname & He)];
    rewrite He in Hrun; injection Hrun as <- <-.
  { by exists H. }
  eexists. split; [done|].
  pose proof (walk_names h _ _ _ Hwf Hw) as Hgood.
  destruct segs as [|x segs _] using rev_ind.
  - cbn in Hw, Hwalk, Hname. injection Hw as <-. injection Hwalk as <-. injection Hname as <-.
    apply module_at_Some in Hu.
    eapply pass_invariant_set_original; [done..|].
    right. exists new. split_and!; [done..|]. left.
    apply dict_get_None. destruct (Hwf _ mu Hu) as [_ Hnames].
    rewrite Forall_forall in Hnames. intros Hin. by destruct (Hnames _ Hin).
  - change (foldl child_prefix EmptyString (segs ++ [x])) with (path_of (segs ++ [x]))
      in Hwalk, Hname.
    rewrite split_dots_path_of in Hwalk, Hname by (done || by destruct segs).
    rewrite but_last_snoc in Hwalk. rewrite last_snoc in Hname. injection Hname as <-.
    apply walk_snoc in Hw as (p & m & Hp & Hm & Hc).
    pose proof (walk_tracks h table H segs (Some model) (Some model) (Some p) Hinv
                  ltac:(by left) Hp) as Htr.
    rewrite Hwalk in Htr. destruct Htr as [[= ->]|[[=]|(f & [= ->] & Hf)]].
    + eapply pass_invariant_set_original; [done..|].
      right. exists new. split_and!; [done..|]. right. by exists u.
    + by eapply pass_invariant_set_fresh.
Qed.

Lemma swap_loop_keeps h table model mapping H g lg r s' :
  well_named h →
  pass_invariant h table H →
  mapping_of h table model mapping →
  foldlM (λ _ e, swap_entry model e) tt mapping (State H g lg) = (r, s') →
  ∃ H', s' = State H' g lg ∧ pass_invariant h table H'.
Proof.
  intros Hwf. revert H.
  induction mapping as [|[K new] mapping IH]; intros H Hinv Hmap; cbn [foldlM].
  - rewrite ret_run. intros [= <- <-]. by exists H.
  - destruct (swap_entry model (K, new) (State H g lg)) as [r1 s1] eqn:Hrun.
    rewrite (bind_run _ _ _ _ _ Hrun).
    destruct (Hmap K new ltac:(left)) as [Hnew Hentry].
    destruct (swap_entry_keeps h table model H g lg K new r1 s1 Hwf Hinv Hnew Hentry Hrun)
      as (H1 & -> & Hinv1).
    destruct r1 as [[]|e].
    + apply IH; [done|]. intros K' new' Hin. apply Hmap. by right.
    + intros [= <- <-]. by exists H1.
Qed.

(** Whatever its outcome, a pass over a table of constructing conversions
    keeps the invariant, returns the root it was given, and leaves the
    random generator as the conversions left it. *)
Lemma auto_expand_keeps model table s r s' :
  well_named (heap s) → constructing table →
  auto_expand model (Some table) s = (r, s') →
  pass_invariant (heap s) table (heap s') ∧ (∀ out, r = Ok out → out = model).
Proof.
  intros Hwf Htable. unfold auto_expand. cbn [default from_option].
  destruct (build_mapping model table s) as [r1 s1] eqn:Hbuild.
  rewrite (bind_run _ _ _ _ _ Hbuild).
  destruct (build_mapping_sound model table s r1 s1 Hwf Htable Hbuild) as (Hpre & Hclosed & Hmap).
  pose proof (pass_invariant_start _ table _ Hpre Hclosed) as Hinv.
  destruct r1 as [mapping|e]; [|by intros [= <- <-]].
  destruct s1 as [h1 g1 lg1].
  unfold mbind at 1, M_bind at 1, logging_warning at 1. cbn [heap rng log].
  unfold swap_expanded.
  match goal with |- context [State h1 g1 ?l] => generalize l; intros lg2 end.
  destruct (foldlM (λ _ e, swap_entry model e) tt mapping (State h1 g1 lg2)) as [r2 s2] eqn:Hswap.
  destruct (swap_loop_keeps _ table model mapping h1 g1 lg2 r2 s2 Hwf Hinv (Hmap _ eq_refl) Hswap)
    as (H2 & -> & Hinv2).
  unfold mbind, M_bind. rewrite Hswap.
  destruct r2 as [[]|e]; cbn; intros [= <- <-]; split; try done.
  by intros out [= <-].
Qed.

End substitution.

(** ** The conversions only construct *)

Section reading.
Context `{B : Backend}.

Lemma reads_ret {A} (a : A) : reads (mret a : M A).
Proof. by intros s r s' [= <- <-]. Qed.

Lemma reads_raise {A} k msg : reads (raise k msg : M A).
Proof. by intros s r s' [= <- <-]. Qed.

Lemma reads_bind {A C} (m : M A) (k : A → M C) :
  reads m → (∀ a, reads (k a)) → reads (m ≫= k).
Proof.
  intros Hm Hk s r s'. unfold mbind, M_bind.
  destruct (m s) as [[a|e] s1] eqn:Hrun.
  - intros Hrun'. rewrite (Hk a _ _ _ Hrun'). by eapply Hm.
  - intros [= <- <-]. by eapply Hm.
Qed.

Lemma reads_get_state : reads get_state.
Proof. by intros s r s' [= <- <-]. Qed.

Lemma reads_read l : reads (read l).
Proof. intros s r s'. unfold read. by destruct (heap s !! l); intros [= <- <-]. Qed.

Lemma reads_isinstance l C : reads (isinstance l C).
Proof. by intros s r s' [= <- <-]. Qed.

Lemma reads_tensor_mean x : reads (tensor_mean x).
Proof. by intros s r s' [= <- <-]. Qed.

Lemma reads_torch_rand shape : reads (torch_rand shape).
Proof.
  intros s r s'. unfold torch_rand. by destruct (rand_floats _ _); intros [= <- <-].
Qed.

Lemma reads_init_data shape : reads (init_data shape).
Proof.
  intros s r s'. unfold init_data. by destruct (init_floats _ _); intros [= <- <-].
Qed.

Lemma reads_mapM {A C} (f : A → M C) xs : (∀ x, reads (f x)) → reads (mapM f xs).
Proof.
  intros Hf. induction xs as [|x xs IH]; cbn.
  - apply reads_ret.
  - apply reads_bind; [done|]. intros y. apply reads_bind; [done|]. intros ys. apply reads_ret.
Qed.

Lemma reads_foldlM {A C} (f : C → A → M C) c xs :
  (∀ c x, x ∈ xs → reads (f c x)) → reads (foldlM f c xs).
Proof.
  revert c. induction xs as [|x xs IH]; intros c Hf; cbn.
  - apply reads_ret.
  - apply reads_bind; [apply Hf; left|]. intros c'. apply IH. intros c0 x0 ?. apply Hf. by right.
Qed.

End reading.

Create HintDb reads.

#[local] Hint Resolve reads_ret reads_raise reads_get_state reads_read reads_isinstance
  reads_tensor_mean reads_torch_rand reads_init_data : reads.

Ltac reads_step :=
  first
    [ solve [auto with reads]
    | apply reads_bind; [|intros ?]
    | apply reads_mapM; intros ?
    | match goal with
      | |- reads (match ?x with _ => _ end) => destruct x
      end ].

Ltac reads_tac := repeat reads_step.

Section reading_torch.
Context `{B : Backend}.

Lemma reads_read_module l : reads (read_module l).
Proof. unfold read_module. reads_tac. Qed.

Lemma reads_read_tensor l : reads (read_tensor l).
Proof. unfold read_tensor. reads_tac. Qed.

Lemma reads_read_storage l : reads (read_storage l).
Proof. unfold read_storage. reads_tac. Qed.

Hint Resolve reads_read_module reads_read_tensor reads_read_storage : reads.

Lemma reads_tensor_value l : reads (tensor_value l).
Proof. unfold tensor_value. reads_tac. Qed.

Lemma reads_getattr l name : reads (getattr l name).
Proof. unfold getattr. reads_tac. Qed.

Lemma reads_getattr_default l name : reads (getattr_default l name).
Proof. unfold getattr_default. reads_tac. Qed.

Lemma reads_getitem v i : reads (getitem v i).
Proof. unfold getitem. reads_tac. Qed.

Lemma reads_as_int v : reads (as_int v).
Proof. unfold as_int. reads_tac. Qed.

Lemma reads_as_size v : reads (as_size v).
Proof. unfold as_size. reads_tac. Qed.

Hint Resolve reads_tensor_value reads_getattr reads_getattr_default reads_getitem
  reads_as_int reads_as_size : reads.

Lemma reads_as_ints vs : reads (as_ints vs).
Proof. induction vs; cbn; reads_tac. Qed.

Hint Resolve reads_as_ints : reads.

Lemma reads_as_int_tuple v : reads (as_int_tuple v).
Proof. unfold as_int_tuple. reads_tac. Qed.

Hint Resolve reads_as_int_tuple : reads.

Lemma reads_conv_forward kernel l x : reads (conv_forward kernel l x).
Proof. unfold conv_forward. reads_tac. Qed.

Lemma reads_check_expansion conv1d conv2d : reads (check_expansion conv1d conv2d).
Proof.
  unfold check_expansion, Conv1d_call, Conv2d_call.
  pose proof reads_conv_forward. reads_tac.
Qed.

Lemma reads_for_range n body : reads body → reads (for_range n body).
Proof. intros Hbody. induction n; cbn; reads_tac. Qed.

Lemma reads_save_entries pre es dest : reads (save_entries pre es dest).
Proof.
  revert dest. induction es as [|[name [l|]] es IH]; intros dest; cbn; reads_tac.
Qed.

Hint Resolve reads_save_entries : reads.

Lemma reads_state_dict_go fuel l pre dest : reads (state_dict_go fuel l pre dest).
Proof.
  revert l pre dest. induction fuel as [|fuel IH]; intros l pre dest; cbn [state_dict_go].
  - reads_tac.
  - reads_tac. apply reads_foldlM. intros d c _. reads_tac.
Qed.

Lemma reads_state_dict l : reads (state_dict l).
Proof. unfold state_dict. pose proof reads_state_dict_go. reads_tac. Qed.

End reading_torch.

#[local] Hint Resolve reads_read_module reads_read_tensor reads_read_storage
  reads_tensor_value reads_getattr reads_getattr_default reads_getitem
  reads_as_int reads_as_size reads_as_ints reads_as_int_tuple
  reads_conv_forward reads_check_expansion reads_for_range reads_save_entries
  reads_state_dict : reads.

Section keeping.
Context `{B : Backend}.
Variables (h : list obj) (P : obj → Prop).

Lemma keeps_ret {A} (Q : A → Prop) (a : A) : Q a → keeps h P Q (mret a : M A).
Proof. intros Ha s r s' Hs [= <- <-]. split; [done|]. by intros a' [= <-]. Qed.

Lemma keeps_raise {A} (Q : A → Prop) k msg : keeps h P Q (raise k msg : M A).
Proof. intros s r s' Hs [= <- <-]. split; [done|]. by intros a' [=]. Qed.

Lemma keeps_bind {A C} (Q : A → Prop) (Q' : C → Prop) (m : M A) (k : A → M C) :
  keeps h P Q m → (∀ a, Q a → keeps h P Q' (k a)) → keeps h P Q' (m ≫= k).
Proof.
  intros Hm Hk s r s' Hs. unfold mbind, M_bind.
  destruct (m s) as [[a|e] s1] eqn:Hrun; destruct (Hm _ _ _ Hs Hrun) as [Hs1 Ha].
  - intros Hrun'. by eapply (Hk a (Ha a eq_refl)).
  - intros [= <- <-]. split; [done|]. by intros c [=].
Qed.

Lemma keeps_weaken {A} (Q Q' : A → Prop) (m : M A) :
  keeps h P Q m → (∀ a, Q a → Q' a) → keeps h P Q' m.
Proof.
  intros Hm HQ s r s' Hs Hrun. destruct (Hm _ _ _ Hs Hrun) as [Hs' Ha].
  split; [done|]. intros a Hr. by apply HQ, Ha.
Qed.

Lemma keeps_reads {A} (m : M A) : reads m → keeps h P (λ _, True) m.
Proof. intros Hm s r s' Hs Hrun. by rewrite (Hm _ _ _ Hrun). Qed.

Lemma keeps_alloc o : P o → keeps h P (λ l, length h ≤ l) (alloc o).
Proof.
  intros Ho s r s' [Hpre Hnew] [= <- <-]. cbn [heap].
  pose proof (prefix_length _ _ Hpre). split; [split|].
  - by apply prefix_app_r.
  - intros q o' Hq Hlook. apply lookup_app_Some in Hlook as [Hlook|[_ Hlook]].
    + by eapply Hnew.
    + apply list_lookup_singleton_Some in Hlook as [_ <-]. done.
  - by intros l [= <-].
Qed.

Lemma keeps_write (l : loc) o : length h ≤ l → P o → keeps h P (λ _, True) (write l o).
Proof.
  intros Hl Ho s r s' [Hpre Hnew] [= <- <-]. cbn [heap]. split; [split|done].
  - destruct Hpre as [k ->]. rewrite insert_app_r_alt by done. by apply prefix_app_r.
  - intros q o' Hq Hlook. destruct (decide (q = l)) as [->|Hne].
    + apply list_lookup_insert_Some in Hlook as [(_ & <- & _)|[? _]]; [done|congruence].
    + rewrite list_lookup_insert_ne in Hlook by done. by eapply Hnew.
Qed.

(** Reading an object the computation added. *)
Lemma keeps_read_added (l : loc) : length h ≤ l → keeps h P P (read l).
Proof.
  intros Hl s r s' Hs. unfold read. destruct (heap s !! l) as [o|] eqn:Ho; intros [= <- <-].
  - split; [done|]. intros a [= <-]. destruct Hs as [_ Hnew]. by eapply Hnew.
  - split; [done|]. by intros a [=].
Qed.

Lemma keeps_read_module_added (l : loc) :
  length h ≤ l → keeps h P (λ m, P (OModule m)) (read_module l).
Proof.
  intros Hl. unfold read_module. eapply keeps_bind; [by apply keeps_read_added|].
  intros [d|t|m] Ho; [apply keeps_raise..|by apply keeps_ret].
Qed.

Lemma keeps_read_tensor_added (l : loc) :
  length h ≤ l → keeps h P (λ t, P (OTensor t)) (read_tensor l).
Proof.
  intros Hl. unfold read_tensor. eapply keeps_bind; [by apply keeps_read_added|].
  intros [d|t|m] Ho; [apply keeps_raise|by apply keeps_ret|apply keeps_raise].
Qed.

Lemma keeps_new_tensor param shape d :
  P (OStorage d) →
  (∀ st, length h ≤ st → P (OTensor (Tensor param shape st))) →
  keeps h P (λ l, length h ≤ l) (new_tensor param shape d).
Proof.
  intros Hd Ht. unfold new_tensor. eapply keeps_bind; [by apply keeps_alloc|].
  intros st Hst. apply keeps_alloc. by apply Ht.
Qed.

Lemma keeps_foldlM {A C} (f : C → A → M C) (Q : C → Prop) c xs :
  Q c → (∀ c x, x ∈ xs → Q c → keeps h P Q (f c x)) → keeps h P Q (foldlM f c xs).
Proof.
  revert c. induction xs as [|x xs IH]; intros c Hc Hf; cbn.
  - by apply keeps_ret.
  - eapply keeps_bind; [apply Hf; [left|done]|].
    intros c' Hc'. apply IH; [done|]. intros c0 x0 ? ?. apply Hf; [by right|done].
Qed.

(** From the frame condition to [constructs]. *)
Lemma keeps_heap {A} (Q : A → Prop) (m : M A) s r s' :
  heap s = h → keeps h P Q m → m s = (r, s') →
  extends_with h P (heap s') ∧ ∀ a, r = Ok a → Q a.
Proof.
  intros Hs Hm Hrun. apply (Hm s r s'); [|done]. rewrite Hs. split; [done|].
  intros q o Hq Ho. apply lookup_lt_Some in Ho. lia.
Qed.

End keeping.

Section conversions_construct.
Context `{B : Backend}.

Lemma constructs_of_keeps (P : list obj → obj → Prop) (f : expander) :
  (∀ h o, P h o → childless o) →
  (∀ h l, keeps h (P h) (λ r, ∀ new, r = Some new → length h ≤ new) (f l)) →
  constructs f.
Proof.
  intros Hchildless Hf l s r s' Hrun.
  destruct (keeps_heap (heap s) (P (heap s)) _ (f l) s r s' eq_refl (Hf _ l) Hrun)
    as [[Hpre Hnew] Hres].
  split_and!; [done| |].
  - intros q m name c Hq Hm Hc. apply Hnew in Hm; [|done].
    apply Hchildless in Hm. cbn in Hm. by rewrite Hm in Hc.
  - intros new ->. by apply (Hres _ eq_refl).
Qed.

End conversions_construct.

Ltac keeps_reading :=
  repeat (eapply keeps_bind; [apply keeps_reads; solve [reads_tac] | intros ? _]).

Section dict_membership.
Context {V : Type}.
Implicit Types d : list (string * V).

Lemma dict_mem_set k k' v d : dict_mem k d = true → dict_mem k (dict_set k' v d) = true.
Proof.
  unfold dict_mem. intros Hk. apply bool_decide_eq_true in Hk. apply bool_decide_eq_true.
  destruct (decide (k' = k)) as [->|Hne].
  - by rewrite dict_get_set_eq.
  - by rewrite dict_get_set_ne.
Qed.

Lemma dict_mem_set_eq k v d : dict_mem k (dict_set k v d) = true.
Proof. unfold dict_mem. apply bool_decide_eq_true. by rewrite dict_get_set_eq. Qed.

End dict_membership.

Section conv_constructs.
Context `{B : Backend}.
Variable h : list obj.

Lemma keeps_Conv2d in_channels out_channels kernel_size stride padding dilation groups padding_mode :
  keeps h conv_built (λ l, length h ≤ l)
    (Conv2d in_channels out_channels kernel_size stride padding dilation groups padding_mode).
Proof.
  unfold Conv2d. keeps_reading.
  eapply keeps_bind; [by apply keeps_new_tensor|]. intros w Hw.
  keeps_reading.
  eapply keeps_bind; [by apply keeps_new_tensor|]. intros b Hb.
  by apply keeps_alloc.
Qed.

Lemma keeps_Parameter_of_unsqueezed t :
  keeps h conv_built (λ l, length h ≤ l) (Parameter_of_unsqueezed t).
Proof. unfold Parameter_of_unsqueezed. keeps_reading. by apply keeps_alloc. Qed.

(** Assigning [weight] or [bias] of a module the conversion built: both
    names are registered parameters, so the value is registered as a
    parameter or refused, and the module gets no child. *)
Lemma keeps_module_setattr_conv (l : loc) name v :
  length h ≤ l → name = "weight" ∨ name = "bias" →
  keeps h conv_built (λ _, True) (module_setattr l name v).
Proof.
  intros Hl Hname. unfold module_setattr.
  eapply keeps_bind; [by apply keeps_read_module_added|]. intros m (Hmods & Hw & Hb).
  keeps_reading.
  assert (Hmem : dict_mem name (_parameters m) = true) by (by destruct Hname as [-> | ->]).
  match goal with |- context [is_parameter ?H v] => destruct (is_parameter H v) end.
  - destruct v; try apply keeps_raise. apply keeps_write; [done|].
    cbn. rewrite Hmods. split_and!; [done|by apply dict_mem_set..].
  - rewrite Hmem. destruct v; try apply keeps_raise. apply keeps_write; [done|].
    cbn. split_and!; [done|by apply dict_mem_set..].
Qed.

Lemma keeps_expand_Conv1D conv1d :
  keeps h conv_built (λ r, ∀ new, r = Some new → length h ≤ new) (expand_Conv1D conv1d).
Proof.
  unfold expand_Conv1D. keeps_reading.
  match goal with |- context [negb ?b] => destruct (negb b) end.
  { apply keeps_ret. by intros new [=]. }
  keeps_reading.
  eapply keeps_bind; [apply keeps_Conv2d|]. intros conv2d Hconv2d.
  keeps_reading.
  eapply keeps_bind; [apply keeps_module_setattr_conv; auto|]. intros _ _.
  keeps_reading.
  eapply (keeps_bind _ _ (λ l, length h ≤ l)).
  { match goal with |- context [match ?w with _ => _ end] => destruct w end;
      try apply keeps_raise. apply keeps_Parameter_of_unsqueezed. }
  intros w Hw.
  eapply keeps_bind; [apply keeps_module_setattr_conv; auto|]. intros _ _.
  keeps_reading.
  apply keeps_ret. by intros new [= <-].
Qed.

End conv_constructs.

Section norm_constructs.
Context `{B : Backend}.
Variable h : list obj.

Notation built := (norm_built (length h)).

Lemma keeps_norm_tensor param shape d :
  keeps h built (λ l, length h ≤ l) (new_tensor param shape d).
Proof. by apply keeps_new_tensor. Qed.

Lemma keeps_BatchNorm2d num_features eps momentum affine track_running_stats :
  keeps h built (λ l, length h ≤ l)
    (BatchNorm2d num_features eps momentum affine track_running_stats).
Proof.
  unfold BatchNorm2d.
  eapply (keeps_bind _ _ (λ ps, ∀ name p, (name, Some p) ∈ ps → length h ≤ p)).
  { destruct (truthy affine).
    - keeps_reading.
      eapply keeps_bind; [apply keeps_norm_tensor|]. intros w Hw.
      eapply keeps_bind; [apply keeps_norm_tensor|]. intros b Hb.
      apply keeps_ret. intros name p Hin. set_solver.
    - apply keeps_ret. intros name p Hin. set_solver. }
  intros params Hparams.
  eapply (keeps_bind _ _ (λ bs, ∀ name p, (name, Some p) ∈ bs → length h ≤ p)).
  { destruct (truthy track_running_stats).
    - keeps_reading.
      eapply keeps_bind; [apply keeps_norm_tensor|]. intros rm Hrm.
      eapply keeps_bind; [apply keeps_norm_tensor|]. intros rv Hrv.
      eapply keeps_bind; [apply keeps_norm_tensor|]. intros nb Hnb.
      apply keeps_ret. intros name p Hin. set_solver.
    - apply keeps_ret. intros name p Hin. set_solver. }
  intros buffers Hbuffers.
  apply keeps_alloc. cbn. split; [done|].
  intros name p [Hin|Hin]%elem_of_app; eauto.
Qed.

Lemma local_state_elem_of m name p :
  (name, p) ∈ local_state m → (name, Some p) ∈ _parameters m ++ _buffers m.
Proof.
  unfold local_state. intros ([k [q|]] & Hin & Heq)%list_elem_of_omap; [|done].
  cbn in Heq. by injection Heq as <- <-.
Qed.

Lemma keeps_load_entry sd pre r e :
  length h ≤ e.2 → keeps h built (λ _, True) (load_entry sd pre r e).
Proof.
  intros He. unfold load_entry.
  destruct (dict_get _ sd) as [input|]; [|by apply keeps_ret].
  eapply keeps_bind; [by apply keeps_read_tensor_added|]. intros param Hparam.
  keeps_reading.
  match goal with |- context [let '(_, _) := ?x in _] => destruct x as [ishape idata] end.
  destruct (decide _); [|by apply keeps_ret].
  eapply keeps_bind; [by apply keeps_write|]. intros _ _. by apply keeps_ret.
Qed.

Lemma keeps_load_from_state_dict (l : loc) sd pre r :
  length h ≤ l → keeps h built (λ _, True) (load_from_state_dict l sd pre r).
Proof.
  intros Hl. unfold load_from_state_dict.
  eapply keeps_bind; [by apply keeps_read_module_added|]. intros m [_ Hm].
  eapply keeps_bind.
  { apply (keeps_foldlM _ _ _ (λ _, True)); [done|]. intros r' [name p] Hin _.
    apply keeps_load_entry. cbn. eapply Hm. by apply local_state_elem_of. }
  intros r1 _. by apply keeps_ret.
Qed.

Lemma keeps_load_go fuel (l : loc) sd pre r :
  length h ≤ l → keeps h built (λ _, True) (load_go fuel l sd pre r).
Proof.
  intros Hl. destruct fuel as [|fuel]; cbn [load_go]; [apply keeps_raise|].
  eapply keeps_bind; [by apply keeps_load_from_state_dict|]. intros r1 _.
  eapply keeps_bind; [by apply keeps_read_module_added|]. intros m [Hm _].
  rewrite Hm. by apply keeps_ret.
Qed.

Lemma keeps_load_state_dict (l : loc) sd :
  length h ≤ l → keeps h built (λ _, True) (load_state_dict l sd).
Proof.
  intros Hl. unfold load_state_dict. keeps_reading.
  eapply keeps_bind; [by apply keeps_load_go|]. intros r _.
  destruct (bool_decide _); [by apply keeps_ret | apply keeps_raise].
Qed.

Lemma keeps_expand_BatchNorm1d bn1d :
  keeps h built (λ r, ∀ new, r = Some new → length h ≤ new) (expand_BatchNorm1d bn1d).
Proof.
  unfold expand_BatchNorm1d. keeps_reading.
  match goal with |- context [negb ?b] => destruct (negb b) end.
  { apply keeps_ret. by intros new [=]. }
  keeps_reading.
  eapply keeps_bind; [apply keeps_BatchNorm2d|]. intros mod' Hmod.
  keeps_reading.
  eapply keeps_bind; [by apply keeps_load_state_dict|]. intros _ _.
  apply keeps_ret. by intros new [= <-].
Qed.

End norm_constructs.

Section pool_constructs.
Context `{B : Backend}.
Variable h : list obj.

Lemma keeps_AdaptiveAvgPool2d args :
  keeps h childless (λ l, length h ≤ l) (AdaptiveAvgPool2d args).
Proof.
  unfold AdaptiveAvgPool2d. destruct args as [|a [|b args]]; try apply keeps_raise.
  by apply keeps_alloc.
Qed.

Lemma keeps_AvgPool2d args :
  keeps h childless (λ l, length h ≤ l) (AvgPool2d args).
Proof.
  unfold AvgPool2d. destruct args as [|a rest]; [apply keeps_raise|].
  destruct (decide _); [apply keeps_raise|]. by apply keeps_alloc.
Qed.

Lemma keeps_simple_expand P BaseT DestT l :
  (∀ args, keeps h P (λ l, length h ≤ l) (DestT args)) →
  keeps h P (λ r, ∀ new, r = Some new → length h ≤ new) (simple_expand BaseT DestT l).
Proof.
  intros HDest. unfold simple_expand. keeps_reading.
  match goal with |- context [negb ?b] => destruct (negb b) end.
  { apply keeps_ret. by intros new [=]. }
  keeps_reading.
  eapply keeps_bind; [apply HDest|]. intros out Hout.
  apply keeps_ret. by intros new [= <-].
Qed.

End pool_constructs.

Section default_table.
Context `{B : Backend}.

Lemma conv_built_childless o : conv_built o → childless o.
Proof. destruct o; cbn; naive_solver. Qed.

Lemma norm_built_childless n o : norm_built n o → childless o.
Proof. destruct o; cbn; naive_solver. Qed.

Lemma expand_Conv1D_constructs : constructs expand_Conv1D.
Proof.
  apply (constructs_of_keeps (λ _, conv_built)).
  - intros _ o. apply conv_built_childless.
  - intros h l. apply keeps_expand_Conv1D.
Qed.

Lemma expand_BatchNorm1d_constructs : constructs expand_BatchNorm1d.
Proof.
  apply (constructs_of_keeps (λ h, norm_built (length h))).
  - intros h o. apply norm_built_childless.
  - intros h l. apply keeps_expand_BatchNorm1d.
Qed.

Lemma simple_expand_constructs BaseT DestT :
  (∀ h args, keeps h childless (λ l, length h ≤ l) (DestT args)) →
  constructs (simple_expand BaseT DestT).
Proof.
  intros HDest. apply (constructs_of_keeps (λ _, childless)); [done|].
  intros h l. by apply keeps_simple_expand.
Qed.

(** Every conversion of the default table only constructs. *)
Lemma default_expansions_constructing : constructing default_expansions.
Proof.
  intros k f. unfold default_expansions.
  rewrite !lookup_insert_Some, lookup_empty.
  intros [[_ <-]|[_ [[_ <-]|[_ [[_ <-]|[_ [[_ <-]|[_ [=]]]]]]]]].
  - apply expand_Conv1D_constructs.
  - apply expand_BatchNorm1d_constructs.
  - apply simple_expand_constructs. intros h args. apply keeps_AdaptiveAvgPool2d.
  - apply simple_expand_constructs. intros h args. apply keeps_AvgPool2d.
Qed.

End default_table.

(** ** [auto_expand] *)

Section pass.
Context `{B : Backend}.

Lemma well_named_check h : Forall named_well h → well_named h.
Proof.
  intros Hall l m Hl. rewrite Forall_forall in Hall.
  apply (Hall (OModule m)). by eapply list_elem_of_lookup_2.
Qed.

Lemma auto_expand_default model expansions :
  auto_expand model expansions =
  auto_expand model (Some (default default_expansions expansions)).
Proof. by destruct expansions. Qed.

Lemma build_loop_app table mapping xs ys s :
  foldlM (expand_entry table) mapping (xs ++ ys) s =
  match foldlM (expand_entry table) mapping xs s with
  | (Ok mapping', s') => foldlM (expand_entry table) mapping' ys s'
  | (Raise e, s') => (Raise e, s')
  end.
Proof.
  revert mapping s. induction xs as [|x xs IH]; intros mapping s; cbn [foldlM app]; [done|].
  destruct (expand_entry table mapping x s) as [[mapping1|e] s1] eqn:Hx;
    rewrite !(bind_run _ _ _ _ _ Hx); [apply IH|done].
Qed.



(** C6, amended.  Every key of the mapping a pass builds (over a table of
    constructing conversions, on a hierarchy with well-formed child names)
    is the dotted path from the root of a node whose kind is a key of the
    table, and its replacement is a node the pass allocated.  The key is
    the empty path exactly when the chain of names is empty, that is for
    the root itself.  A key that is not empty splits at its dots into that
    chain, and in the hierarchy as it is when substitution starts the
    names before the last lead to an existing parent whose child of the
    last name is the node to replace. *)
Theorem auto_expand_mapping_keys_are_paths model expansions s mapping s1 K new :
  well_named (heap s) →
  constructing (default default_expansions expansions) →
  build_mapping model (default default_expansions expansions) s = (Ok mapping, s1) →
  (K, new) ∈ mapping →
  ∃ segs u,
    K = path_of segs ∧
    walk (heap s) (Some model) segs = Some (Some u) ∧
    kind_in_table (heap s) (default default_expansions expansions) u ∧
    length (heap s) ≤ new ∧
    (K = EmptyString ↔ segs = []) ∧
    (segs ≠ [] →
     split_dots K = segs ∧
     ∃ p mp name,
       walk (heap s1) (Some model) (but_last (split_dots K)) = Some (Some p) ∧
       heap s1 !! p = Some (OModule mp) ∧
       last (split_dots K) = Some name ∧
       dict_get name (_modules mp) = Some (Some u)).
Proof.
  intros Hwf Htable Hbuild Hin.
  destruct (build_mapping_sound model _ s _ s1 Hwf Htable Hbuild) as (Hpre & _ & Hmap).
  destruct (Hmap mapping eq_refl K new Hin) as (Hnew & u & (segs & -> & Hw & _) & Hkind).
  pose proof (walk_names _ _ _ _ Hwf Hw) as Hgood.
  exists segs, u. split_and!; [done..| |].
  - split; [|by intros ->].
    intros He. destruct segs as [|x segs]; [done|].
    by destruct (path_of_nonempty (x :: segs)).
  - intros Hne. change (foldl child_prefix EmptyString segs) with (path_of segs).
    rewrite split_dots_path_of by done. split; [done|].
    destruct segs as [|x segs _] using rev_ind; [done|].
    apply walk_snoc in Hw as (p & mp & Hp & Hmp & Hc).
    exists p, mp, x. rewrite but_last_snoc, last_snoc. split_and!; [|  |done..].
    + by eapply walk_prefix.
    + by eapply prefix_lookup_Some.
Qed.

End pass.

Lemma example_model_well_named : well_named example_model_heap.
Proof. apply well_named_check. apply (bool_decide_unpack _). by vm_compute. Qed.



Lemma auto_expand_mapping_keys_are_paths_witness :
  let s := toy_state example_model_heap in
  let s1 := (build_mapping 0 default_expansions s).2 in
  build_mapping 0 default_expansions s = (Ok [("pool", 6); ("body.pool", 7)], s1) ∧
  ∃ segs u,
    "body.pool" = path_of segs ∧
    walk (heap s) (Some 0) segs = Some (Some u) ∧
    kind_in_table (B := toy_backend) (heap s) default_expansions u ∧
    length (heap s) ≤ 7 ∧
    ("body.pool" = EmptyString ↔ segs = []) ∧
    (segs ≠ [] →
     split_dots "body.pool" = segs ∧
     ∃ p mp name,
       walk (heap s1) (Some 0) (but_last (split_dots "body.pool")) = Some (Some p) ∧
       heap s1 !! p = Some (OModule mp) ∧
       last (split_dots "body.pool") = Some name ∧
       dict_get name (_modules mp) = Some (Some u)).
Proof.
  intros s s1.
  assert (Hrun : build_mapping 0 default_expansions s =
                 (Ok [("pool", 6); ("body.pool", 7)], s1)) by (by vm_compute).
  split; [exact Hrun|].
  apply (auto_expand_mapping_keys_are_paths (B := toy_backend) 0 None s
           [("pool", 6); ("body.pool", 7)] s1 "body.pool" 7).
  - apply example_model_well_named.
  - apply default_expansions_constructing.
  - exact Hrun.
  - right. left.
Defined.

(** C6 as stated fails.  With the default table and a root that is itself
    an [nn.AdaptiveAvgPool1d], the mapping has the empty key, which names
    the root: substitution then gives the root a child of the empty name
    and the root stays what it was.  With a table that converts every
    [Block], in [Net(a=Block(m=Seq(b=Block())))] the key "a.m.b" no longer
    resolves once "a" has been replaced: its substitution raises
    [KeyError] and leaves the hierarchy with "a" replaced. *)
Lemma auto_expand_mapping_may_name_root_or_miss_parent :
  (let s := toy_state [OModule example_adaptive_pool] in
   ∃ s1, build_mapping 0 default_expansions s = (Ok [("", 1)], s1) ∧
         ∃ root, heap (auto_expand 0 None s).2 !! 0 = Some (OModule root) ∧
                 _modules root = [("", Some 1)]) ∧
  (let s := toy_state example_nested_heap in
   ∃ s1 s2 s3,
     build_mapping 0 example_table s = (Ok [("a", 4); ("a.m.b", 5)], s1) ∧
     swap_entry 0 ("a", 4) s1 = (Ok tt, s2) ∧
     walk (heap s2) (Some 0) (but_last (split_dots "a.m.b")) = None ∧
     auto_expand 0 (Some example_table) s = (Raise (Exn KeyError "m"), s3) ∧
     heap s3 = heap s2 ∧
     ∃ root, heap s3 !! 0 = Some (OModule root) ∧ _modules root = [("a", Some 4)]).
Proof.
  split.
  - eexists. split; [by vm_compute|]. eexists. split; by vm_compute.
  - eexists _, _, _. split_and!; [by vm_compute..|]. eexists. split; by vm_compute.
Qed.

(** ** [run_injected]: what is forwarded *)

Section forwarded.
Implicit Types (sig params : list parameter) (kw acc : list (string * value)).

Lemma NoDup_names_inj sig p q :
  NoDup (p_name <$> sig) → p ∈ sig → q ∈ sig → p_name p = p_name q → p = q.
Proof.
  induction sig as [|x sig IH]; cbn; [by intros _ ?%elem_of_nil|].
  intros [Hx Hsig]%NoDup_cons [->|Hp]%elem_of_cons [->|Hq]%elem_of_cons Heq; auto.
  - destruct Hx. rewrite Heq. apply list_elem_of_fmap. by exists q.
  - destruct Hx. rewrite <- Heq. apply list_elem_of_fmap. by exists p.
Qed.

Lemma dict_del_keys {V} k (d : list (string * V)) key :
  key ∈ (dict_del k d).*1 → key ∈ d.*1.
Proof.
  induction d as [|[k0 v0] d IH]; cbn; [done|].
  destruct (decide (k0 = k)); cbn; set_solver.
Qed.

Lemma dict_update_keys {V} (d upd : list (string * V)) key :
  key ∈ (dict_update d upd).*1 → key ∈ d.*1 ∨ key ∈ upd.*1.
Proof.
  unfold dict_update. revert d. induction upd as [|[k v] upd IH]; intros d; cbn; [by left|].
  intros [Hin|Hin]%IH; [|set_solver]. apply dict_set_keys in Hin. set_solver.
Qed.

(** A name that only variadic-keyword parameters carry is not bound by the
    positional loop of [_bind]. *)
Lemma bind_positional_keeps params args kw acc A rest name :
  bind_positional params args kw acc = Ok (A, rest) →
  (∀ p, p ∈ params → p_name p = name → p_kind p = VAR_KEYWORD) →
  rest ⊆ params ∧ dict_get name A = dict_get name acc.
Proof.
  revert params acc. induction args as [|v args IH]; intros params acc.
  - destruct params as [|p params]; cbn [bind_positional]; [by intros [= <- <-] _|].
    destruct (decide (p_kind p = VAR_POSITIONAL)).
    { intros [= <- <-] _. split; [set_solver|done]. }
    destruct (dict_mem (p_name p) kw).
    { destruct (decide (p_kind p = POSITIONAL_ONLY)); [done|]. by intros [= <- <-] _. }
    destruct (decide (p_kind p = VAR_KEYWORD ∨ is_Some (p_default p))); [|done].
    by intros [= <- <-] _.
  - destruct params as [|p params]; cbn [bind_positional]; [done|].
    destruct (decide (p_kind p = VAR_KEYWORD ∨ p_kind p = KEYWORD_ONLY)) as [|Hk]; [done|].
    destruct (decide (p_kind p = VAR_POSITIONAL)) as [Hvp|Hvp].
    { intros [= <- <-] Hname. split; [set_solver|].
      apply dict_get_set_ne. intros Heq.
      specialize (Hname p ltac:(left) Heq). congruence. }
    destruct (dict_mem (p_name p) kw && negb (bool_decide (p_kind p = POSITIONAL_ONLY)));
      [done|].
    intros Hrun Hname. apply IH in Hrun as [Hrest Hget].
    + split; [set_solver|]. rewrite Hget. apply dict_get_set_ne. intros Heq.
      specialize (Hname p ltac:(left) Heq). tauto.
    + intros q Hq. apply Hname. by right.
Qed.

(** Nor by the loop over the named arguments, which only takes names away
    from them and remembers a variadic-keyword parameter of the list. *)
Lemma bind_keywords_keeps params kw acc kp0 A kw' kp name :
  bind_keywords params kw acc kp0 = Ok (A, kw', kp) →
  (∀ p, p ∈ params → p_name p = name → p_kind p = VAR_KEYWORD) →
  (∀ key, key ∈ kw'.*1 → key ∈ kw.*1) ∧
  (kp = kp0 ∨ ∃ p, p ∈ params ∧ kp = Some p ∧ p_kind p = VAR_KEYWORD) ∧
  dict_get name A = dict_get name acc.
Proof.
  revert kw acc kp0. induction params as [|p params IH]; intros kw acc kp0; cbn [bind_keywords].
  - intros [= <- <- <-] _. split_and!; [done|by left|done].
  - destruct (decide (p_kind p = VAR_KEYWORD)) as [Hvk|Hvk].
    { intros Hrun Hname. apply IH in Hrun as (Hk & Hkp & Hget); [|set_solver].
      split_and!; [done| |done]. destruct Hkp as [->|(q & Hq & -> & Hkind)].
      - right. exists p. split_and!; [left|done..].
      - right. exists q. split_and!; [by right|done..]. }
    destruct (decide (p_kind p = VAR_POSITIONAL)).
    { intros Hrun Hname. apply IH in Hrun as (Hk & Hkp & Hget); [|set_solver].
      split_and!; [done| |done]. destruct Hkp as [->|(q & Hq & -> & Hkind)]; [by left|].
      right. exists q. split_and!; [by right|done..]. }
    destruct (dict_get (p_name p) kw) as [arg_val|].
    + destruct (decide (p_kind p = POSITIONAL_ONLY)); [done|].
      intros Hrun Hname. apply IH in Hrun as (Hk & Hkp & Hget); [|set_solver].
      split_and!.
      * intros key Hin. eapply dict_del_keys. by eapply Hk.
      * destruct Hkp as [->|(q & Hq & -> & Hkind)]; [by left|].
        right. exists q. split_and!; [by right|done..].
      * rewrite Hget. apply dict_get_set_ne. intros Heq.
        by specialize (Hname p ltac:(left) Heq).
    + destruct (decide (is_Some (p_default p))); [|done].
      intros Hrun Hname. apply IH in Hrun as (Hk & Hkp & Hget); [|set_solver].
      split_and!; [done| |done]. destruct Hkp as [->|(q & Hq & -> & Hkind)]; [by left|].
      right. exists q. split_and!; [by right|done..].
Qed.

(** The dictionary bound to a variadic-keyword parameter holds only
    leftover named arguments. *)
Lemma signature_bind_variadic sig args kw A p v :
  NoDup (p_name <$> sig) →
  signature_bind sig args kw = Ok A →
  p ∈ sig → p_kind p = VAR_KEYWORD →
  dict_get (p_name p) A = Some v →
  ∃ kvs, v = VDict kvs ∧ ∀ key, key ∈ kvs.*1 → key ∈ kw.*1.
Proof.
  intros Hnodup Hrun Hp Hkind. unfold signature_bind in Hrun.
  destruct (bind_positional sig args kw []) as [[A1 rest]|e] eqn:Hpos; [|done].
  assert (Hname : ∀ q, q ∈ sig → p_name q = p_name p → p_kind q = VAR_KEYWORD).
  { intros q Hq Heq. by rewrite (NoDup_names_inj sig q p Hnodup Hq Hp Heq). }
  destruct (bind_positional_keeps _ _ _ _ _ _ (p_name p) Hpos Hname) as [Hrest Hget1].
  destruct (bind_keywords rest kw A1 None) as [[[A2 kw'] kp]|e] eqn:Hkw; [|done].
  destruct (bind_keywords_keeps _ _ _ _ _ _ _ (p_name p) Hkw) as (Hkeys & Hkp & Hget2).
  { intros q Hq. apply Hname. by apply Hrest. }
  destruct kw' as [|kv kw'].
  - injection Hrun as <-. by rewrite Hget2, Hget1.
  - destruct kp as [kp|]; [|done]. injection Hrun as <-.
    destruct (decide (p_name kp = p_name p)) as [Heq|Hne].
    + rewrite Heq, dict_get_set_eq. intros [= <-]. eauto.
    + rewrite dict_get_set_ne by done. by rewrite Hget2, Hget1.
Qed.

Lemma apply_defaults_get sig A name v :
  dict_get name (apply_defaults sig A) = Some v →
  ∃ q, q ∈ sig ∧ p_name q = name ∧
       (dict_get name A = Some v ∨ p_default q = Some v ∨
        (v = VTuple [] ∧ p_kind q = VAR_POSITIONAL) ∨ (v = VDict [] ∧ p_kind q = VAR_KEYWORD)).
Proof.
  induction sig as [|q sig IH]; cbn; [done|].
  assert (Hrest : dict_get name (apply_defaults sig A) = Some v →
                  ∃ q0, q0 ∈ q :: sig ∧ p_name q0 = name ∧
                        (dict_get name A = Some v ∨ p_default q0 = Some v ∨
                         (v = VTuple [] ∧ p_kind q0 = VAR_POSITIONAL) ∨
                         (v = VDict [] ∧ p_kind q0 = VAR_KEYWORD))).
  { intros (q0 & Hq0 & Hrest)%IH. exists q0. split; [by right|done]. }
  destruct (dict_get (p_name q) A) as [w|] eqn:Hw; cbn.
  { destruct (decide (p_name q = name)) as [<-|]; [|done].
    intros [= <-]. exists q. split_and!; [left|done|by left]. }
  destruct (p_default q) as [d|] eqn:Hd; cbn.
  { destruct (decide (p_name q = name)) as [<-|]; [|done].
    intros [= <-]. exists q. split_and!; [left|done|right; by left]. }
  destruct (p_kind q) eqn:Hk; cbn; try done.
  - destruct (decide (p_name q = name)) as [<-|]; [|done].
    intros [= <-]. exists q. split_and!; [left|done|]. right; right; by left.
  - destruct (decide (p_name q = name)) as [<-|]; [|done].
    intros [= <-]. exists q. split_and!; [left|done|]. right; right; by right.
Qed.

Lemma bound_kwargs_keys (D : string → Prop) sig bound started acc :
  (∀ p, p ∈ sig → D (p_name p)) →
  (∀ p v, p ∈ sig → p_kind p = VAR_KEYWORD → dict_get (p_name p) bound = Some v →
          ∃ kvs, v = VDict kvs ∧ ∀ key, key ∈ kvs.*1 → D key) →
  (∀ key, key ∈ acc.*1 → D key) →
  ∀ key, key ∈ (bound_kwargs sig bound started acc).*1 → D key.
Proof.
  revert started acc. induction sig as [|p sig IH]; intros started acc Hsig Hvk Hacc;
    cbn [bound_kwargs]; [done|].
  assert (Htaken : ∀ key,
    key ∈ (match dict_get (p_name p) bound with
           | None => acc
           | Some arg =>
               if decide (p_kind p = VAR_KEYWORD)
               then match arg with VDict kvs => dict_update acc kvs | _ => acc end
               else dict_set (p_name p) arg acc
           end).*1 → D key).
  { destruct (dict_get (p_name p) bound) as [arg|] eqn:Harg; [|done].
    destruct (decide (p_kind p = VAR_KEYWORD)) as [Hk|Hk].
    - destruct (Hvk p arg ltac:(left) Hk Harg) as (kvs & -> & Hkvs).
      intros key [?|?]%dict_update_keys; auto.
    - intros key [->|?]%dict_set_keys; [apply Hsig; left|auto]. }
  assert (Hsig' : ∀ q, q ∈ sig → D (p_name q)) by (intros q ?; apply Hsig; by right).
  assert (Hvk' : ∀ q v, q ∈ sig → p_kind q = VAR_KEYWORD → dict_get (p_name q) bound = Some v →
                        ∃ kvs, v = VDict kvs ∧ ∀ key, key ∈ kvs.*1 → D key).
  { intros q v ?. apply Hvk. by right. }
  destruct started; [by apply IH|].
  destruct (decide (p_kind p = VAR_KEYWORD ∨ p_kind p = KEYWORD_ONLY)); [by apply IH|].
  destruct (dict_mem (p_name p) bound); by apply IH.
Qed.

Lemma out_kwargs_declared fn kwargs key :
  key ∈ (out_kwargs fn kwargs).*1 → key ∈ p_name <$> fn_signature fn.
Proof.
  unfold out_kwargs. intros ([k v] & -> & Hin)%list_elem_of_fmap.
  apply list_elem_of_In, filter_In in Hin as [_ Hk].
  apply bool_decide_eq_true in Hk. unfold fn_arg_names in Hk. cbn in *.
  by apply elem_of_list_to_set in Hk.
Qed.

Lemma out_kwargs_supplied fn kwargs kv : kv ∈ out_kwargs fn kwargs → kv ∈ kwargs.
Proof.
  unfold out_kwargs. intros Hin. apply list_elem_of_In, filter_In in Hin as [Hin _].
  by apply list_elem_of_In.
Qed.

Lemma out_kwargs_idemp fn kwargs : out_kwargs fn (out_kwargs fn kwargs) = out_kwargs fn kwargs.
Proof.
  unfold out_kwargs. induction kwargs as [|kv kwargs IH]; cbn; [done|].
  destruct (bool_decide _) eqn:Hk; cbn; [|done]. by rewrite Hk, IH.
Qed.


End forwarded.


(** * Further properties of [export_utils] *)

(** ** What the conversions leave alone *)

Section conversions_frame.
Context `{B : Backend}.


(** The node [expand_BatchNorm1d] returns shares nothing with its source:
    it was allocated by the call, it has no child, every parameter and
    buffer it holds was allocated by the call, and each of those tensors is
    over a storage allocated by the call. *)
Theorem expand_BatchNorm1d_result_is_independent (bn1d : loc) (s : state) new s' :
  expand_BatchNorm1d bn1d s = (Ok (Some new), s') →
  length (heap s) ≤ new ∧
  ∀ m, heap s' !! new = Some (OModule m) →
       _modules m = [] ∧
       ∀ name p, (name, Some p) ∈ _parameters m ++ _buffers m →
                 length (heap s) ≤ p ∧
                 ∀ t, heap s' !! p = Some (OTensor t) → length (heap s) ≤ t_storage t.
Proof.
  intros Hrun.
  destruct (keeps_heap (heap s) (norm_built (length (heap s))) _ _ s _ s' eq_refl
              (keeps_expand_BatchNorm1d (heap s) bn1d) Hrun) as [[_ Hnew] Hres].
  pose proof (Hres _ eq_refl new eq_refl) as Hge. split; [done|].
  intros m Hm. destruct (Hnew new _ Hge Hm) as [Hmods Hps]. split; [done|].
  intros name p Hin. pose proof (Hps name p Hin) as Hp. split; [done|].
  intros t Ht. exact (Hnew p _ Hp Ht).
Qed.

End conversions_frame.

Lemma expand_BatchNorm1d_result_is_independent_witness :
  let s := toy_state example_bn_heap in
  let s' := (expand_BatchNorm1d 10 s).2 in
  expand_BatchNorm1d 10 s = (Ok (Some 21), s') ∧
  length (heap s) ≤ 21 ∧
  ∀ m, heap s' !! 21 = Some (OModule m) →
       _modules m = [] ∧
       ∀ name p, (name, Some p) ∈ _parameters m ++ _buffers m →
                 length (heap s) ≤ p ∧
                 ∀ t, heap s' !! p = Some (OTensor t) → length (heap s) ≤ t_storage t.
Proof.
  intros s s'.
  assert (Hrun : expand_BatchNorm1d 10 s = (Ok (Some 21), s')) by (by vm_compute).
  split; [exact Hrun|].
  exact (expand_BatchNorm1d_result_is_independent (B := toy_backend) 10 s 21 s' Hrun).
Defined.

(** ** [swap_expanded]: frame, errors, composition, order *)

Section swap_more.
Context `{B : Backend}.

Lemma entries_set_refl o : entries_set o o.
Proof.
  destruct o as [d|t|m]; cbn; [done..|]. exists (_modules m).
  split; [by rewrite set_modules_id|done].
Qed.

Lemma same_but_children_refl h : same_but_children h h.
Proof. split; [done|]. intros l o Hl. exists o. split; [done|apply entries_set_refl]. Qed.

Lemma same_but_children_trans h1 h2 h3 :
  same_but_children h1 h2 → same_but_children h2 h3 → same_but_children h1 h3.
Proof.
  intros [Hlen12 H12] [Hlen23 H23]. split; [congruence|].
  intros l o Hl. destruct (H12 l o Hl) as (o2 & Hl2 & Ho2).
  destruct (H23 l o2 Hl2) as (o3 & Hl3 & Ho3). exists o3. split; [done|].
  destruct o as [d|t|m]; cbn in *.
  - by subst.
  - by subst.
  - destruct Ho2 as (cs2 & -> & Hcs2). cbn in Ho3. destruct Ho3 as (cs3 & -> & Hcs3).
    exists cs3. split; [done|]. intros name Hname. apply Hcs3. cbn. by apply Hcs2.
Qed.

Lemma same_but_children_set h (q : loc) mq name (new_mod : loc) :
  h !! q = Some (OModule mq) →
  same_but_children h
    (<[q := OModule (set_modules mq (dict_set name (Some new_mod) (_modules mq)))]> h).
Proof.
  intros Hq. split; [apply length_insert|].
  intros l o Hl. destruct (decide (l = q)) as [->|Hne].
  - rewrite list_lookup_insert_eq by (by eapply lookup_lt_Some).
    eexists. split; [done|]. assert (Some o = Some (OModule mq)) as [= ->] by (rewrite <- Hl; exact Hq). cbn.
    eexists. split; [done|]. intros k Hk. by apply dict_mem_set.
  - rewrite list_lookup_insert_ne by done. exists o. split; [done|apply entries_set_refl].
Qed.

Lemma swap_loop_frame model mapping h g lg r s' :
  foldlM (λ _ e, swap_entry model e) tt mapping (State h g lg) = (r, s') →
  ∃ h', s' = State h' g lg ∧ same_but_children h h'.
Proof.
  revert h. induction mapping as [|[K new_mod] mapping IH]; intros h; cbn [foldlM].
  - rewrite ret_run. intros [= <- <-]. exists h. split; [done|apply same_but_children_refl].
  - destruct (swap_entry_cases h g lg model K new_mod)
      as [[e He]|(q & mq & name & _ & Hq & _ & He)].
    + rewrite (bind_raise _ _ _ _ _ He). intros [= <- <-]. exists h.
      split; [done|apply same_but_children_refl].
    + rewrite (bind_ok _ _ _ _ _ He). intros Hrest.
      apply IH in Hrest as (h' & -> & Hh'). exists h'. split; [done|].
      eapply same_but_children_trans; [|exact Hh']. by apply same_but_children_set.
Qed.

(** Whatever the mapping and whether it returns or raises, [swap_expanded]
    allocates nothing, leaves the random generator and the log alone,
    leaves every object that is not a module as it is, and changes of a
    module at most its child table, from which it removes no name. *)
Theorem swap_expanded_only_sets_child_entries model mapping (s : state) :
  same_but_children (heap s) (heap (swap_expanded model mapping s).2) ∧
  rng (swap_expanded model mapping s).2 = rng s ∧
  log (swap_expanded model mapping s).2 = log s.
Proof.
  destruct s as [h g lg]. unfold swap_expanded.
  destruct (foldlM (λ _ e, swap_entry model e) tt mapping (State h g lg)) as [r s'] eqn:Hrun.
  destruct (swap_loop_frame _ _ _ _ _ _ _ Hrun) as (h' & -> & Hh').
  rewrite (bind_run _ _ _ _ _ Hrun). by destruct r as [[]|e].
Qed.

Lemma swap_loop_app model m1 m2 (s : state) :
  foldlM (λ _ e, swap_entry model e) tt (m1 ++ m2) s =
  match foldlM (λ _ e, swap_entry model e) tt m1 s with
  | (Ok _, s1) => foldlM (λ _ e, swap_entry model e) tt m2 s1
  | (Raise e, s1) => (Raise e, s1)
  end.
Proof.
  revert s. induction m1 as [|e m1 IH]; intros s; cbn [foldlM app]; [done|].
  destruct (swap_entry model e s) as [[[]|e'] s1] eqn:He;
    rewrite !(bind_run _ _ _ _ _ He); [apply IH|done].
Qed.

(** Substituting a mapping in two parts, one call after the other, is
    substituting the whole mapping in one call; an error in the first part
    is the error of the whole, in the same state. *)
Theorem swap_expanded_in_two_calls model m1 m2 (s : state) :
  swap_expanded model (m1 ++ m2) s =
  match swap_expanded model m1 s with
  | (Ok root, s1) => swap_expanded root m2 s1
  | (Raise e, s1) => (Raise e, s1)
  end.
Proof.
  unfold swap_expanded.
  destruct (foldlM (λ _ e, swap_entry model e) tt m1 s) as [[[]|e] s1] eqn:H1.
  - rewrite (bind_ok _ _ _ _ _ H1), ret_run.
    unfold mbind, M_bind. by rewrite swap_loop_app, H1.
  - rewrite (bind_raise _ _ _ _ _ H1). apply bind_raise. by rewrite swap_loop_app, H1.
Qed.

(** An entry whose path does not lead to a module (a name on the way is
    missing, or the way goes through a [None] child or through something
    that is no module) makes [swap_expanded] raise: the entries before it
    stay substituted, the entry and those after it are not. *)
Theorem swap_expanded_stops_at_unresolved_path
    model before path (new_mod : loc) after (s s1 : state) :
  swap_expanded model before s = (Ok model, s1) →
  (∀ p m, walk (heap s1) (Some model) (but_last (split_dots path)) = Some (Some p) →
          heap s1 !! p ≠ Some (OModule m)) →
  ∃ e, swap_expanded model (before ++ (path, new_mod) :: after) s = (Raise e, s1).
Proof.
  intros Hbefore Hpath.
  assert (Hloop : foldlM (λ _ e, swap_entry model e) tt before s = (Ok tt, s1)).
  { unfold swap_expanded in Hbefore.
    apply bind_inv_ok in Hbefore as ([] & s0 & Hloop & [= <-]). exact Hloop. }
  assert (Hgoal : ∀ e, swap_entry model (path, new_mod) s1 = (Raise e, s1) →
            swap_expanded model (before ++ (path, new_mod) :: after) s = (Raise e, s1)).
  { intros e He. unfold swap_expanded. apply bind_raise.
    rewrite swap_loop_app, Hloop. cbn [foldlM]. by apply bind_raise. }
  destruct s1 as [h1 g1 lg1].
  destruct (swap_entry_cases h1 g1 lg1 model path new_mod)
    as [[e He]|(q & mq & name & Hwalk & Hq & _ & _)].
  - exists e. by apply Hgoal.
  - by destruct (Hpath q mq Hwalk).
Qed.

Lemma dict_set_keys_order {V} k (v : V) (d : list (string * V)) :
  (dict_set k v d).*1 = if dict_mem k d then d.*1 else d.*1 ++ [k].
Proof.
  unfold dict_mem. induction d as [|[k0 v0] d IH]; cbn; [done|].
  destruct (decide (k0 = k)) as [->|Hne]; cbn; [done|].
  rewrite IH. by destruct (bool_decide (is_Some (dict_get k d))).
Qed.

Lemma dict_set_absent {V} k (v : V) (d : list (string * V)) :
  dict_mem k d = false → dict_set k v d = d ++ [(k, v)].
Proof.
  unfold dict_mem. induction d as [|[k0 v0] d IH]; cbn; [done|].
  destruct (decide (k0 = k)) as [->|Hne]; cbn; [done|].
  intros Hd. by rewrite IH.
Qed.

(** Substitution keeps the order of the children: where the parent has a
    child of the last name, the names of its children are the same list
    after the substitution; where it has none, no error is raised and the
    replacement becomes a new last child. *)
Theorem swap_expanded_keeps_child_order h g lg model path (new_mod : loc) p m :
  walk h (Some model) (but_last (split_dots path)) = Some (Some p) →
  h !! p = Some (OModule m) →
  ∃ name m' h',
    last (split_dots path) = Some name ∧
    swap_expanded model [(path, new_mod)] (State h g lg) = (Ok model, State h' g lg) ∧
    h' !! p = Some (OModule m') ∧
    (_modules m').*1 = (if dict_mem name (_modules m) then (_modules m).*1
                        else (_modules m).*1 ++ [name]) ∧
    (dict_mem name (_modules m) = false →
     _modules m' = _modules m ++ [(name, Some new_mod)]).
Proof.
  intros Hw Hp. destruct (split_dots_last path) as [name Hl].
  pose proof (swap_entry_run h g lg model path new_mod p m name Hw Hp Hl) as Hrun.
  exists name, (set_modules m (dict_set name (Some new_mod) (_modules m))),
         (<[p := OModule (set_modules m (dict_set name (Some new_mod) (_modules m)))]> h).
  split_and!.
  - done.
  - by rewrite swap_expanded_cons, Hrun.
  - apply list_lookup_insert_eq. by eapply lookup_lt_Some.
  - apply dict_set_keys_order.
  - apply dict_set_absent.
Qed.

End swap_more.

Lemma swap_expanded_stops_at_unresolved_path_witness :
  ∃ s1 e,
    swap_expanded 0 [("z", 6)] (toy_state example_tree_heap) = (Ok 0, s1) ∧
    swap_expanded 0 ([("z", 6)] ++ ("a.x.c", 6) :: [("a", 6)]) (toy_state example_tree_heap)
      = (Raise e, s1).
Proof.
  exists (swap_expanded 0 [("z", 6)] (toy_state example_tree_heap)).2.
  assert (Hbefore : swap_expanded 0 [("z", 6)] (toy_state example_tree_heap) =
                    (Ok 0, (swap_expanded 0 [("z", 6)] (toy_state example_tree_heap)).2))
    by (by vm_compute).
  destruct (swap_expanded_stops_at_unresolved_path (B := toy_backend) 0 [("z", 6)] "a.x.c" 6
              [("a", 6)] _ _ Hbefore) as [e He].
  { intros p m Hwalk. by vm_compute in Hwalk. }
  exists e. split; [exact Hbefore|exact He].
Defined.

Lemma swap_expanded_keeps_child_order_witness :
  ∃ m' h',
    swap_expanded 0 [("a.b.e", 6)] (toy_state example_tree_heap) = (Ok 0, toy_state h') ∧
    h' !! 2 = Some (OModule m') ∧
    _modules m' = [("c", Some 3); ("d", Some 5); ("e", Some 6)].
Proof.
  destruct (swap_expanded_keeps_child_order (B := toy_backend) example_tree_heap 0 [] 0
              "a.b.e" 6 2 (container "Block" [("c", Some 3); ("d", Some 5)]) eq_refl eq_refl)
    as (name & m' & h' & Hname & Hrun & Hp & _ & Hnew).
  vm_compute in Hname. injection Hname as <-.
  exists m', h'. exact (conj Hrun (conj Hp (Hnew eq_refl))).
Defined.

(** ** [auto_expand]: nothing to convert, and replacements that are false *)

Section pass_more.
Context `{B : Backend}.

Lemma build_loop_no_match table nm mapping (s : state) :
  (∀ K u, (K, u) ∈ nm →
          ∃ m, heap s !! u = Some (OModule m) ∧ table !! type_name m = None) →
  foldlM (expand_entry table) mapping nm s = (Ok mapping, s).
Proof.
  induction nm as [|[K u] nm IH]; intros Hnm; cbn [foldlM]; [done|].
  destruct (Hnm K u ltac:(left)) as (m & Hu & Hkind).
  assert (Hstep : expand_entry table mapping (K, u) s = (Ok mapping, s)).
  { destruct s as [h g lg]. unfold expand_entry. cbn [fst snd].
    rewrite (bind_ok _ _ _ _ _ (read_module_run h g lg u m Hu)). cbv zeta.
    by destruct (table !! type_name m). }
  rewrite (bind_ok _ _ _ _ _ Hstep). apply IH. intros K' u' Hin. apply (Hnm K' u'). by right.
Qed.

(** On a hierarchy none of whose nodes has a kind of the table (so with an
    empty table on any hierarchy), [auto_expand] returns the root it was
    given, leaves heap and random generator as they are, and logs
    "Swapped 0 modules". *)
Theorem auto_expand_without_a_match model expansions (s : state) nm :
  named_modules model s = (Ok nm, s) →
  (∀ K u, (K, u) ∈ nm →
          ∃ m, heap s !! u = Some (OModule m) ∧
               default default_expansions expansions !! type_name m = None) →
  auto_expand model expansions s =
  (Ok model, State (heap s) (rng s) (log s ++ ["Swapped 0 modules"])).
Proof.
  intros Hnm Hkinds. rewrite auto_expand_default.
  assert (Hbuild : build_mapping model (default default_expansions expansions) s = (Ok [], s)).
  { unfold build_mapping. rewrite (bind_ok _ _ _ _ _ Hnm). by apply build_loop_no_match. }
  unfold auto_expand. cbn [default from_option].
  by rewrite (bind_ok _ _ _ _ _ Hbuild).
Qed.

(** A conversion whose result is false as a truth value (a container with
    [__len__] that has no child, such as an empty [nn.Sequential]) is
    treated like no result: the mapping gets no entry for the node. *)
Theorem expand_entry_skips_false_replacement
    table mapping K (u : loc) (s : state) m (f : expander) (new : loc) s1 mn :
  heap s !! u = Some (OModule m) →
  table !! type_name m = Some f →
  f u s = (Ok (Some new), s1) →
  heap s1 !! new = Some (OModule mn) →
  expand_entry table mapping (K, u) s =
  (Ok (if m_sized mn && bool_decide (length (_modules mn) = 0) then mapping
       else dict_set K new mapping), s1).
Proof.
  intros Hu Hf Hrun Hnew. destruct s as [h g lg]. unfold expand_entry. cbn [fst snd].
  rewrite (bind_ok _ _ _ _ _ (read_module_run h g lg u m Hu)). cbv zeta.
  destruct (table !! type_name m) as [f'|] eqn:Hf'; [|done]. injection Hf as ->.
  rewrite (bind_ok _ _ _ _ _ Hrun).
  unfold swapped_truthy, get_state. unfold mbind at 1 2, M_bind at 1 2. rewrite ret_run.
  rewrite Hnew. unfold module_truthy. by destruct (m_sized mn), (bool_decide _).
Qed.

End pass_more.

Lemma auto_expand_without_a_match_witness :
  auto_expand 0 None (toy_state example_tree_heap) =
  (Ok 0, @State toy_backend example_tree_heap 0 ["Swapped 0 modules"]).
Proof.
  apply (auto_expand_without_a_match (B := toy_backend) 0 None (toy_state example_tree_heap)
           [("", 0); ("a", 1); ("a.b", 2); ("a.b.c", 3); ("a.b.d", 5); ("z", 4)]).
  - by vm_compute.
  - intros K u Hin.
    repeat (apply elem_of_cons in Hin as [[= -> ->]|Hin];
            [eexists; split; [reflexivity|by vm_compute]|]).
    by apply elem_of_nil in Hin.
Defined.

Lemma expand_entry_skips_false_replacement_witness :
  ∃ s1,
    expand_entry {["ReLU" := to_empty_sequential]} [("x", 9)] ("act", 0)
      (toy_state [OModule example_relu]) = (Ok [("x", 9)], s1) ∧
    heap s1 = [OModule example_relu; OModule empty_sequential].
Proof.
  exists (@State toy_backend [OModule example_relu; OModule empty_sequential] 0 []).
  split; [|reflexivity].
  exact (expand_entry_skips_false_replacement (B := toy_backend)
           {["ReLU" := to_empty_sequential]} [("x", 9)] "act" 0
           (toy_state [OModule example_relu]) example_relu to_empty_sequential 1
           (@State toy_backend [OModule example_relu; OModule empty_sequential] 0 [])
           empty_sequential eq_refl eq_refl eq_refl eq_refl).
Defined.

(** ** [simple_expand] on a node of the source kind *)

Section simple_expand_match.
Context `{B : Backend}.

Lemma getattr_default_all (l : loc) m names (s : state) :
  heap s !! l = Some (OModule m) →
  mapM (getattr_default l) names s =
  (Ok ((λ name, default VNone (module_getattr m name)) <$> names), s).
Proof.
  intros Hl. destruct s as [h g lg]. cbn [heap] in Hl.
  induction names as [|name names IH]; [done|].
  cbn [mapM fmap list_fmap].
  assert (Hone : getattr_default l name (State h g lg) =
                 (Ok (default VNone (module_getattr m name)), State h g lg)).
  { unfold getattr_default. by rewrite (bind_ok _ _ _ _ _ (read_module_run h g lg l m Hl)). }
  rewrite (bind_ok _ _ _ _ _ Hone). fold (mapM (getattr_default l) names).
  by rewrite (bind_ok _ _ _ _ _ IH).
Qed.

Lemma isinstance_run (l : loc) C m (s : state) :
  heap s !! l = Some (OModule m) → C = m_class m ∨ C ∈ m_bases m →
  isinstance l C s = (Ok true, s).
Proof.
  intros Hl HC. unfold isinstance. rewrite Hl. cbn [isinstance_obj].
  by rewrite bool_decide_eq_true_2.
Qed.

(** On a node of the source kind, [simple_expand(BaseT, DestT)] calls
    [DestT] with the values of the node's [__constants__], in their order
    and as positional arguments, a constant the node has no attribute for
    being passed as [None]; what [DestT] returns is the replacement, what
    it raises is raised.  A node whose class declares no [__constants__]
    raises [AttributeError], with the state as it was. *)
Theorem simple_expand_calls_DestT_with_the_constants
    BaseT (DestT : list value → M loc) (l : loc) (s : state) m :
  heap s !! l = Some (OModule m) →
  BaseT = m_class m ∨ BaseT ∈ m_bases m →
  simple_expand BaseT DestT l s =
  match m_constants m with
  | None => (Raise (Exn AttributeError "__constants__"), s)
  | Some names =>
      match DestT ((λ name, default VNone (module_getattr m name)) <$> names) s with
      | (Ok out, s') => (Ok (Some out), s')
      | (Raise e, s') => (Raise e, s')
      end
  end.
Proof.
  intros Hl Hclass. unfold simple_expand.
  rewrite (bind_ok _ _ _ _ _ (isinstance_run l BaseT m s Hl Hclass)). cbn [negb].
  assert (Hread : read_module l s = (Ok m, s)).
  { destruct s as [h g lg]. by apply read_module_run. }
  rewrite (bind_ok _ _ _ _ _ Hread).
  destruct (m_constants m) as [names|]; [|done].
  rewrite (bind_ok _ _ _ _ _ (ret_run names s)).
  rewrite (bind_ok _ _ _ _ _ (getattr_default_all l m names s Hl)).
  destruct (DestT _ s) as [[out|e] s'] eqn:Hdest.
  - by rewrite (bind_ok _ _ _ _ _ Hdest).
  - by rewrite (bind_raise _ _ _ _ _ Hdest).
Qed.

(** The default rule for [nn.AvgPool1d]: the replacement is a new
    [nn.AvgPool2d] whose kernel size, padding, ceil mode and
    count-include-pad flag are the source's attribute values as they are
    (not paired with 1, as the convolution's are), whose stride is the
    source's stride or, where that is [None], its kernel size, and whose
    divisor override is [None]; nothing else changes. *)
Theorem AvgPool1d_rule_copies_the_constants (l : loc) (s : state) m :
  heap s !! l = Some (OModule m) →
  nn_AvgPool1d = m_class m ∨ nn_AvgPool1d ∈ m_bases m →
  m_constants m = Some ["kernel_size"; "stride"; "padding"; "ceil_mode"; "count_include_pad"] →
  ∃ m2,
    simple_expand nn_AvgPool1d AvgPool2d l s =
      (Ok (Some (length (heap s))), State (heap s ++ [OModule m2]) (rng s) (log s)) ∧
    m_class m2 = nn_AvgPool2d ∧ _modules m2 = [] ∧
    (∀ name, name ∈ ["kernel_size"; "padding"; "ceil_mode"; "count_include_pad"] →
             module_getattr m2 name = Some (default VNone (module_getattr m name))) ∧
    module_getattr m2 "stride" =
      Some (let stride := default VNone (module_getattr m "stride") in
            match stride with
            | VNone => default VNone (module_getattr m "kernel_size")
            | _ => stride
            end) ∧
    module_getattr m2 "divisor_override" = Some VNone.
Proof.
  intros Hl Hclass Hconst. unfold simple_expand.
  rewrite (bind_ok _ _ _ _ _ (isinstance_run l nn_AvgPool1d m s Hl Hclass)). cbn [negb].
  assert (Hread : read_module l s = (Ok m, s)).
  { destruct s as [h g lg]. by apply read_module_run. }
  rewrite (bind_ok _ _ _ _ _ Hread), Hconst.
  rewrite (bind_ok _ _ _ _ _ (ret_run _ s)).
  rewrite (bind_ok _ _ _ _ _ (getattr_default_all l m _ s Hl)).
  cbn [fmap list_fmap].
  eexists. split; [reflexivity|]. split; [reflexivity|]. split; [reflexivity|].
  split; [|split; reflexivity].
  intros name Hin. repeat (apply elem_of_cons in Hin as [->|Hin]; [reflexivity|]).
  by apply elem_of_nil in Hin.
Qed.

End simple_expand_match.

Lemma simple_expand_calls_DestT_with_the_constants_witness :
  let s := toy_state [OModule example_adaptive_pool] in
  heap s !! 0 = Some (OModule example_adaptive_pool) ∧
  (nn_AdaptiveAvgPool1d = m_class example_adaptive_pool ∨
   nn_AdaptiveAvgPool1d ∈ m_bases example_adaptive_pool) ∧
  simple_expand nn_AdaptiveAvgPool1d AdaptiveAvgPool2d 0 s =
    (Ok (Some 1),
     State [OModule example_adaptive_pool;
            pool_module nn_AdaptiveAvgPool2d nn_AdaptiveAvgPoolNd ["output_size"]
              [("output_size", VInt 1)]] (rng s) (log s)).
Proof.
  cbv zeta. split; [reflexivity|]. split; [by left|].
  by rewrite (simple_expand_calls_DestT_with_the_constants (B := toy_backend)
        nn_AdaptiveAvgPool1d AdaptiveAvgPool2d 0
        (toy_state [OModule example_adaptive_pool]) example_adaptive_pool
        eq_refl (or_introl eq_refl)).
Defined.

Lemma AvgPool1d_rule_copies_the_constants_witness :
  let s := toy_state [OModule example_avg_pool] in
  heap s !! 0 = Some (OModule example_avg_pool) ∧
  (nn_AvgPool1d = m_class example_avg_pool ∨ nn_AvgPool1d ∈ m_bases example_avg_pool) ∧
  m_constants example_avg_pool =
    Some ["kernel_size"; "stride"; "padding"; "ceil_mode"; "count_include_pad"] ∧
  ∃ m2,
    simple_expand nn_AvgPool1d AvgPool2d 0 s =
      (Ok (Some 1), State (heap s ++ [OModule m2]) (rng s) (log s)) ∧
    module_getattr m2 "kernel_size" = Some (VTuple [VInt 2]) ∧
    module_getattr m2 "stride" = Some (VTuple [VInt 2]) ∧
    module_getattr m2 "divisor_override" = Some VNone.
Proof.
  cbv zeta. split; [reflexivity|]. split; [by left|]. split; [reflexivity|].
  destruct (AvgPool1d_rule_copies_the_constants (B := toy_backend) 0
              (toy_state [OModule example_avg_pool]) example_avg_pool
              eq_refl (or_introl eq_refl) eq_refl)
    as (m2 & Hrun & _ & _ & Hcopy & Hstride & Hdiv).
  exists m2. split; [exact Hrun|]. split; [|split; [exact Hstride|exact Hdiv]].
  apply (Hcopy "kernel_size"). by left.
Defined.

(** ** [swap_expanded] on entries that do not interfere *)

Section independent_entries.
Context `{B : Backend}.
Implicit Types (h H : list obj) (l p model : loc).

(** A walk that finds the entries it looks up as they were goes as it did. *)
Lemma walk_agrees h H segs parent r :
  (∀ a name m, (a, name) ∈ walk_slots h parent segs → h !! a = Some (OModule m) →
     ∃ m', H !! a = Some (OModule m') ∧
           dict_get name (_modules m') = dict_get name (_modules m)) →
  walk h parent segs = Some r → walk H parent segs = Some r.
Proof.
  revert parent. induction segs as [|name segs IH]; intros parent Hag; [done|].
  cbn [walk walk_slots] in *. destruct parent as [pl|]; [|done].
  destruct (module_at h pl) as [m|] eqn:Hm; [|done].
  apply module_at_Some in Hm.
  destruct (Hag pl name m) as (m' & Hm' & Hget); [by left|done|].
  apply module_at_Some in Hm'. rewrite Hm', Hget.
  destruct (dict_get name (_modules m)) as [c|]; [|done].
  apply IH. intros a name' ma Hin Ha. apply (Hag a name' ma); [by right|done].
Qed.

Lemma slot_of_Some h model K p name :
  slot_of h model K = Some (p, name) →
  walk h (Some model) (but_last (split_dots K)) = Some (Some p) ∧
  last (split_dots K) = Some name ∧ ∃ m, h !! p = Some (OModule m).
Proof.
  unfold slot_of. destruct (walk _ _ _) as [[p'|]|]; [|done..].
  destruct (last _) as [name'|]; [|done].
  destruct (module_at h p') as [m|] eqn:Hm; [|done].
  intros [= -> ->]. apply module_at_Some in Hm. eauto.
Qed.

Lemma substituted_step h model done H K new p name m' :
  substituted h model done H →
  slot_of h model K = Some (p, name) →
  H !! p = Some (OModule m') →
  substituted h model (done ++ [(K, new)])
    (<[p := OModule (set_modules m' (dict_set name (Some new) (_modules m')))]> H).
Proof.
  intros [Hkeep Hset] Hslot Hp. split.
  - intros l m name' Hl. destruct (Hkeep l m name' Hl) as (ml & Hml & Hsame).
    destruct (decide (l = p)) as [->|Hne].
    + assert (ml = m') as -> by congruence.
      eexists. split; [apply list_lookup_insert_eq; by eapply lookup_lt_Some|].
      intros Hfree. cbn [_modules set_modules].
      assert (name ≠ name') as Hn.
      { intros ->. apply (Hfree (K, new)); [|done]. apply elem_of_app. right. by left. }
      rewrite (dict_get_set_ne _ _ _ _ Hn). apply Hsame.
      intros e He. apply Hfree. apply elem_of_app. by left.
    + exists ml. split; [by rewrite list_lookup_insert_ne|].
      intros Hfree. apply Hsame. intros e He. apply Hfree. apply elem_of_app. by left.
  - intros i K0 new0 p0 name0 Hi Hslot0 Hlater.
    destruct (decide (i < length done)) as [Hlt|Hge].
    + rewrite lookup_app_l in Hi by done.
      destruct (Hset i K0 new0 p0 name0 Hi Hslot0) as (m0 & Hm0 & Hget).
      { intros j e Hij Hj. apply (Hlater j e Hij).
        rewrite lookup_app_l; [done|]. by eapply lookup_lt_Some. }
      assert (Hdiff : (p, name) ≠ (p0, name0)).
      { intros Heq. apply (Hlater (length done) (K, new)); [done| |cbn [fst]; by rewrite Hslot, Heq].
        by rewrite list_lookup_middle. }
      destruct (decide (p0 = p)) as [->|Hne].
      * assert (m0 = m') as -> by congruence.
        eexists. split; [apply list_lookup_insert_eq; by eapply lookup_lt_Some|].
        cbn [_modules set_modules]. rewrite dict_get_set_ne; [done|]. congruence.
      * exists m0. split; [by rewrite list_lookup_insert_ne|done].
    + assert (i = length done) as ->.
      { apply lookup_lt_Some in Hi. rewrite length_app in Hi. cbn in Hi. lia. }
      rewrite list_lookup_middle in Hi by done. injection Hi as <- <-.
      assert (p0 = p ∧ name0 = name) as [-> ->] by (split; congruence).
      eexists. split; [apply list_lookup_insert_eq; by eapply lookup_lt_Some|].
      cbn [_modules set_modules]. apply dict_get_set_eq.
Qed.

Lemma swap_loop_independent h g lg model rest : ∀ done H,
  substituted h model done H →
  (∀ e e' sl, e ∈ done → e' ∈ rest → slot_of h model e.1 = Some sl →
              sl ∉ walk_slots h (Some model) (but_last (split_dots e'.1))) →
  independent h model rest →
  ∃ h', swap_expanded model rest (State H g lg) = (Ok model, State h' g lg) ∧
        substituted h model (done ++ rest) h'.
Proof.
  induction rest as [|[K new] rest IH]; intros done H Hsub Hfree Hind.
  - exists H. rewrite app_nil_r. done.
  - cbn [independent fst] in Hind. destruct Hind as [Hslot Hind].
    destruct (slot_of h model K) as [[p name]|] eqn:HK; [|done].
    destruct (slot_of_Some _ _ _ _ _ HK) as (Hwalk & Hlast & m & Hm).
    destruct Hsub as [Hkeep Hset].
    assert (HwalkH : walk H (Some model) (but_last (split_dots K)) = Some (Some p)).
    { apply (walk_agrees h); [|done]. intros a name' ma Hin Ha.
      destruct (Hkeep a ma name' Ha) as (ma' & Hma' & Hsame). exists ma'. split; [done|].
      apply Hsame. intros e He Hsl.
      apply (Hfree e (K, new) (a, name') He); [by left|done|done]. }
    destruct (Hkeep p m name Hm) as (m' & Hm' & _).
    rewrite swap_expanded_cons,
      (swap_entry_run H g lg model K new p m' name HwalkH Hm' Hlast).
    destruct (IH (done ++ [(K, new)])
                 (<[p := OModule (set_modules m' (dict_set name (Some new) (_modules m')))]> H))
      as (h' & Hrun & Hsub').
    + by apply substituted_step.
    + intros e e' sl He He' Hsl. apply elem_of_app in He as [He|He].
      * apply (Hfree e e' sl He); [by right|done].
      * apply list_elem_of_singleton in He as ->. cbn [fst] in Hsl.
        rewrite HK in Hsl. injection Hsl as <-.
        rewrite Forall_forall in Hslot. by apply Hslot.
    + done.
    + exists h'. split; [done|]. by rewrite <- app_assoc in Hsub'.
Qed.

(** Entries that do not interfere are all substituted: when every key of
    the mapping addresses a child entry of a module and no key's path goes
    through a child entry that an earlier entry assigns, [swap_expanded]
    does not raise and returns the root; every addressed child entry holds
    the replacement of the last entry that addresses it, and every child
    entry no key addresses is as it was. *)
Theorem swap_expanded_of_independent_entries h g lg model mapping :
  independent h model mapping →
  ∃ h',
    swap_expanded model mapping (State h g lg) = (Ok model, State h' g lg) ∧
    (∀ i K new p name,
       mapping !! i = Some (K, new) → slot_of h model K = Some (p, name) →
       (∀ j e, i < j → mapping !! j = Some e → slot_of h model e.1 ≠ Some (p, name)) →
       ∃ m', h' !! p = Some (OModule m') ∧
             dict_get name (_modules m') = Some (Some new)) ∧
    (∀ l m name,
       h !! l = Some (OModule m) →
       (∀ e, e ∈ mapping → slot_of h model e.1 ≠ Some (l, name)) →
       ∃ m', h' !! l = Some (OModule m') ∧
             dict_get name (_modules m') = dict_get name (_modules m)).
Proof.
  intros Hind.
  destruct (swap_loop_independent h g lg model mapping [] h) as (h' & Hrun & Hkeep & Hset).
  - split; [|intros i K new p name Hi; by rewrite lookup_nil in Hi].
    intros l m name Hl. by exists m.
  - intros e e' sl He. by apply elem_of_nil in He.
  - done.
  - exists h'. split; [done|]. split; [done|].
    intros l m name Hl Hfree. destruct (Hkeep l m name Hl) as (m' & Hm' & Hsame).
    exists m'. split; [done|]. by apply Hsame.
Qed.

End independent_entries.

Lemma swap_expanded_of_independent_entries_witness :
  let h := example_model_heap ++ [OModule example_relu; OModule example_relu] in
  let mapping := [("pool", 6); ("body.pool", 7)] in
  independent h 0 mapping ∧
  ∃ h',
    swap_expanded 0 mapping (toy_state h) = (Ok 0, toy_state h') ∧
    (∃ m', h' !! 0 = Some (OModule m') ∧ dict_get "pool" (_modules m') = Some (Some 6)) ∧
    (∃ m', h' !! 3 = Some (OModule m') ∧ dict_get "pool" (_modules m') = Some (Some 7)) ∧
    (∃ m', h' !! 0 = Some (OModule m') ∧ dict_get "act" (_modules m') = Some (Some 2)).
Proof.
  cbv zeta.
  assert (Hind : independent
            (example_model_heap ++ [OModule example_relu; OModule example_relu]) 0
            [("pool", 6); ("body.pool", 7)]).
  { apply (bool_decide_unpack _). vm_compute. exact I. }
  split; [exact Hind|].
  destruct (swap_expanded_of_independent_entries (B := toy_backend) _ 0 [] 0 _ Hind)
    as (h' & Hrun & Hset & Hkeep).
  exists h'. split; [exact Hrun|]. split; [|split].
  - apply (Hset 0 "pool" 6 0 "pool"); [reflexivity|reflexivity|].
    intros [|[|j]] e Hj He; [lia| |done]. injection He as <-. by vm_compute.
  - apply (Hset 1 "body.pool" 7 3 "pool"); [reflexivity|reflexivity|].
    intros [|[|j]] e Hj He; [lia|lia|done].
  - destruct (Hkeep 0 _ "act" eq_refl) as (m' & Hm' & Hget); [|by exists m'].
    intros e He. repeat (apply elem_of_cons in He as [->|He]; [by vm_compute|]).
    by apply elem_of_nil in He.
Defined.

(** ** [auto_expand] substitutes every entry of its mapping *)

Section enumeration_once.
Context `{B : Backend}.

Lemma visit_once (go : gset loc → string → loc → result nm_acc) pre memo cs :
  (∀ memo1 name cl out memo2, go memo1 name cl = Ok (out, memo2) → listed_once memo1 out memo2) →
  ∀ out0 memo0 out memo',
    listed_once memo out0 memo0 →
    foldl (visit go pre) (Ok (out0, memo0)) cs = Ok (out, memo') →
    listed_once memo out memo'.
Proof.
  intros Hgo. induction cs as [|[name c] cs IH]; intros out0 memo0 out memo' H0; cbn [foldl].
  - by intros [= <- <-].
  - unfold visit at 2. cbn [fst snd]. destruct c as [cl|]; [|by apply IH].
    destruct (go memo0 (child_prefix pre name) cl) as [[out1 memo1]|e] eqn:Hg.
    + apply IH. destruct H0 as (Hnd0 & Hnew0 & Hmemo0).
      destruct (Hgo _ _ _ _ _ Hg) as (Hnd1 & Hnew1 & Hmemo1).
      split_and!.
      * rewrite fmap_app. apply NoDup_app. split_and!; [done| |done].
        intros u Hu0 Hu1. apply (Hnew1 u Hu1). apply Hmemo0. by right.
      * intros u. rewrite fmap_app, elem_of_app. intros [Hu|Hu]; [by apply Hnew0|].
        intros Hm. apply (Hnew1 u Hu). apply Hmemo0. by left.
      * intros u. rewrite fmap_app, elem_of_app, Hmemo1, Hmemo0. tauto.
    + by rewrite visit_raise.
Qed.

Lemma named_modules_go_once fuel h memo pre l out memo' :
  named_modules_go fuel h memo pre l = Ok (out, memo') → listed_once memo out memo'.
Proof.
  revert memo pre l out memo'.
  induction fuel as [|fuel IH]; intros memo pre l out memo'; cbn [named_modules_go]; [done|].
  destruct (h !! l) as [[d|t|m]|] eqn:Hl; try done.
  destruct (decide (l ∈ memo)) as [Hin|Hnin].
  - intros [= <- <-]. split_and!; [constructor|by intros u ?%elem_of_nil|].
    intros u. cbn. rewrite elem_of_nil. tauto.
  - apply (visit_once _ pre memo); [by eauto|].
    split_and!; cbn.
    + apply NoDup_singleton.
    + intros u ->%list_elem_of_singleton. done.
    + intros u. rewrite list_elem_of_singleton. set_solver.
Qed.

(** [named_modules] lists no node twice. *)
Lemma named_modules_once model (s : state) nm s' :
  named_modules model s = (Ok nm, s') → NoDup nm.*2.
Proof.
  unfold named_modules.
  destruct (named_modules_go _ _ _ _ _) as [[out memo]|e] eqn:Hgo; intros [= <- <-].
  by destruct (named_modules_go_once _ _ _ _ _ _ _ Hgo).
Qed.

End enumeration_once.

Section mapping_keys.
Context `{B : Backend}.

Lemma dict_set_NoDup {V} k (v : V) (d : list (string * V)) :
  NoDup d.*1 → NoDup (dict_set k v d).*1.
Proof.
  induction d as [|[k0 v0] d IH]; cbn; [intros _; apply NoDup_singleton|].
  intros [Hk0 Hd]%NoDup_cons. destruct (decide (k0 = k)) as [->|Hne]; cbn.
  - by apply NoDup_cons.
  - apply NoDup_cons. split; [|by apply IH].
    rewrite dict_set_keys. intros [?|?]; [congruence|done].
Qed.

Lemma expand_entry_keys table mapping e (s : state) mapping' s' :
  expand_entry table mapping e s = (Ok mapping', s') →
  mapping' = mapping ∨ ∃ new, mapping' = dict_set e.1 new mapping.
Proof.
  unfold expand_entry. intros Hrun.
  apply bind_inv_ok in Hrun as (m & s1 & _ & Hrun).
  destruct (table !! type_name m) as [f|]; [|left; by injection Hrun as <- _].
  apply bind_inv_ok in Hrun as (swapped & s2 & _ & Hrun).
  apply bind_inv_ok in Hrun as (t & s3 & _ & Hrun).
  destruct swapped as [new|]; [destruct t|]; injection Hrun as <- _; eauto.
Qed.

(** The mapping is a dictionary whose keys are names the enumeration
    yielded. *)
Lemma build_loop_keys table nm : ∀ mapping (s : state) mapping' s',
  foldlM (expand_entry table) mapping nm s = (Ok mapping', s') →
  NoDup mapping.*1 →
  NoDup mapping'.*1 ∧ ∀ K, K ∈ mapping'.*1 → K ∈ mapping.*1 ∨ K ∈ nm.*1.
Proof.
  induction nm as [|e nm IH]; intros mapping s mapping' s'; cbn [foldlM].
  - intros [= <- <-] Hnd. split; [done|]. by left.
  - intros Hrun Hnd. apply bind_inv_ok in Hrun as (mapping1 & s1 & Hone & Hrun).
    destruct (expand_entry_keys _ _ _ _ _ _ Hone) as [->|[new ->]].
    + destruct (IH _ _ _ _ Hrun Hnd) as [Hnd' Hkeys]. split; [done|].
      intros K HK. destruct (Hkeys K HK); [by left|]. right. cbn. by right.
    + destruct (IH _ _ _ _ Hrun (dict_set_NoDup _ _ _ Hnd)) as [Hnd' Hkeys]. split; [done|].
      intros K HK. destruct (Hkeys K HK) as [[->|?]%dict_set_keys|?].
      * right. cbn. by left.
      * by left.
      * right. cbn. by right.
Qed.

End mapping_keys.

Section unnested_nodes.
Context `{B : Backend}.
Implicit Types (h H : list obj) (l p model : loc).

Lemma walk_app h start xs ys :
  walk h start (xs ++ ys) =
  match walk h start xs with Some r => walk h r ys | None => None end.
Proof.
  revert start. induction xs as [|x xs IH]; intros start; cbn; [done|].
  destruct start as [pl|]; [|done].
  destruct (module_at h pl) as [m|]; [|done].
  destruct (dict_get x (_modules m)) as [c|]; [|done]. apply IH.
Qed.

Lemma walk_None h segs p : walk h None segs ≠ Some (Some p).
Proof. by destruct segs. Qed.

(** A child entry that a walk looks up lies on the walk. *)
Lemma walk_slots_on_walk h segs : ∀ start a seg p,
  (a, seg) ∈ walk_slots h start segs →
  walk h start segs = Some (Some p) →
  ∃ pre rest b,
    segs = pre ++ seg :: rest ∧
    walk h start pre = Some (Some a) ∧
    walk h (Some a) [seg] = Some (Some b) ∧
    walk h (Some b) rest = Some (Some p).
Proof.
  induction segs as [|x segs IH]; intros start a seg p; cbn [walk walk_slots].
  - by intros ?%elem_of_nil.
  - destruct start as [pl|]; [|by intros ?%elem_of_nil].
    destruct (module_at h pl) as [m|] eqn:Hm; [|done].
    destruct (dict_get x (_modules m)) as [c|] eqn:Hc; [|done].
    intros [[= -> ->]|Hin]%elem_of_cons Hw.
    + destruct c as [b|]; [|by destruct (walk_None h segs p)].
      exists [], segs, b. split_and!; [done|done| |done]. cbn. by rewrite Hm, Hc.
    + destruct (IH c a seg p Hin Hw) as (pre & rest & b & -> & Hpre & Hseg & Hrest).
      exists (x :: pre), rest, b. split_and!; [done| |done..]. cbn. by rewrite Hm, Hc.
Qed.

Lemma path_of_inj segs1 segs2 :
  Forall good_name segs1 → Forall good_name segs2 →
  path_of segs1 = path_of segs2 → segs1 = segs2.
Proof.
  intros H1 H2 Heq.
  destruct (decide (segs1 = [])) as [->|Hne1]; destruct (decide (segs2 = [])) as [->|Hne2].
  - done.
  - by destruct (path_of_nonempty segs2).
  - by destruct (path_of_nonempty segs1).
  - by rewrite <- (split_dots_path_of segs1), <- (split_dots_path_of segs2), Heq.
Qed.

(** The child entry a key of the mapping addresses: the root's entry of
    the empty name for the root's own key, else the entry that holds the
    node the key names. *)
Lemma key_slot h model segs u :
  well_named h →
  walk h (Some model) segs = Some (Some u) → is_Some (module_at h u) →
  (segs = [] ∧ slot_of h model (path_of segs) = Some (model, EmptyString)) ∨
  (∃ segs0 name p mp,
     segs = segs0 ++ [name] ∧ good_name name ∧
     slot_of h model (path_of segs) = Some (p, name) ∧
     split_dots (path_of segs) = segs ∧
     walk h (Some model) segs0 = Some (Some p) ∧
     h !! p = Some (OModule mp) ∧
     dict_get name (_modules mp) = Some (Some u)).
Proof.
  intros Hwf Hw [mu Hmu].
  pose proof (walk_names _ _ _ _ Hwf Hw) as Hgood.
  destruct segs as [|name segs0 _] using rev_ind.
  - left. split; [done|]. cbn in Hw. injection Hw as <-.
    unfold slot_of. cbn. by rewrite Hmu.
  - right. pose proof Hw as Hw'.
    apply walk_snoc in Hw' as (p & mp & Hp & Hmp & Hc).
    exists segs0, name, p, mp.
    assert (Hsplit : split_dots (path_of (segs0 ++ [name])) = segs0 ++ [name]).
    { apply split_dots_path_of; [by destruct segs0|done]. }
    split_and!; try done.
    + apply Forall_app in Hgood as [_ Hn]. exact (proj1 (Forall_singleton _ _) Hn).
    + unfold slot_of. rewrite Hsplit, but_last_snoc, last_snoc, Hp.
      apply module_at_Some in Hmp. by rewrite Hmp.
Qed.

Lemma independent_of_pairs h model mapping :
  (∀ e, e ∈ mapping → is_Some (slot_of h model e.1)) →
  (∀ e e' sl, e ∈ mapping → e' ∈ mapping → slot_of h model e.1 = Some sl →
              sl ∉ walk_slots h (Some model) (but_last (split_dots e'.1))) →
  independent h model mapping.
Proof.
  induction mapping as [|e rest IH]; intros Hslot Hfree; cbn [independent]; [done|].
  split.
  - destruct (Hslot e) as [sl Hsl]; [by left|]. rewrite Hsl.
    apply Forall_forall. intros e' He'. apply (Hfree e e' sl); [by left|by right|done].
  - apply IH.
    + intros e' He'. apply Hslot. by right.
    + intros e1 e2 sl H1 H2. apply Hfree; by right.
Qed.

Section one_pass.
Variables (h : list obj) (table : gmap string expander) (model : loc).
Variables (nm mapping : list (string * loc)).
Hypothesis Hwf : well_named h.
Hypothesis Hflat : unnested h table model.
Hypothesis Hnm : ∀ K u, (K, u) ∈ nm → enumerated h model EmptyString K u.
Hypothesis Honce : NoDup nm.*2.
Hypothesis Hmap : mapping_of h table model mapping.
Hypothesis Hkeys : ∀ K, K ∈ mapping.*1 → K ∈ nm.*1.

(** The node of a key: listed under the key, of a kind of the table. *)
Lemma key_node K new :
  (K, new) ∈ mapping →
  ∃ segs u, K = path_of segs ∧ walk h (Some model) segs = Some (Some u) ∧
            is_Some (module_at h u) ∧ kind_in_table h table u ∧ (K, u) ∈ nm.
Proof using Hwf Hnm Hmap Hkeys.
  intros Hin. destruct (Hmap K new Hin) as (_ & u & (segs & HK & Hw & Hu) & Hkind).
  exists segs, u. split_and!; try done.
  assert (K ∈ mapping.*1) as HKin.
  { apply list_elem_of_fmap. by exists (K, new). }
  apply Hkeys, list_elem_of_fmap in HKin as ([K' u'] & HK' & Hin'). cbn in HK'. subst K'.
  destruct (Hnm _ _ Hin') as (segs' & HK' & Hw' & _).
  assert (segs' = segs) as ->.
  { apply path_of_inj; [by eapply walk_names..|]. unfold path_of. by rewrite <- HK', <- HK. }
  rewrite Hw in Hw'. by injection Hw' as <-.
Qed.

Lemma key_addresses K new : (K, new) ∈ mapping → is_Some (slot_of h model K).
Proof using Hwf Hnm Hmap Hkeys.
  intros Hin. destruct (key_node K new Hin) as (segs & u & -> & Hw & Hu & _).
  destruct (key_slot h model segs u Hwf Hw Hu) as [[_ Hs]|(?&?&?&?&_&_&Hs&_)];
    rewrite Hs; eauto.
Qed.

Lemma keys_do_not_interfere K new K' new' sl :
  (K, new) ∈ mapping → (K', new') ∈ mapping →
  slot_of h model K = Some sl →
  sl ∉ walk_slots h (Some model) (but_last (split_dots K')).
Proof using Hwf Hflat Hnm Hmap Hkeys.
  intros Hin Hin' Hsl Hread.
  destruct (key_node K new Hin) as (segs & u & -> & Hw & Hu & Hkind & _).
  destruct (key_node K' new' Hin') as (segs' & u' & -> & Hw' & Hu' & Hkind' & _).
  destruct sl as [a seg].
  destruct (key_slot h model segs' u' Hwf Hw' Hu')
    as [[-> _]|(segs0' & name' & p' & mp' & -> & _ & _ & Hsplit' & Hp' & Hmp' & Hc')].
  { by apply elem_of_nil in Hread. }
  rewrite Hsplit', but_last_snoc in Hread.
  destruct (walk_slots_on_walk h segs0' _ a seg p' Hread Hp')
    as (pre & rest & b & -> & Hpre & Hseg & Hrest).
  assert (Hgseg : good_name seg).
  { pose proof (walk_names _ _ _ _ Hwf Hp') as Hg.
    apply Forall_app in Hg as [_ Hg]. by apply Forall_cons in Hg as [Hg _]. }
  destruct (key_slot h model segs u Hwf Hw Hu)
    as [[-> Hs]|(segs0 & name & p & mp & -> & _ & Hs & _ & Hp & Hmp & Hc)];
    rewrite Hs in Hsl.
  - injection Hsl as <- <-. by destruct Hgseg.
  - injection Hsl as <- <-.
    assert (b = u) as ->.
    { cbn in Hseg. apply module_at_Some in Hmp. rewrite Hmp, Hc in Hseg. congruence. }
    apply (Hflat (pre ++ [name]) (rest ++ [name']) u u').
    + by destruct pre.
    + by destruct rest.
    + by rewrite walk_app, Hpre.
    + done.
    + rewrite walk_app, Hrest. cbn. apply module_at_Some in Hmp'. by rewrite Hmp', Hc'.
    + done.
Qed.

Lemma keys_address_apart K new K' new' :
  (K, new) ∈ mapping → (K', new') ∈ mapping → K ≠ K' →
  slot_of h model K ≠ slot_of h model K'.
Proof using Hwf Hnm Honce Hmap Hkeys.
  intros Hin Hin' Hne Heq.
  destruct (key_node K new Hin) as (segs & u & -> & Hw & Hu & _ & Hlist).
  destruct (key_node K' new' Hin') as (segs' & u' & -> & Hw' & Hu' & _ & Hlist').
  destruct (key_slot h model segs u Hwf Hw Hu)
    as [[-> Hs]|(segs0 & name & p & mp & -> & Hg & Hs & _ & Hp & Hmp & Hc)];
  destruct (key_slot h model segs' u' Hwf Hw' Hu')
    as [[-> Hs']|(segs0' & name' & p' & mp' & -> & Hg' & Hs' & _ & Hp' & Hmp' & Hc')];
    rewrite Hs in Heq; rewrite ?Hs' in Heq.
  - done.
  - injection Heq as _ <-. by destruct Hg'.
  - injection Heq as _ ->. by destruct Hg.
  - injection Heq as <- <-.
    assert (u' = u) as -> by congruence.
    apply Hne.
    apply list_elem_of_lookup in Hlist as [i Hi], Hlist' as [j Hj].
    assert (i = j) as ->.
    { apply (NoDup_lookup _ _ _ u Honce); rewrite list_lookup_fmap; [by rewrite Hi|by rewrite Hj]. }
    congruence.
Qed.

End one_pass.

(** Modules of a kind of the table that have no children are not nested. *)
Lemma leaf_kinds_unnested h table model : leaf_kinds h table → unnested h table model.
Proof.
  intros Hleaf segs segs' a u _ Hne _ (ma & Hma & Hkind) Hw _.
  unfold leaf_kinds in Hleaf. rewrite Forall_forall in Hleaf.
  pose proof (Hleaf _ (list_elem_of_lookup_2 _ _ _ Hma) Hkind) as Hnil.
  destruct segs' as [|x segs']; [done|]. cbn in Hw.
  apply module_at_Some in Hma. by rewrite Hma, Hnil in Hw.
Qed.

(** A pass over nodes that are not nested: the substitution does not
    raise, and its entries are all applied to the hierarchy as it was. *)
Lemma unnested_pass model table (s : state) mapping s1 :
  well_named (heap s) → constructing table → unnested (heap s) table model →
  build_mapping model table s = (Ok mapping, s1) →
  ∃ nm h',
    auto_expand model (Some table) s =
      (Ok model,
       State h' (rng s1)
             (log s1 ++ ["Swapped " +:+ pretty (length mapping) +:+ " modules"])) ∧
    substituted (heap s) model mapping h' ∧
    NoDup mapping.*1 ∧ NoDup nm.*2 ∧
    (∀ K u, (K, u) ∈ nm → enumerated (heap s) model EmptyString K u) ∧
    mapping_of (heap s) table model mapping ∧
    (∀ K, K ∈ mapping.*1 → K ∈ nm.*1).
Proof.
  intros Hwf Htable Hflat Hbuild.
  destruct (build_mapping_sound model table s _ s1 Hwf Htable Hbuild) as (Hpre & _ & Hmap).
  specialize (Hmap mapping eq_refl).
  pose proof Hbuild as Hloop. unfold build_mapping in Hloop.
  apply bind_inv_ok in Hloop as (nm & s0 & Hnm & Hloop).
  pose proof (named_modules_once _ _ _ _ Hnm) as Honce.
  destruct (named_modules_sound model s _ s0 Hwf Hnm) as [-> Hsound].
  specialize (Hsound nm eq_refl).
  destruct (build_loop_keys _ _ _ _ _ _ Hloop (NoDup_nil_2 : NoDup ([] : list (string * loc)).*1))
    as [Hnd Hkeys0].
  assert (Hkeys : ∀ K, K ∈ mapping.*1 → K ∈ nm.*1).
  { intros K HK. destruct (Hkeys0 K HK) as [Hnil|?]; [by apply elem_of_nil in Hnil|done]. }
  assert (Hind : independent (heap s) model mapping).
  { apply independent_of_pairs.
    - intros [K new] Hin. by eapply key_addresses.
    - intros [K new] [K' new'] sl Hin Hin'. by eapply keys_do_not_interfere. }
  destruct (swap_loop_independent (heap s) (rng s1)
              (log s1 ++ ["Swapped " +:+ pretty (length mapping) +:+ " modules"])
              model mapping [] (heap s1))
    as (h' & Hrun & Hsub).
  { split; [|intros i K new p name Hi; by rewrite lookup_nil in Hi].
    intros l m name Hl. exists m. split; [by eapply prefix_lookup_Some|done]. }
  { intros e e' sl He. by apply elem_of_nil in He. }
  { done. }
  exists nm, h'. split_and!; try done.
  unfold auto_expand. cbn [default from_option].
  rewrite (bind_ok _ _ _ _ _ Hbuild).
  unfold logging_warning at 1. unfold mbind at 1, M_bind at 1.
  unfold mbind at 1, M_bind at 1. by rewrite Hrun.
Qed.

(** Where the nodes to convert are not nested, [auto_expand] substitutes
    every entry of the mapping it built: it does not raise in the
    substitution, returns the root, and each key's child entry (the entry
    of the key's last name in the node the names before it lead to; for
    the root's empty key the root's entry of the empty name) holds the
    key's replacement in the end.  A child entry that no key addresses is
    as it was. *)
Theorem auto_expand_substitutes_every_entry model expansions (s : state) mapping s1 :
  well_named (heap s) →
  constructing (default default_expansions expansions) →
  unnested (heap s) (default default_expansions expansions) model →
  build_mapping model (default default_expansions expansions) s = (Ok mapping, s1) →
  ∃ h',
    auto_expand model expansions s =
      (Ok model,
       State h' (rng s1)
             (log s1 ++ ["Swapped " +:+ pretty (length mapping) +:+ " modules"])) ∧
    (∀ K new, (K, new) ∈ mapping →
       ∃ p name m',
         slot_of (heap s) model K = Some (p, name) ∧
         h' !! p = Some (OModule m') ∧
         dict_get name (_modules m') = Some (Some new)) ∧
    (∀ (l : loc) m name,
       heap s !! l = Some (OModule m) →
       (∀ K new, (K, new) ∈ mapping → slot_of (heap s) model K ≠ Some (l, name)) →
       ∃ m', h' !! l = Some (OModule m') ∧
             dict_get name (_modules m') = dict_get name (_modules m)).
Proof.
  intros Hwf Htable Hflat Hbuild.
  destruct (unnested_pass model _ s mapping s1 Hwf Htable Hflat Hbuild)
    as (nm & h' & Hrun & [Hkeep Hset] & Hnd & Honce & Hsound & Hmap & Hkeys).
  exists h'. split; [by rewrite auto_expand_default|]. split.
  - intros K new Hin.
    destruct (key_addresses _ _ _ _ _ Hwf Hsound Hmap Hkeys K new Hin) as [[p name] Hslot].
    apply list_elem_of_lookup in Hin as [i Hi].
    destruct (Hset i K new p name Hi Hslot) as (m' & Hm' & Hget).
    { intros j [K' new'] Hij Hj Heq. cbn [fst] in Heq.
      apply (keys_address_apart _ _ _ _ _ Hwf Hsound Honce Hmap Hkeys K new K' new').
      - by eapply list_elem_of_lookup_2.
      - by eapply list_elem_of_lookup_2.
      - intros ->. assert (i = j); [|lia].
        apply (NoDup_lookup _ _ _ K' Hnd); rewrite list_lookup_fmap; [by rewrite Hi|by rewrite Hj].
      - by rewrite Hslot, Heq. }
    by exists p, name, m'.
  - intros l m name Hl Hfree. destruct (Hkeep l m name Hl) as (m' & Hm' & Hsame).
    exists m'. split; [done|]. apply Hsame. intros [K new] He. by eapply Hfree.
Qed.


End unnested_nodes.

Lemma example_model_leaf_kinds :
  leaf_kinds (B := toy_backend) example_model_heap default_expansions.
Proof.
  unfold leaf_kinds, example_model_heap.
  repeat (apply Forall_cons; split); [..|apply Forall_nil];
    first [reflexivity | intros [f Hf]; by vm_compute in Hf].
Qed.

Lemma auto_expand_substitutes_every_entry_witness :
  let s := toy_state example_model_heap in
  well_named (heap s) ∧
  constructing (B := toy_backend) (default default_expansions None) ∧
  unnested (B := toy_backend) (heap s) (default default_expansions None) 0 ∧
  (build_mapping 0 default_expansions s).1 = Ok [("pool", 6); ("body.pool", 7)] ∧
  ∃ h',
    auto_expand 0 None s = (Ok 0, @State toy_backend h' 0 ["Swapped 2 modules"]) ∧
    (∃ m', h' !! 0 = Some (OModule m') ∧ dict_get "pool" (_modules m') = Some (Some 6)) ∧
    (∃ m', h' !! 3 = Some (OModule m') ∧ dict_get "pool" (_modules m') = Some (Some 7)).
Proof.
  cbv zeta.
  assert (Hflat : unnested (B := toy_backend) (heap (toy_state example_model_heap))
                    (default default_expansions None) 0).
  { apply leaf_kinds_unnested, example_model_leaf_kinds. }
  assert (Hbuild : build_mapping 0 (default default_expansions None)
                     (toy_state example_model_heap) =
                   (Ok [("pool", 6); ("body.pool", 7)],
                    (build_mapping 0 default_expansions (toy_state example_model_heap)).2)).
  { by vm_compute. }
  split; [exact example_model_well_named|].
  split; [exact default_expansions_constructing|].
  split; [exact Hflat|]. split; [by vm_compute|].
  destruct (auto_expand_substitutes_every_entry 0 None (toy_state example_model_heap) _ _
              example_model_well_named default_expansions_constructing Hflat Hbuild)
    as (h' & Hrun & Hset & _).
  exists h'. split; [exact Hrun|]. split.
  - destruct (Hset "pool" 6) as (p & name & m' & Hslot & Hm' & Hget); [by left|].
    vm_compute in Hslot. injection Hslot as <- <-. by exists m'.
  - destruct (Hset "body.pool" 7) as (p & name & m' & Hslot & Hm' & Hget); [right; by left|].
    vm_compute in Hslot. injection Hslot as <- <-. by exists m'.
Defined.

Lemma example_shared_well_named : well_named example_shared_heap.
Proof. apply well_named_check. apply (bool_decide_unpack _). by vm_compute. Qed.

Lemma example_shared_leaf_kinds :
  leaf_kinds (B := toy_backend) example_shared_heap default_expansions.
Proof.
  unfold leaf_kinds, example_shared_heap.
  repeat (apply Forall_cons; split); [..|apply Forall_nil];
    first [reflexivity | intros [f Hf]; by vm_compute in Hf].
Qed.


(** ** [run_injected] on simple signatures *)

Section simple_calls.
Implicit Types (pos kwo params : list parameter) (F acc A : list (string * value)).

Lemma filled_ext params d d' :
  (∀ p, p ∈ params → dict_get (p_name p) d = dict_get (p_name p) d') →
  filled params d = filled params d'.
Proof.
  induction params as [|p params IH]; intros Hext; cbn [filled]; [done|].
  rewrite (Hext p ltac:(left)), IH; [done|]. intros q Hq. apply Hext. by right.
Qed.

Lemma filled_names params d env : filled params d = Some env → env.*1 = p_name <$> params.
Proof.
  revert env. induction params as [|p params IH]; intros env; cbn [filled].
  - by intros [= <-].
  - destruct (match dict_get (p_name p) d with Some v => Some v | None => p_default p end);
      [|done].
    destruct (filled params d) as [env'|]; [|done]. cbn. intros [= <-]. cbn.
    by rewrite (IH env').
Qed.

Lemma dict_get_app_l {V} k (d1 d2 : list (string * V)) v :
  dict_get k d1 = Some v → dict_get k (d1 ++ d2) = Some v.
Proof.
  induction d1 as [|[k0 v0] d1 IH]; cbn; [done|]. by destruct (decide (k0 = k)).
Qed.

Lemma dict_get_app_r {V} k (d1 d2 : list (string * V)) :
  dict_get k d1 = None → dict_get k (d1 ++ d2) = dict_get k d2.
Proof.
  induction d1 as [|[k0 v0] d1 IH]; cbn; [done|]. by destruct (decide (k0 = k)).
Qed.

Lemma dict_get_Some_key {V} k (d : list (string * V)) v : dict_get k d = Some v → k ∈ d.*1.
Proof.
  intros Hk%dict_get_elem_of. apply list_elem_of_fmap. by exists (k, v).
Qed.

Lemma dict_mem_false {V} k (d : list (string * V)) : dict_mem k d = false ↔ k ∉ d.*1.
Proof.
  unfold dict_mem. rewrite bool_decide_eq_false. split.
  - intros Hn Hin. apply Hn. apply list_elem_of_fmap in Hin as ([k' v] & -> & Hin).
    clear Hn. induction d as [|[k0 v0] d IH]; cbn; [by apply elem_of_nil in Hin|].
    destruct (decide (k0 = k')); [by eexists|]. apply IH.
    apply elem_of_cons in Hin as [[= <- <-]|Hin]; [done|done].
  - intros Hn [v Hv]. apply Hn. by eapply dict_get_Some_key.
Qed.

Lemma dict_mem_true {V} k (d : list (string * V)) : dict_mem k d = true ↔ k ∈ d.*1.
Proof.
  destruct (dict_mem k d) eqn:Hm.
  - split; [|done]. intros _. destruct (decide (k ∈ d.*1)) as [|Hn]; [done|].
    apply dict_mem_false in Hn. congruence.
  - apply dict_mem_false in Hm. split; [done|]. intros ?. done.
Qed.

Lemma dict_get_del_ne {V} k k' (d : list (string * V)) :
  k ≠ k' → dict_get k' (dict_del k d) = dict_get k' d.
Proof.
  intros Hne. induction d as [|[k0 v0] d IH]; cbn; [done|].
  destruct (decide (k0 = k)) as [->|Hk0]; cbn.
  - by rewrite decide_False.
  - by destruct (decide (k0 = k')).
Qed.

Lemma dict_del_keys_NoDup {V} k (d : list (string * V)) key :
  NoDup d.*1 → key ∈ (dict_del k d).*1 ↔ key ∈ d.*1 ∧ key ≠ k.
Proof.
  induction d as [|[k0 v0] d IH]; cbn; [set_solver|].
  intros [Hk0 Hd]%NoDup_cons. destruct (decide (k0 = k)) as [->|Hne]; cbn.
  - split; [|set_solver]. intros Hin. split; [set_solver|]. by intros ->.
  - rewrite elem_of_cons, IH by done. set_solver.
Qed.

Lemma dict_del_NoDup {V} k (d : list (string * V)) : NoDup d.*1 → NoDup (dict_del k d).*1.
Proof.
  induction d as [|[k0 v0] d IH]; cbn; [done|].
  intros [Hk0 Hd]%NoDup_cons. destruct (decide (k0 = k)) as [->|Hne]; cbn; [done|].
  apply NoDup_cons. split; [|by apply IH]. intros Hin. apply Hk0.
  by apply dict_del_keys_NoDup in Hin as [? _].
Qed.

(** *** The loops of [Signature._bind] *)

(** The loop over names, on parameters that may be named: it fails exactly
    where a parameter has neither a named argument nor a default, takes the
    names of the parameters out of the named arguments, and binds each
    parameter that is named. *)
Lemma bind_keywords_plain params F acc kp :
  Forall plain params → NoDup (p_name <$> params) → NoDup F.*1 →
  match bind_keywords params F acc kp with
  | Raise e => filled params F = None
  | Ok (A, F', kp') =>
      kp' = kp ∧ is_Some (filled params F) ∧
      (∀ key, key ∈ F'.*1 ↔ key ∈ F.*1 ∧ key ∉ p_name <$> params) ∧
      (∀ name, name ∉ p_name <$> params → dict_get name A = dict_get name acc) ∧
      (∀ p, p ∈ params → dict_get (p_name p) A =
                          match dict_get (p_name p) F with
                          | Some v => Some v
                          | None => dict_get (p_name p) acc
                          end)
  end.
Proof.
  intros Hplain. revert F acc.
  induction Hplain as [|p params Hp Hplain IH]; intros F acc Hnames HF; cbn [bind_keywords filled].
  { split_and!; [done|by eexists|set_solver|done|by intros p ?%elem_of_nil]. }
  cbn in Hnames. apply NoDup_cons in Hnames as [Hp_fresh Hnames].
  rewrite decide_False by (destruct Hp; congruence).
  rewrite decide_False by (destruct Hp; congruence).
  destruct (dict_get (p_name p) F) as [arg_val|] eqn:Harg.
  - rewrite decide_False by (destruct Hp; congruence).
    specialize (IH (dict_del (p_name p) F) (dict_set (p_name p) arg_val acc) Hnames
                   (dict_del_NoDup _ _ HF)).
    assert (Hsame : filled params (dict_del (p_name p) F) = filled params F).
    { apply filled_ext. intros q Hq. apply dict_get_del_ne. intros Heq. apply Hp_fresh.
      rewrite Heq. apply list_elem_of_fmap. by exists q. }
    rewrite Hsame in IH.
    destruct (bind_keywords params _ _ kp) as [[[A F'] kp']|e].
    + destruct IH as (-> & [env Henv] & Hkeys & Hother & Hbound).
      split_and!.
      * done.
      * rewrite Henv. by eexists.
      * intros key. rewrite Hkeys, dict_del_keys_NoDup by done. cbn. set_solver.
      * intros name Hname. cbn in Hname. rewrite Hother by set_solver.
        apply dict_get_set_ne. set_solver.
      * intros q [->|Hq]%elem_of_cons.
        -- rewrite Harg, Hother by done. apply dict_get_set_eq.
        -- assert (p_name p ≠ p_name q) as Hne.
           { intros Heq. apply Hp_fresh. rewrite Heq. apply list_elem_of_fmap. by exists q. }
           rewrite (Hbound q Hq), dict_get_del_ne by done.
           destruct (dict_get (p_name q) F); [done|]. by apply dict_get_set_ne.
    + by rewrite IH.
  - destruct (p_default p) as [d|] eqn:Hd.
    + rewrite decide_True by (by eexists).
      specialize (IH F acc Hnames HF).
      destruct (bind_keywords params F acc kp) as [[[A F'] kp']|e].
      * destruct IH as (-> & [env Henv] & Hkeys & Hother & Hbound).
        split_and!.
        -- done.
        -- rewrite Henv. by eexists.
        -- intros key. rewrite Hkeys. cbn. split; [|set_solver].
           intros [Hin Hn]. split; [done|]. intros [->|?]%elem_of_cons; [|done].
           apply dict_mem_true in Hin. unfold dict_mem in Hin.
           apply bool_decide_eq_true in Hin as [v Hv]. congruence.
        -- intros name Hname. cbn in Hname. apply Hother. set_solver.
        -- intros q [->|Hq]%elem_of_cons; [|by apply Hbound].
           rewrite Harg. by apply Hother.
      * by rewrite IH.
    + rewrite decide_False by (by intros [? ?]). done.
Qed.

(** The loop over the positional arguments, and then the loop over names,
    on a simple signature: together they fail exactly where [bind_simple]
    gives nothing, and otherwise use up the named arguments and bind what
    [bind_simple] binds, defaults apart. *)
Lemma bind_loops_simple pos kwo args F acc :
  simple_signature pos kwo → NoDup F.*1 →
  (∀ key, key ∈ F.*1 → key ∈ p_name <$> pos ++ kwo) →
  (∀ key, key ∈ acc.*1 → key ∉ p_name <$> pos ++ kwo) →
  match bind_positional (pos ++ kwo) args F acc with
  | Raise e => bind_simple pos kwo args F = None
  | Ok (A1, rest) =>
      match bind_keywords rest F A1 None with
      | Raise e => bind_simple pos kwo args F = None
      | Ok (A, F', kp) =>
          F' = [] ∧ kp = None ∧
          (∀ name, name ∉ p_name <$> pos ++ kwo → dict_get name A = dict_get name acc) ∧
          ∃ env, bind_simple pos kwo args F = Some env ∧ filled (pos ++ kwo) A = Some env
      end
  end.
Proof.
  intros (Hnames & Hpos & Hkwo) HF. revert args acc Hnames.
  (* the case of no positional argument left, at any list of plain parameters *)
  assert (Hnil : ∀ params acc,
    Forall plain params → NoDup (p_name <$> params) → NoDup F.*1 →
    (∀ key, key ∈ F.*1 → key ∈ p_name <$> params) →
    (∀ key, key ∈ acc.*1 → key ∉ p_name <$> params) →
    match bind_positional params [] F acc with
    | Raise e => filled params F = None
    | Ok (A1, rest) =>
        match bind_keywords rest F A1 None with
        | Raise e => filled params F = None
        | Ok (A, F', kp) =>
            F' = [] ∧ kp = None ∧
            (∀ name, name ∉ p_name <$> params → dict_get name A = dict_get name acc) ∧
            ∃ env, filled params F = Some env ∧ filled params A = Some env
        end
    end).
  { intros params acc Hplain Hnames _ Hdecl Hacc.
    assert (Hloop :
      match bind_keywords params F acc None with
      | Raise e => filled params F = None
      | Ok (A, F', kp) =>
          F' = [] ∧ kp = None ∧
          (∀ name, name ∉ p_name <$> params → dict_get name A = dict_get name acc) ∧
          ∃ env, filled params F = Some env ∧ filled params A = Some env
      end).
    { pose proof (bind_keywords_plain params F acc None Hplain Hnames HF) as Hkw.
      destruct (bind_keywords params F acc None) as [[[A F'] kp]|e]; [|done].
      destruct Hkw as (-> & [env Henv] & Hkeys & Hother & Hbound).
      split_and!; [|done|done|].
      - destruct F' as [|[k v] F']; [done|]. exfalso.
        destruct (Hkeys k) as [[Hin Hn] _]; [left|]. by apply Hn, Hdecl.
      - exists env. split; [done|]. rewrite <- Henv. apply filled_ext.
        intros p Hp. rewrite (Hbound p Hp).
        destruct (dict_get (p_name p) F) as [v|] eqn:Hv; [done|].
        destruct (dict_get (p_name p) acc) as [w|] eqn:Hw; [|done].
        exfalso. apply (Hacc (p_name p)); [by eapply dict_get_Some_key|].
        apply list_elem_of_fmap. by exists p. }
    destruct params as [|p params]; cbn [bind_positional]; [exact Hloop|].
    apply Forall_cons in Hplain as [Hp Hplain].
    rewrite decide_False by (destruct Hp; congruence).
    destruct (dict_mem (p_name p) F) eqn:Hmem.
    { rewrite decide_False by (destruct Hp; congruence). exact Hloop. }
    destruct (decide (p_kind p = VAR_KEYWORD ∨ is_Some (p_default p))) as [Hd|Hd];
      [exact Hloop|].
    cbn [filled]. unfold dict_mem in Hmem. apply bool_decide_eq_false in Hmem.
    destruct (dict_get (p_name p) F) as [v|]; [by destruct Hmem; eexists|].
    destruct (p_default p) as [d|]; [|done]. destruct Hd. right. by eexists. }
  induction Hpos as [|p pos Hp Hpos IH]; intros args acc Hnames Hdecl Hacc.
  - destruct args as [|v args].
    + cbn [bind_simple]. apply Hnil; try done.
      eapply Forall_impl; [exact Hkwo|]. intros q Hq. by right.
    + cbn [app bind_simple]. destruct kwo as [|q kwo]; cbn [bind_positional]; [done|].
      apply Forall_cons in Hkwo as [Hq _]. by rewrite decide_True by (by right).
  - destruct args as [|v args].
    + cbn [bind_simple]. apply Hnil; try done.
      apply Forall_app. split.
      * constructor; [by left|]. eapply Forall_impl; [exact Hpos|]. intros q Hq. by left.
      * eapply Forall_impl; [exact Hkwo|]. intros q Hq. by right.
    + cbn [app bind_simple bind_positional].
      rewrite decide_False by (intros [?|?]; congruence).
      rewrite decide_False by congruence.
      rewrite bool_decide_eq_false_2 by congruence. rewrite andb_true_r.
      destruct (dict_mem (p_name p) F) eqn:Hmem; [done|].
      cbn in Hnames. apply NoDup_cons in Hnames as [Hp_fresh Hnames].
      apply dict_mem_false in Hmem.
      assert (Hdecl' : ∀ key, key ∈ F.*1 → key ∈ p_name <$> pos ++ kwo).
      { intros key Hin. specialize (Hdecl key Hin). cbn in Hdecl. set_solver. }
      assert (Hacc' : ∀ key, key ∈ (dict_set (p_name p) v acc).*1 → key ∉ p_name <$> pos ++ kwo).
      { intros key [->|Hin]%dict_set_keys; [done|]. specialize (Hacc key Hin).
        cbn in Hacc. set_solver. }
      specialize (IH args (dict_set (p_name p) v acc) Hnames Hdecl' Hacc').
      destruct (bind_positional (pos ++ kwo) args F (dict_set (p_name p) v acc))
        as [[A1 rest]|e]; [|by rewrite IH].
      destruct (bind_keywords rest F A1 None) as [[[A F'] kp]|e]; [|by rewrite IH].
      destruct IH as (-> & -> & Hother & env & Henv & Hfilled).
      split; [done|]. split; [done|]. split.
      * intros name Hname. cbn in Hname. rewrite Hother by set_solver.
        apply dict_get_set_ne. set_solver.
      * exists ((p_name p, v) :: env). rewrite Henv. split; [done|].
        cbn [filled]. rewrite Hother by done. rewrite dict_get_set_eq.
        by rewrite Hfilled.
Qed.

Lemma apply_defaults_filled params A env :
  Forall plain params → filled params A = Some env → apply_defaults params A = env.
Proof.
  intros Hplain. revert env.
  induction Hplain as [|p params Hp Hplain IH]; intros env; cbn [filled apply_defaults].
  - by intros [= <-].
  - destruct (dict_get (p_name p) A) as [v|].
    + destruct (filled params A) as [env'|]; [|done]. cbn. intros [= <-].
      by rewrite (IH env').
    + destruct (p_default p) as [d|]; [|done].
      destruct (filled params A) as [env'|]; [|done]. cbn. intros [= <-].
      by rewrite (IH env').
Qed.

Lemma signature_bind_simple pos kwo args F :
  simple_signature pos kwo → NoDup F.*1 →
  (∀ key, key ∈ F.*1 → key ∈ p_name <$> pos ++ kwo) →
  match signature_bind (pos ++ kwo) args F with
  | Raise e => bind_simple pos kwo args F = None
  | Ok A => bind_simple pos kwo args F = Some (apply_defaults (pos ++ kwo) A)
  end.
Proof.
  intros Hsig HF Hdecl.
  pose proof (bind_loops_simple pos kwo args F [] Hsig HF Hdecl
                ltac:(by intros key ?%elem_of_nil)) as Hloops.
  unfold signature_bind.
  destruct (bind_positional (pos ++ kwo) args F []) as [[A1 rest]|e]; [|done].
  destruct (bind_keywords rest F A1 None) as [[[A F'] kp]|e]; [|done].
  destruct Hloops as (-> & -> & _ & env & Henv & Hfilled).
  rewrite Henv. f_equal. symmetry. apply apply_defaults_filled; [|done].
  destruct Hsig as (_ & Hpos & Hkwo). apply Forall_app. split.
  - eapply Forall_impl; [exact Hpos|]. intros q Hq. by left.
  - eapply Forall_impl; [exact Hkwo|]. intros q Hq. by right.
Qed.

(** *** Python's own binding *)

Lemma filter_positional pos kwo :
  Forall (λ p, p_kind p = POSITIONAL_OR_KEYWORD) pos →
  Forall (λ p, p_kind p = KEYWORD_ONLY) kwo →
  List.filter takes_positional (pos ++ kwo) = pos.
Proof.
  intros Hpos Hkwo. induction Hpos as [|p pos Hp Hpos IH]; cbn.
  - induction Hkwo as [|q kwo Hq Hkwo IH]; cbn; [done|].
    unfold takes_positional at 1. rewrite bool_decide_eq_false_2; [done|].
    intros [?|?]; congruence.
  - unfold takes_positional at 1. rewrite bool_decide_eq_true_2 by (by right).
    by rewrite IH.
Qed.

Lemma no_starred params : Forall plain params → has_kind VAR_POSITIONAL params = false.
Proof.
  unfold has_kind. induction 1 as [|p params Hp _ IH]; cbn; [done|].
  rewrite IH, bool_decide_eq_false_2; [done|]. destruct Hp; congruence.
Qed.

Lemma takes_named params key :
  Forall plain params → key ∈ p_name <$> params →
  existsb (λ p, takes_keyword p && bool_decide (p_name p = key)) params = true.
Proof.
  intros Hplain (p & -> & Hp)%list_elem_of_fmap. apply existsb_exists. exists p.
  split; [by apply list_elem_of_In|].
  rewrite Forall_forall in Hplain. specialize (Hplain p Hp).
  unfold takes_keyword. rewrite !bool_decide_eq_true_2; [done..|]. exact Hplain.
Qed.

(** The named arguments of a call whose names are all parameters that may
    be named: a name that a positional argument has filled is an error;
    otherwise they are added, in their order. *)
Lemma call_keywords_plain params named kwd F :
  Forall plain params → NoDup F.*1 →
  (∀ key, key ∈ F.*1 → key ∈ p_name <$> params) →
  match call_keywords params (named, kwd) F with
  | Raise e => exn_type e = TypeError ∧ ∃ key, key ∈ F.*1 ∧ key ∈ named.*1
  | Ok (named', kwd') =>
      named' = named ++ F ∧ kwd' = kwd ∧ ∀ key, key ∈ F.*1 → key ∉ named.*1
  end.
Proof.
  intros Hplain. revert named.
  induction F as [|[k v] F IH]; intros named HF Hdecl; cbn [call_keywords].
  { split_and!; [by rewrite app_nil_r|done|]. by intros key ?%elem_of_nil. }
  cbn in HF. apply NoDup_cons in HF as [Hk HF].
  unfold call_keyword at 1. cbn [fst snd].
  rewrite (takes_named params k Hplain) by (apply Hdecl; left).
  destruct (dict_mem k named) eqn:Hmem; cbn.
  { split; [done|]. exists k. split; [left|by apply dict_mem_true]. }
  apply dict_mem_false in Hmem.
  assert (Hset : dict_set k v named = named ++ [(k, v)]).
  { apply dict_set_absent. by apply dict_mem_false. }
  rewrite Hset.
  specialize (IH (named ++ [(k, v)]) HF ltac:(intros key ?; apply Hdecl; by right)).
  destruct (call_keywords params (named ++ [(k, v)], kwd) F) as [[named' kwd']|e].
  - destruct IH as (-> & -> & Hfresh). split_and!; [by rewrite <- app_assoc|done|].
    intros key [->|Hin]%elem_of_cons; [done|].
    intros Hnamed. apply (Hfresh key Hin). rewrite fmap_app. set_solver.
  - destruct IH as (He & key & Hin & Hnamed). split; [done|].
    rewrite fmap_app in Hnamed. apply elem_of_app in Hnamed as [Hnamed|Hnamed].
    + exists key. split; [by right|done].
    + cbn in Hnamed. apply list_elem_of_singleton in Hnamed as ->. done.
Qed.

(** The locals of a call, from the values bound by position and by name:
    [filled], as a result. *)
Lemma locals_filled params surplus kwdict d :
  Forall plain params →
  mapM (λ p,
          match p_kind p with
          | VAR_POSITIONAL => Ok (p_name p, VTuple surplus)
          | VAR_KEYWORD => Ok (p_name p, VDict kwdict)
          | _ =>
              match dict_get (p_name p) d with
              | Some v => Ok (p_name p, v)
              | None =>
                  match p_default p with
                  | Some d => Ok (p_name p, d)
                  | None => type_error "missing a required argument"
                  end
              end
          end) params =
  match filled params d with
  | Some env => Ok env
  | None => type_error "missing a required argument"
  end.
Proof.
  induction 1 as [|p params Hp _ IH]; cbn [mapM filled]; [done|].
  rewrite IH. clear IH.
  assert (Hkind : ∀ (X : Type) (a b c : X),
            match p_kind p with VAR_POSITIONAL => a | VAR_KEYWORD => b | _ => c end = c).
  { intros X a b c. by destruct Hp as [-> | ->]. }
  rewrite Hkind.
  destruct (dict_get (p_name p) d) as [v|]; [|destruct (p_default p) as [v|]];
    cbn; try done; by destruct (filled params d).
Qed.

Lemma zip_keys_lookup (names : list string) (args : list value) key :
  key ∈ (zip names args).*1 → key ∈ names.
Proof.
  revert args. induction names as [|n names IH]; intros [|v args]; cbn; try set_solver.
Qed.

(** [bind_simple], when the positional arguments are not too many and none
    of them fills a parameter that is also named. *)
Lemma bind_simple_filled pos kwo args F :
  NoDup (p_name <$> pos ++ kwo) →
  length args ≤ length pos →
  (∀ key, key ∈ F.*1 → key ∉ (zip (p_name <$> pos) args).*1) →
  bind_simple pos kwo args F = filled (pos ++ kwo) (zip (p_name <$> pos) args ++ F).
Proof.
  revert args. induction pos as [|p pos IH]; intros args Hnames Hlen Hfree.
  - destruct args; [done|]. cbn in Hlen. lia.
  - destruct args as [|v args]; [done|]. cbn in Hlen.
    cbn in Hnames. apply NoDup_cons in Hnames as [Hp Hnames].
    cbn [bind_simple fmap list_fmap zip zip_with app filled dict_get].
    rewrite decide_True by done.
    assert (Hmem : dict_mem (p_name p) F = false).
    { apply dict_mem_false. intros Hin. apply (Hfree _ Hin). cbn. left. }
    rewrite Hmem, IH; [|done|lia|].
    + f_equal. apply filled_ext. intros q Hq.
      cbn [dict_get]. rewrite decide_False; [done|].
      intros Heq. apply Hp. rewrite Heq. apply list_elem_of_fmap. by exists q.
    + intros key Hin Hzip. apply (Hfree key Hin). cbn. by right.
Qed.

Lemma bind_simple_too_many pos kwo args F :
  length pos < length args → bind_simple pos kwo args F = None.
Proof.
  revert args. induction pos as [|p pos IH]; intros [|v args] Hlen; cbn in *; try lia; [done|].
  destruct (dict_mem (p_name p) F); [done|]. rewrite IH by lia. done.
Qed.

Lemma bind_simple_twice pos kwo args F key :
  key ∈ F.*1 → key ∈ (zip (p_name <$> pos) args).*1 → bind_simple pos kwo args F = None.
Proof.
  intros HF. revert args. induction pos as [|p pos IH]; intros [|v args]; cbn;
    try (by intros ?%elem_of_nil).
  intros [->|Hin]%elem_of_cons.
  - apply dict_mem_true in HF. by rewrite HF.
  - destruct (dict_mem (p_name p) F); [done|]. by rewrite IH.
Qed.

(** Python's binding of a call to a simple signature is [bind_simple]; its
    errors are [TypeError]s. *)
Lemma py_bind_simple pos kwo args F :
  simple_signature pos kwo → NoDup F.*1 →
  (∀ key, key ∈ F.*1 → key ∈ p_name <$> pos ++ kwo) →
  match py_bind (pos ++ kwo) args F with
  | Ok env => bind_simple pos kwo args F = Some env
  | Raise e => bind_simple pos kwo args F = None ∧ exn_type e = TypeError
  end.
Proof.
  intros (Hnames & Hpos & Hkwo) HF Hdecl.
  assert (Hplain : Forall plain (pos ++ kwo)).
  { apply Forall_app. split.
    - eapply Forall_impl; [exact Hpos|]. intros q Hq. by left.
    - eapply Forall_impl; [exact Hkwo|]. intros q Hq. by right. }
  unfold py_bind. rewrite (filter_positional pos kwo Hpos Hkwo), (no_starred _ Hplain).
  rewrite andb_true_r.
  destruct (decide (length args ≤ length pos)) as [Hlen|Hlen].
  - rewrite drop_ge by done.
    rewrite bool_decide_eq_true_2 by done. cbn [negb].
    pose proof (call_keywords_plain (pos ++ kwo) (zip (p_name <$> pos) args) [] F
                  Hplain HF Hdecl) as Hkw.
    destruct (call_keywords _ _ F) as [[named' kwd']|e].
    + destruct Hkw as (-> & -> & Hfree). cbn.
      rewrite (locals_filled _ _ _ _ Hplain).
      rewrite (bind_simple_filled pos kwo args F Hnames Hlen Hfree).
      by destruct (filled _ _).
    + destruct Hkw as (He & key & Hin & Hzip). cbn. split; [|done].
      by eapply bind_simple_twice.
  - rewrite bool_decide_eq_false_2.
    + cbn. split; [|done]. apply bind_simple_too_many. lia.
    + intros Hdrop. apply Hlen. apply (f_equal length) in Hdrop.
      rewrite length_drop in Hdrop. cbn in Hdrop. lia.
Qed.

(** *** What [BoundArguments] gives back *)

Lemma dict_update_fresh {V} (acc upd : list (string * V)) :
  NoDup (acc ++ upd).*1 → dict_update acc upd = acc ++ upd.
Proof.
  unfold dict_update. revert acc. induction upd as [|[k v] upd IH]; intros acc Hnd; cbn.
  - by rewrite app_nil_r.
  - rewrite dict_set_absent.
    + rewrite IH; [by rewrite <- app_assoc|]. by rewrite <- app_assoc.
    + apply dict_mem_false. rewrite fmap_app in Hnd. apply NoDup_app in Hnd as (_ & Hd & _).
      intros Hin. apply (Hd k Hin). cbn. left.
Qed.

Section bound.
Variables (env : list (string * value)).
Hypothesis Henv : NoDup env.*1.

Lemma bound_args_simple pos kwo ep :
  Forall (λ p, p_kind p = POSITIONAL_OR_KEYWORD) pos →
  Forall (λ p, p_kind p = KEYWORD_ONLY) kwo →
  ep.*1 = p_name <$> pos → ep ⊆ env →
  bound_args (pos ++ kwo) env = ep.*2.
Proof using Henv.
  intros Hpos Hkwo. revert ep.
  induction Hpos as [|p pos Hp Hpos IH]; intros ep Hnames Hsub.
  - destruct ep; [|done]. destruct Hkwo as [|q kwo Hq _]; cbn; [done|].
    by rewrite decide_True by (by right).
  - destruct ep as [|[k v] ep]; [done|]. cbn in Hnames. injection Hnames as -> Hnames.
    cbn [app bind_positional bound_args].
    rewrite decide_False by (intros [?|?]; congruence).
    rewrite (dict_get_NoDup _ v env Henv) by (apply Hsub; left).
    rewrite decide_False by congruence. cbn. f_equal. apply IH; [done|].
    intros e He. apply Hsub. by right.
Qed.

Lemma bound_kwargs_named kwo ek started acc :
  Forall (λ p, p_kind p = KEYWORD_ONLY) kwo →
  ek.*1 = p_name <$> kwo → ek ⊆ env →
  bound_kwargs kwo env started acc = dict_update acc ek.
Proof using Henv.
  intros Hkwo. revert ek started acc.
  induction Hkwo as [|q kwo Hq Hkwo IH]; intros ek started acc Hnames Hsub.
  - by destruct ek.
  - destruct ek as [|[k v] ek]; [done|]. cbn in Hnames. injection Hnames as -> Hnames.
    cbn [bound_kwargs]. rewrite (dict_get_NoDup _ v env Henv) by (apply Hsub; left).
    rewrite decide_False by congruence.
    rewrite decide_True by (by right).
    assert (Hrest : ek ⊆ env) by (intros e He; apply Hsub; by right).
    destruct started; by rewrite (IH ek _ _ Hnames Hrest).
Qed.

Lemma bound_kwargs_simple pos kwo ek :
  Forall (λ p, p_kind p = POSITIONAL_OR_KEYWORD) pos →
  Forall (λ p, p_kind p = KEYWORD_ONLY) kwo →
  (∀ p, p ∈ pos → p_name p ∈ env.*1) →
  ek.*1 = p_name <$> kwo → ek ⊆ env →
  bound_kwargs (pos ++ kwo) env false [] = dict_update [] ek.
Proof using Henv.
  intros Hpos Hkwo Hin Hnames Hsub.
  induction Hpos as [|p pos Hp Hpos IH]; cbn [app].
  - by apply bound_kwargs_named.
  - cbn [bound_kwargs]. rewrite decide_False by (intros [?|?]; congruence).
    assert (Hmem : dict_mem (p_name p) env = true) by (apply dict_mem_true, Hin; left).
    rewrite Hmem. apply IH. intros q Hq. apply Hin. by right.
Qed.

End bound.

Lemma filled_self params d ek :
  ek.*1 = p_name <$> params → (∀ k v, (k, v) ∈ ek → dict_get k d = Some v) →
  filled params d = Some ek.
Proof.
  revert ek. induction params as [|p params IH]; intros [|[k v] ek] Hnames Hget; try done.
  cbn in Hnames. injection Hnames as -> Hnames. cbn [filled].
  rewrite (Hget _ v) by left. rewrite (IH ek); [done|done|].
  intros k' v' Hin. apply Hget. by right.
Qed.

Lemma bind_simple_round_trip pos kwo ep ek :
  NoDup (ep ++ ek).*1 → ep.*1 = p_name <$> pos → ek.*1 = p_name <$> kwo →
  bind_simple pos kwo ep.*2 ek = Some (ep ++ ek).
Proof.
  revert ep. induction pos as [|p pos IH]; intros [|[k v] ep] Hnd Hp Hk; try done.
  - cbn. apply filled_self; [done|]. intros k v Hin. by apply dict_get_NoDup.
  - cbn in Hp. injection Hp as -> Hp. cbn in Hnd. apply NoDup_cons in Hnd as [Hfresh Hnd].
    cbn [fmap list_fmap snd bind_simple].
    assert (Hmem : dict_mem (p_name p) ek = false).
    { apply dict_mem_false. intros Hin. apply Hfresh. rewrite fmap_app. set_solver. }
    rewrite Hmem. by rewrite (IH ep Hnd Hp Hk).
Qed.

Lemma bind_simple_names pos kwo args F env :
  bind_simple pos kwo args F = Some env → env.*1 = p_name <$> pos ++ kwo.
Proof.
  revert pos env. induction args as [|v args IH]; intros pos env; cbn [bind_simple].
  - apply filled_names.
  - destruct pos as [|p pos]; [done|]. destruct (dict_mem (p_name p) F); [done|].
    destruct (bind_simple pos kwo args F) as [env'|] eqn:Henv; [|done].
    cbn. intros [= <-]. cbn. by rewrite (IH pos env').
Qed.

(** The arguments [run_injected] calls a function of a simple signature
    with, made from a complete binding, bind to that very binding. *)
Lemma call_with_bound_arguments pos kwo env :
  simple_signature pos kwo → env.*1 = p_name <$> pos ++ kwo →
  py_bind (pos ++ kwo) (bound_args (pos ++ kwo) env) (bound_kwargs (pos ++ kwo) env false [])
  = Ok env.
Proof.
  intros Hsig Hnames. pose proof Hsig as (Hnd & Hpos & Hkwo).
  assert (Henv : NoDup env.*1) by (by rewrite Hnames).
  set (ep := take (length pos) env). set (ek := drop (length pos) env).
  assert (Hsplit : env = ep ++ ek) by (unfold ep, ek; by rewrite take_drop).
  assert (Hep : ep.*1 = p_name <$> pos).
  { unfold ep. rewrite fmap_take, Hnames, fmap_app, take_app_length'; [done|].
    by rewrite length_fmap. }
  assert (Hek : ek.*1 = p_name <$> kwo).
  { unfold ek. rewrite fmap_drop, Hnames, fmap_app, drop_app_length'; [done|].
    by rewrite length_fmap. }
  rewrite (bound_args_simple env Henv pos kwo ep Hpos Hkwo Hep)
    by (rewrite Hsplit; set_solver).
  rewrite (bound_kwargs_simple env Henv pos kwo ek Hpos Hkwo); [|
    intros p Hp; rewrite Hnames, fmap_app; apply elem_of_app; left;
      apply list_elem_of_fmap; by exists p
    | done | rewrite Hsplit; set_solver].
  assert (Hnd' : NoDup (ep ++ ek).*1) by (by rewrite <- Hsplit).
  rewrite (dict_update_fresh [] ek) by (rewrite fmap_app in Hnd'; by apply NoDup_app in Hnd' as (_ & _ & ?)).
  cbn [app].
  pose proof (py_bind_simple pos kwo ep.*2 ek Hsig) as Hbind.
  rewrite (bind_simple_round_trip pos kwo ep ek Hnd' Hep Hek) in Hbind.
  destruct (py_bind (pos ++ kwo) ep.*2 ek) as [env'|e].
  - rewrite Hsplit. f_equal. symmetry. apply (inj Some). apply Hbind.
    + rewrite fmap_app in Hnd'. by apply NoDup_app in Hnd' as (_ & _ & ?).
    + intros key Hin. rewrite fmap_app, <- Hek. set_solver.
  - destruct Hbind as [Hbind _]; [| |done].
    + rewrite fmap_app in Hnd'. by apply NoDup_app in Hnd' as (_ & _ & ?).
    + intros key Hin. rewrite fmap_app, <- Hek. set_solver.
Qed.

(** *** Errors of the binding *)

Lemma bind_positional_error params args kw acc e :
  bind_positional params args kw acc = Raise e → exn_type e = TypeError.
Proof.
  revert params acc. induction args as [|v args IH]; intros [|p params] acc;
    cbn [bind_positional]; unfold type_error; try done; try (by intros [= <-]).
  - destruct (decide (p_kind p = VAR_POSITIONAL)); [done|].
    destruct (dict_mem (p_name p) kw).
    + destruct (decide (p_kind p = POSITIONAL_ONLY)); [by intros [= <-]|done].
    + destruct (decide (p_kind p = VAR_KEYWORD ∨ is_Some (p_default p)));
        [done|by intros [= <-]].
  - destruct (decide (p_kind p = VAR_KEYWORD ∨ p_kind p = KEYWORD_ONLY));
      [by intros [= <-]|].
    destruct (decide (p_kind p = VAR_POSITIONAL)); [done|].
    destruct (dict_mem (p_name p) kw && negb (bool_decide (p_kind p = POSITIONAL_ONLY)));
      [by intros [= <-]|apply IH].
Qed.

Lemma bind_keywords_error params kw acc kp e :
  bind_keywords params kw acc kp = Raise e → exn_type e = TypeError.
Proof.
  revert kw acc kp. induction params as [|p params IH]; intros kw acc kp;
    cbn [bind_keywords]; unfold type_error; [done|].
  destruct (decide (p_kind p = VAR_KEYWORD)); [apply IH|].
  destruct (decide (p_kind p = VAR_POSITIONAL)); [apply IH|].
  destruct (dict_get (p_name p) kw).
  - destruct (decide (p_kind p = POSITIONAL_ONLY)); [by intros [= <-]|apply IH].
  - destruct (decide (is_Some (p_default p))); [apply IH|by intros [= <-]].
Qed.

Lemma signature_bind_error sig args kw e :
  signature_bind sig args kw = Raise e → exn_type e = TypeError.
Proof.
  unfold signature_bind.
  destruct (bind_positional sig args kw []) as [[A1 rest]|e1] eqn:Hpos.
  - destruct (bind_keywords rest kw A1 None) as [[[A F'] kp]|e2] eqn:Hkw.
    + destruct F'; [done|]. destruct kp; [done|]. unfold type_error. by intros [= <-].
    + intros [= <-]. by eapply bind_keywords_error.
  - intros [= <-]. by eapply bind_positional_error.
Qed.


Lemma out_kwargs_NoDup fn kwargs : NoDup kwargs.*1 → NoDup (out_kwargs fn kwargs).*1.
Proof.
  unfold out_kwargs. induction kwargs as [|[k v] kwargs IH]; cbn; [done|].
  intros [Hk Hnd]%NoDup_cons. destruct (bool_decide _); cbn; [|by apply IH].
  apply NoDup_cons. split; [|by apply IH].
  intros ([k' v'] & -> & Hin)%list_elem_of_fmap. apply Hk.
  apply list_elem_of_fmap. exists (k', v'). split; [done|].
  by eapply out_kwargs_supplied.
Qed.

Lemma out_kwargs_get fn kwargs key :
  key ∈ p_name <$> fn_signature fn →
  dict_get key (out_kwargs fn kwargs) = dict_get key kwargs.
Proof.
  intros Hkey. unfold out_kwargs. induction kwargs as [|[k v] kwargs IH]; cbn; [done|].
  destruct (bool_decide (k ∈ fn_arg_names fn)) eqn:Hk; cbn.
  - by rewrite IH.
  - rewrite IH. rewrite decide_False; [done|]. intros ->.
    apply bool_decide_eq_false in Hk. apply Hk. unfold fn_arg_names.
    by apply elem_of_list_to_set.
Qed.


End simple_calls.

Lemma foo_simple :
  simple_signature [Param "x" POSITIONAL_OR_KEYWORD None;
                    Param "y" POSITIONAL_OR_KEYWORD (Some (VInt 1))]
                   [Param "z" KEYWORD_ONLY (Some VNone)].
Proof.
  split_and!.
  - apply (bool_decide_unpack _). by vm_compute.
  - by repeat constructor.
  - by repeat constructor.
Qed.




(** ** [run_injected]: calls that do not fit the signature *)

Section misfits.
Implicit Types (pos kwo params : list parameter) (F : list (string * value)).

Lemma zip_keys_index (names : list string) (args : list value) key :
  key ∈ (zip names args).*1 ↔ ∃ i, i < length args ∧ names !! i = Some key.
Proof.
  revert args. induction names as [|n names IH]; intros [|v args]; cbn.
  - split; [by intros ?%elem_of_nil|by intros (i & _ & ?)].
  - split; [by intros ?%elem_of_nil|by intros (i & _ & ?)].
  - split; [by intros ?%elem_of_nil|intros (i & ? & _); lia].
  - rewrite elem_of_cons, IH. split.
    + intros [->|(i & Hi & Hn)]; [exists 0; split; [lia|done]|exists (S i); split; [lia|done]].
    + intros ([|i] & Hi & Hn); [left; by injection Hn|right; exists i; split; [lia|done]].
Qed.

Lemma filled_missing params d p :
  p ∈ params → p_default p = None → dict_get (p_name p) d = None → filled params d = None.
Proof.
  intros Hin Hdef Hget. induction params as [|q params IH]; [by apply elem_of_nil in Hin|].
  cbn [filled]. apply elem_of_cons in Hin as [<-|Hin].
  - by rewrite Hget, Hdef.
  - rewrite (IH Hin). by destruct (match dict_get (p_name q) d with Some v => Some v | None => p_default q end).
Qed.

(** A call that does not fit a simple signature is refused before the
    function runs: with more positional arguments than positional
    parameters, with a supplied key that names a parameter a positional
    argument already fills, or with a parameter that has no default and
    gets neither a positional argument nor a supplied key, [run_injected]
    raises [TypeError]. *)
Theorem run_injected_refuses_calls_that_do_not_fit pos kwo body args kwargs :
  simple_signature pos kwo → NoDup kwargs.*1 →
  (length pos < length args ∨
   (∃ i p, i < length args ∧ pos !! i = Some p ∧ p_name p ∈ kwargs.*1) ∨
   (∃ i p, length args ≤ i ∧ (pos ++ kwo) !! i = Some p ∧
           p_default p = None ∧ p_name p ∉ kwargs.*1)) →
  ∃ e, run_injected (py_function (pos ++ kwo) body) args kwargs = Raise e ∧
       exn_type e = TypeError.
Proof.
  intros Hsig Hkw Hmisfit.
  set (fn := py_function (pos ++ kwo) body).
  set (F := out_kwargs fn kwargs).
  assert (HF : NoDup F.*1) by (by apply out_kwargs_NoDup).
  assert (Hdecl : ∀ key, key ∈ F.*1 → key ∈ p_name <$> pos ++ kwo).
  { intros key Hin. by apply (out_kwargs_declared fn kwargs). }
  assert (Hnone : bind_simple pos kwo args F = None).
  { destruct Hmisfit as [Hmany|[(i & p & Hi & Hp & Hkey)|(i & p & Hi & Hp & Hdef & Hkey)]].
    - by apply bind_simple_too_many.
    - apply (bind_simple_twice _ _ _ _ (p_name p)).
      + apply dict_mem_true in Hkey. unfold dict_mem in Hkey.
        apply bool_decide_eq_true in Hkey as [v Hv].
        apply (dict_get_Some_key _ _ v). unfold F. rewrite out_kwargs_get; [done|].
        cbn. rewrite fmap_app. apply elem_of_app. left.
        apply list_elem_of_fmap. exists p. split; [done|]. by eapply list_elem_of_lookup_2.
      + apply zip_keys_index. exists i. split; [done|]. by rewrite list_lookup_fmap, Hp.
    - destruct (decide (length pos < length args)) as [Hmany|Hfew];
        [by apply bind_simple_too_many|].
      destruct (decide (Exists (λ key, key ∈ (zip (p_name <$> pos) args).*1) F.*1))
        as [Hclash|Hfree].
      + apply Exists_exists in Hclash as (key & HkF & Hkz).
        by apply (bind_simple_twice _ _ _ _ key).
      + rewrite bind_simple_filled; [|by destruct Hsig|lia|].
        * apply (filled_missing _ _ p); [by eapply list_elem_of_lookup_2|done|].
          apply dict_get_None. rewrite fmap_app, elem_of_app. intros [Hz|HFk].
          -- apply zip_keys_index in Hz as (j & Hj & Hn).
             destruct Hsig as [Hnd _]. assert (i = j); [|lia].
             apply (NoDup_lookup _ _ _ (p_name p) Hnd).
             ++ by rewrite list_lookup_fmap, Hp.
             ++ rewrite fmap_app. by apply lookup_app_l_Some.
          -- apply Hkey. apply list_elem_of_fmap in HFk as (kv & -> & Hin).
             apply list_elem_of_fmap. exists kv. split; [done|].
             by apply (out_kwargs_supplied fn).
        * intros key HkF Hkz. apply Hfree. apply Exists_exists. by exists key. }
  pose proof (signature_bind_simple pos kwo args F Hsig HF Hdecl) as Hinspect.
  unfold run_injected, injected_arguments. fold fn. fold F.
  change (fn_signature fn) with (pos ++ kwo).
  destruct (signature_bind (pos ++ kwo) args F) as [A|e] eqn:Hbind; [congruence|].
  exists e. split; [done|]. by eapply signature_bind_error.
Qed.

End misfits.

Lemma run_injected_refuses_calls_that_do_not_fit_witness :
  (∃ e, run_injected foo [VInt 1; VInt 2; VInt 3] [] = Raise e ∧ exn_type e = TypeError) ∧
  (∃ e, run_injected foo [VInt 1] [("x", VInt 2)] = Raise e ∧ exn_type e = TypeError) ∧
  (∃ e, run_injected foo [] [("y", VInt 2); ("u", VInt 0)] = Raise e ∧ exn_type e = TypeError).
Proof.
  pose proof (run_injected_refuses_calls_that_do_not_fit
                [Param "x" POSITIONAL_OR_KEYWORD None;
                 Param "y" POSITIONAL_OR_KEYWORD (Some (VInt 1))]
                [Param "z" KEYWORD_ONLY (Some VNone)]
                (λ env,
                   match dict_get "x" env, dict_get "y" env, dict_get "z" env with
                   | Some x, Some y, Some z => Ok (VTuple [x; y; z])
                   | _, _, _ => Raise (Exn SystemError "unbound local")
                   end)) as Hrefuses.
  split; [|split].
  - apply (Hrefuses [VInt 1; VInt 2; VInt 3] [] foo_simple); [constructor|].
    left. cbn. lia.
  - apply (Hrefuses [VInt 1] [("x", VInt 2)] foo_simple); [apply NoDup_singleton|].
    right. left. exists 0, (Param "x" POSITIONAL_OR_KEYWORD None).
    split; [cbn; lia|]. split; [done|]. cbn. by left.
  - apply (Hrefuses [] [("y", VInt 2); ("u", VInt 0)] foo_simple).
    { apply (bool_decide_unpack _). by vm_compute. }
    right. right. exists 0, (Param "x" POSITIONAL_OR_KEYWORD None).
    split; [cbn; lia|]. split; [done|]. split; [done|].
    cbn. intros Hin. repeat (apply elem_of_cons in Hin as [Hin|Hin]; [done|]).
    by apply elem_of_nil in Hin.
Defined.
